(** * points: a raster image rendered as halftone dots

    A shallow embedding of [makeDots] and of the two luma functions of the
    [points] command, together with the properties its specification states
    about them; then of [main], [readImage] and the earlier [makeDots], with
    further properties of the code.

    Conventions of the model.
    - Go's [int] is the 64-bit two's complement integer of the usual build
      targets; [uint32] wraps modulo [2^32].  Both are carried by [Z] with the
      wrap-around written out ([GoInt]).
    - Go's [float64] is IEEE 754 binary64, every operation rounded to nearest
      even on its own (no fused multiply-add): Rocq's primitive floats.
    - The SVG canvas of the svgo package is a write-only sink: the commands
      handed to it are recorded in order ([SvgCmd]).
    - A run-time panic (integer division by zero) unwinds [makeDots]; the
      deferred [canvas.End] still runs. *)

From Stdlib Require Import Reals Lra Psatz.
From Stdlib Require Import ZArith List String Ascii Bool Lia Floats.
From Stdlib Require Uint63.
From Stdlib Require Import Sorted.
Import ListNotations.

Set Warnings "-inexact-float".

Local Open Scope Z_scope.

(* ===================================================================== *)
(** ** Machine integers *)

Module GoInt.

Definition two63 : Z := Eval cbv in 2 ^ 63.
Definition mask32 : Z := Eval cbv in Z.ones 32.
Definition mask64 : Z := Eval cbv in Z.ones 64.

(** A mathematical integer reduced to Go's 64-bit [int]: the low 64 bits,
    read as a signed number. *)
Definition wrap64 (z : Z) : Z := Z.land (z + two63) mask64 - two63.

Definition add (a b : Z) : Z := wrap64 (a + b).
Definition mul (a b : Z) : Z := wrap64 (a * b).

(** [a / b] on [int]: truncated division; [None] is the run-time panic
    "integer divide by zero". *)
Definition quot (a b : Z) : Z := wrap64 (Z.quot a b).
Definition quo (a b : Z) : option Z :=
  if b =? 0 then None else Some (quot a b).

(** Conversion [uint32(z)] and arithmetic on [uint32]. *)
Definition u32 (z : Z) : Z := Z.land z mask32.
Definition u32add (a b : Z) : Z := u32 (a + b).
Definition u32quo (a b : Z) : option Z :=
  if b =? 0 then None else Some (a / b).

End GoInt.

(* ===================================================================== *)
(** ** float64 conversions *)

Module Float64.

(** [float64(v)] for a [uint32] value [v]. *)
Definition of_uint32 (v : Z) : float := of_uint63 (Uint63.of_Z v).

(** [float64(z)] for an [int] value [z]: the magnitude is rounded to
    nearest even, the sign is kept. *)
Definition of_int (z : Z) : float :=
  let a := Z.abs z in
  let f := if a <? GoInt.two63 then of_uint63 (Uint63.of_Z a) else 0x1p+63%float in
  if z <? 0 then (- f)%float else f.

(** [int(f)]: the fraction is discarded.  Where the value does not fit
    ([NaN], infinities, magnitude of [2^63] and more) Go leaves the result
    to the implementation; amd64 yields the most negative integer. *)
Definition to_int (f : float) : Z :=
  match Prim2SF f with
  | S754_zero _ => 0
  | S754_finite s m e =>
      let a := Z.shiftl (Zpos m) e in
      let v := if s then - a else a in
      if (- GoInt.two63 <=? v) && (v <? GoInt.two63) then v else - GoInt.two63
  | _ => - GoInt.two63
  end.

(** [math.Pi], as the float64 it becomes in a float64 expression. *)
Definition Pi : float :=
  3.14159265358979323846264338327950288419716939937510582097494459%float.

(** The test [a >= b]. *)
Definition geb (a b : float) : bool := (b <=? a)%float.

End Float64.

(* ===================================================================== *)
(** ** The image, the canvas and the file system *)

(** What [makeDots] uses of an [image.Image]: the extent of its bounds and
    [At(x, y).RGBA()], the colour at a point as three [uint32] channels
    (alpha is read and dropped). *)
Record Image := {
  Dx : Z;
  Dy : Z;
  At : Z -> Z -> Z * Z * Z
}.

(** The calls made on the svgo canvas. *)
Inductive SvgCmd :=
| CanvasStart (w h : Z)
| CanvasCircle (cx cy r : Z) (style : string)
| CanvasEnd.

Inductive Failure := DivideByZero.

(** How a call of [makeDots] ends: it returns, it panics, or [log.Fatalf]
    stops the program because the output file could not be created. *)
Inductive Exit := Returned | Panicked (f : Failure) | Fatal.

(** The part of the world [makeDots] touches: which paths [os.Create]
    refuses, and what each file holds. *)
Record World := {
  denied : string -> bool;
  files : string -> option (list SvgCmd)
}.

Definition writeFile (w : World) (name : string) (content : list SvgCmd) : World :=
  {| denied := denied w;
     files := fun n => if String.eqb n name then Some content else files w n |}.

(** Package-level state read by [makeDots]: the flag [-l]. *)
Record Globals := { bt701 : bool }.

(* ===================================================================== *)
(** ** Drawing computations: output to the canvas, or a panic *)

Module Draw.

Inductive Res (A : Type) :=
| Ok (a : A)
| Panic (f : Failure).
Arguments Ok {A} a.
Arguments Panic {A} f.

(** A computation yields a result and the commands it wrote. *)
Definition M (A : Type) : Type := Res A * list SvgCmd.

Definition ret {A} (a : A) : M A := (Ok a, []).

Definition bind {A B} (m : M A) (f : A -> M B) : M B :=
  match m with
  | (Ok a, out) => let (r, out') := f a in (r, out ++ out')
  | (Panic e, out) => (Panic e, out)
  end.

Definition emit (c : SvgCmd) : M unit := (Ok tt, [c]).
Definition panic {A} (e : Failure) : M A := (Panic e, []).

Definition lift {A} (o : option A) : M A :=
  match o with
  | Some a => ret a
  | None => panic DivideByZero
  end.

(** [for _, a := range l { body a }]. *)
Fixpoint forEach {A} (l : list A) (body : A -> M unit) : M unit :=
  match l with
  | [] => ret tt
  | a :: l' => bind (body a) (fun _ => forEach l' body)
  end.

End Draw.

Import Draw.

Notation "x <- m ;; k" := (Draw.bind m (fun x => k))
  (at level 61, m at next level, right associativity).
Notation "m ;;; k" := (Draw.bind m (fun _ => k))
  (at level 61, right associativity).

(** The values of [v] in [for v := 0; v < n; v++]. *)
Definition upto (n : Z) : list Z := map Z.of_nat (seq 0 (Z.to_nat n)).

(** The circles among the commands written. *)
Definition circles (out : list SvgCmd) : list SvgCmd :=
  filter (fun c => match c with CanvasCircle _ _ _ _ => true | _ => false end) out.

(* ===================================================================== *)
(** ** Luma *)

(** ITU BT.709. *)
Definition lumaBT709 (r g b : Z) : float :=
  (((0.2126 * Float64.of_uint32 r) + (0.7152 * Float64.of_uint32 g)
    + (0.0722 * Float64.of_uint32 b)) / 255.0)%float.

(** ITU BT.601. *)
Definition lumaBT601 (r g b : Z) : float :=
  (((0.299 * Float64.of_uint32 r) + (0.587 * Float64.of_uint32 g)
    + (0.144 * Float64.of_uint32 b)) / 255.0)%float.

(* ===================================================================== *)
(** ** fmt.Sprintf *)

Definition hexDigit (d : Z) : ascii :=
  nth (Z.to_nat d)
      ["0"; "1"; "2"; "3"; "4"; "5"; "6"; "7";
       "8"; "9"; "a"; "b"; "c"; "d"; "e"; "f"]%char "0"%char.

Fixpoint hexDigits (fuel : nat) (n : Z) (acc : string) : string :=
  match fuel with
  | O => acc
  | S k =>
      let acc' := String (hexDigit (n mod 16)) acc in
      if n / 16 =? 0 then acc' else hexDigits k (n / 16) acc'
  end.

(** The verb [%02x] on a [uint32]: lower-case hexadecimal, padded with
    zeros to two digits (eight digits are all a [uint32] has). *)
Definition fmt02x (n : Z) : string :=
  let s := hexDigits 8 n EmptyString in
  if (String.length s <? 2)%nat then String "0"%char s else s.

Definition fillColor (r g b : Z) : string :=
  ("fill:#" ++ fmt02x r ++ fmt02x g ++ fmt02x b ++ ";stroke:none")%string.

Definition fillBlack : string := "fill:black;stroke:none"%string.

(* ===================================================================== *)
(** ** makeDots *)

(** The body of the innermost loop: the pixel of column [i], row [j] of the
    box is added to the three sums, in [uint32]. *)
Definition addPixel (img : Image) (boxSize x y i : Z)
  : Z * Z * Z -> Z -> Z * Z * Z :=
  fun '(rSum, gSum, bSum) j =>
    let cx := GoInt.add (GoInt.mul x boxSize) i in
    let cy := GoInt.add (GoInt.mul y boxSize) j in
    let '(r, g, b) := At img cx cy in
    (GoInt.u32add rSum r, GoInt.u32add gSum g, GoInt.u32add bSum b).

(** The two inner loops: the channel sums over the box of column [x], row
    [y]. *)
Definition sumBox (img : Image) (boxSize x y : Z) : Z * Z * Z :=
  fold_left
    (fun acc i => fold_left (addPixel img boxSize x y i) (upto boxSize) acc)
    (upto boxSize) (0, 0, 0).

(** The average colour of the box: each sum divided by
    [uint32(boxSizeSquared)], then by [0x101]. *)
Definition averageColor (img : Image) (boxSize boxSizeSquared x y : Z)
  : option (Z * Z * Z) :=
  let '(rSum, gSum, bSum) := sumBox img boxSize x y in
  match GoInt.u32quo rSum (GoInt.u32 boxSizeSquared),
        GoInt.u32quo gSum (GoInt.u32 boxSizeSquared),
        GoInt.u32quo bSum (GoInt.u32 boxSizeSquared) with
  | Some rAvg, Some gAvg, Some bAvg =>
      Some (rAvg / 257, gAvg / 257, bAvg / 257)
  | _, _, _ => None
  end.

(** The radius before it is cut to an integer. *)
Definition dotRadius (lumaArea : bool) (luma : float) (boxHalf scale : Z) : float :=
  if lumaArea
  then (PrimFloat.sqrt ((1.0 - luma) / Float64.Pi) * 1.7
        * Float64.of_int (GoInt.mul boxHalf scale))%float
  else ((1.0 - luma) * Float64.of_int (GoInt.mul boxHalf scale))%float.

(** The body of the loop over the boxes. *)
Definition drawBox (lumaFunc : Z -> Z -> Z -> float) (img : Image)
    (boxSize boxHalf boxSizeSquared : Z) (lumaThreshold : float)
    (color : bool) (scale : Z) (lumaArea : bool) (x y : Z) : Draw.M unit :=
  c <- Draw.lift (averageColor img boxSize boxSizeSquared x y) ;;
  let '(rSum, gSum, bSum) := c in
  let luma := lumaFunc rSum gSum bSum in
  if Float64.geb luma lumaThreshold then Draw.ret tt
  else
    let radius := dotRadius lumaArea luma boxHalf scale in
    let cx := GoInt.mul (GoInt.add (GoInt.mul x boxSize) boxHalf) scale in
    let cy := GoInt.mul (GoInt.add (GoInt.mul y boxSize) boxHalf) scale in
    if color
    then Draw.emit (CanvasCircle cx cy (Float64.to_int radius) (fillColor rSum gSum bSum))
    else Draw.emit (CanvasCircle cx cy (Float64.to_int radius) fillBlack).

(** [makeDots] between [canvas.Start] and its return or panic. *)
Definition drawGrid (G : Globals) (img : Image) (boxSize : Z)
    (lumaThreshold : float) (color bt709 : bool) (scale : Z) (lumaArea : bool)
  : Draw.M unit :=
  let width := Dx img in
  let height := Dy img in
  Draw.emit (CanvasStart (GoInt.mul width scale) (GoInt.mul height scale)) ;;;
  let boxHalf := GoInt.quot boxSize 2 in
  let boxSizeSquared := GoInt.mul boxSize boxSize in
  widthSteps <- Draw.lift (GoInt.quo width boxSize) ;;
  heightSteps <- Draw.lift (GoInt.quo height boxSize) ;;
  let lumaFunc := if bt701 G then lumaBT709 else lumaBT601 in
  Draw.forEach (upto widthSteps) (fun x =>
    Draw.forEach (upto heightSteps) (fun y =>
      drawBox lumaFunc img boxSize boxHalf boxSizeSquared lumaThreshold
              color scale lumaArea x y)).

(** The canvas as [makeDots] leaves it: what [drawGrid] wrote, closed by
    the deferred [canvas.End]. *)
Definition canvasOf (m : Draw.M unit) : list SvgCmd := snd m ++ [CanvasEnd].

Definition exitOf (m : Draw.M unit) : Exit :=
  match fst m with
  | Draw.Ok _ => Returned
  | Draw.Panic e => Panicked e
  end.

Definition makeDots (G : Globals) (img : Image) (boxSize : Z)
    (lumaThreshold : float) (color bt709 : bool) (outputFileName : string)
    (scale : Z) (lumaArea : bool) (w : World) : Exit * World :=
  if denied w outputFileName then (Fatal, w)
  else
    let m := drawGrid G img boxSize lumaThreshold color bt709 scale lumaArea in
    (exitOf m, writeFile w outputFileName (canvasOf m)).

(* ===================================================================== *)
(** ** The average the specification describes *)

(** One channel of the pixel of column [i], row [j] of the box, added to a
    sum of mathematical integers. *)
Definition addChannel (ch : Z * Z * Z -> Z) (img : Image) (boxSize x y i : Z)
  : Z -> Z -> Z :=
  fun acc j => acc + ch (At img (x * boxSize + i) (y * boxSize + j)).

(** The sum of one channel over the pixels of the box of column [x], row
    [y], as a mathematical integer. *)
Definition channelSum (ch : Z * Z * Z -> Z) (img : Image) (boxSize x y : Z) : Z :=
  fold_left
    (fun acc i => fold_left (addChannel ch img boxSize x y i) (upto boxSize) acc)
    (upto boxSize) 0.

(** Rescaling as the specification orders it: the sum is divided by 257,
    then by the number of pixels, both divisions truncating. *)
Definition specAverage (ch : Z * Z * Z -> Z) (img : Image) (boxSize x y : Z) : Z :=
  Z.quot (Z.quot (channelSum ch img boxSize x y) 257) (boxSize * boxSize).

Definition red (c : Z * Z * Z) : Z := fst (fst c).
Definition green (c : Z * Z * Z) : Z := snd (fst c).
Definition blue (c : Z * Z * Z) : Z := snd c.

(* ===================================================================== *)
(** ** Sample inputs *)

(** An image of one colour. *)
Definition solid (w h : Z) (c : Z * Z * Z) : Image :=
  {| Dx := w; Dy := h; At := fun _ _ => c |}.

Definition blackPixel : Z * Z * Z := (0, 0, 0).
Definition whitePixel : Z * Z * Z := (65535, 65535, 65535).

(** A world with no file, where every path can be created. *)
Definition emptyWorld : World :=
  {| denied := fun _ => false; files := fun _ => None |}.

(** Go's [int] holds [z]. *)
Definition isInt (z : Z) : Prop := - GoInt.two63 <= z < GoInt.two63.

(** Every channel of every pixel is a 16-bit value, as [RGBA] promises. *)
Definition sixteenBit (img : Image) : Prop :=
  forall x y, 0 <= red (At img x y) <= 65535
           /\ 0 <= green (At img x y) <= 65535
           /\ 0 <= blue (At img x y) <= 65535.

Fixpoint allFrom (n : nat) (z : Z) (p : Z -> bool) : bool :=
  match n with
  | O => true
  | S k => p z && allFrom k (z + 1) p
  end.

Module SF.
Definition nonneg (x : spec_float) : bool :=
  match x with
  | S754_zero _ => true
  | S754_infinity s => negb s
  | S754_finite s _ _ => negb s
  | S754_nan => false
  end.
Definition posFinite (x : spec_float) : bool :=
  match x with
  | S754_finite false _ _ => true
  | _ => false
  end.

(** Powers of two, and the real number a float stands for (zero for what
    is not finite). *)
Definition p2 (e : Z) : R := powerRZ 2 e.

Definition toR (x : spec_float) : R :=
  match x with
  | S754_finite s m e =>
      ((if s then -1 else 1) * IZR (Z.pos m) * p2 e)%R
  | _ => 0%R
  end.

(** The constants of the radius formulas, as the real numbers their
    float64 values stand for: the unit of relative error [2^-52], the margin
    [2^-40] asked between two coefficients, [math.Pi], the factor [1.7], and
    the two lumas [0.0801] and [0.08]. *)
Definition eps : R := / 4503599627370496.
Definition margin : R := / 1099511627776.
Definition piR : R := 7074237752028440 / 2251799813685248.
Definition weightR : R := 7656119366529843 / 4503599627370496.
Definition lightFrom : R := 5771813282438028 / 72057594037927936.
Definition darkUpTo : R := 5764607523034235 / 72057594037927936.
End SF.

(** The circle [drawBox] draws for a box that passes the threshold. *)
Definition boxCircle (luma : float) (r g b : Z) (boxSize boxHalf : Z)
    (color : bool) (scale : Z) (lumaArea : bool) (x y : Z) : SvgCmd :=
  CanvasCircle
    (GoInt.mul (GoInt.add (GoInt.mul x boxSize) boxHalf) scale)
    (GoInt.mul (GoInt.add (GoInt.mul y boxSize) boxHalf) scale)
    (Float64.to_int (dotRadius lumaArea luma boxHalf scale))
    (if color then fillColor r g b else fillBlack).


(** A luma inside the closed unit interval. *)
Definition inUnit (f : float) : bool := ((0 <=? f) && (f <=? 1))%float.


(* ===================================================================== *)
(** ** Names of files: strings.TrimSuffix and filepath.Ext *)

Module GoString.

(** [strings.HasSuffix(s, suffix)]. *)
Definition HasSuffix (s suffix : string) : bool :=
  (String.length suffix <=? String.length s)%nat
  && String.eqb (substring (String.length s - String.length suffix)
                           (String.length suffix) s) suffix.

(** [strings.TrimSuffix(s, suffix)]: [s] without the trailing [suffix], or
    [s] itself where it does not end in [suffix]. *)
Definition TrimSuffix (s suffix : string) : string :=
  if HasSuffix s suffix
  then substring 0 (String.length s - String.length suffix) s
  else s.

(** The loop of [filepath.Ext]: the bytes of the path are visited from the
    last one backwards, [after] being what has been passed; the scan stops
    at a separator, with no extension, or at a dot, where the extension
    starts. *)
Fixpoint scanExt (before : list ascii) (after : string) : string :=
  match before with
  | [] => EmptyString
  | c :: before' =>
      if Ascii.eqb c "/" then EmptyString
      else if Ascii.eqb c "." then String c after
      else scanExt before' (String c after)
  end.

(** [filepath.Ext(path)], with the separator of Unix. *)
Definition Ext (path : string) : string :=
  scanExt (rev (list_ascii_of_string path)) EmptyString.

End GoString.

(* ===================================================================== *)
(** ** The command: flags, readImage and main *)

(** The values of the flags once [flag.Parse] has run. *)
Module Flag.

Record Values := {
  inputFile : string;
  outputFile : string;
  boxSize : Z;
  scale : Z;
  lumaThreshold : float;
  color : bool;
  bt701 : bool;
  lumaArea : bool
}.

End Flag.

(** What [readImage] meets: the bytes [os.Open] gives access to, if the
    file can be opened, and the image [image.Decode] makes of them, if one
    of the registered formats accepts them. *)
Record Store := {
  opened : string -> option string;
  decoded : string -> option Image
}.

Inductive ReadError := OpenFailed | DecodeFailed.

Definition readImage (s : Store) (fileName : string) : Image + ReadError :=
  match opened s fileName with
  | None => inr OpenFailed
  | Some imgFile =>
      match decoded s imgFile with
      | None => inr DecodeFailed
      | Some img => inl img
      end
  end.

(** How [main] ends: after [flag.Usage], in one of its own calls of
    [log.Fatalf], or as its call of [makeDots] ends. *)
Inductive MainExit :=
| UsageShown
| InvalidThreshold
| ReadFailed (e : ReadError)
| Drawn (e : Exit).

(** The name [main] gives the output where the flag [-o] is empty. *)
Definition defaultOutput (inputFile : string) : string :=
  (GoString.TrimSuffix inputFile (GoString.Ext inputFile) ++ ".svg")%string.

(** [main], from the return of [flag.Parse]. *)
Definition main (f : Flag.Values) (s : Store) (w : World) : MainExit * World :=
  if String.eqb (Flag.inputFile f) "" then (UsageShown, w)
  else if ((Flag.lumaThreshold f <? 0.0) || (1.0 <? Flag.lumaThreshold f))%float
  then (InvalidThreshold, w)
  else
    match readImage s (Flag.inputFile f) with
    | inr e => (ReadFailed e, w)
    | inl img =>
        let outputFile :=
          if String.eqb (Flag.outputFile f) "" then defaultOutput (Flag.inputFile f)
          else Flag.outputFile f in
        let (e, w') :=
          makeDots {| bt701 := Flag.bt701 f |} img (Flag.boxSize f)
                   (Flag.lumaThreshold f) (Flag.color f) (Flag.bt701 f)
                   outputFile (Flag.scale f) (Flag.lumaArea f) w in
        (Drawn e, w')
    end.

(* ===================================================================== *)
(** ** What the theorems speak of *)

Definition isCircle (c : SvgCmd) : bool :=
  match c with CanvasCircle _ _ _ _ => true | _ => false end.

(** The centre, the radius and the style of a circle. *)
Definition circleCentre (c : SvgCmd) : Z * Z :=
  match c with CanvasCircle cx cy _ _ => (cx, cy) | _ => (0, 0) end.

Definition circleRadius (c : SvgCmd) : Z :=
  match c with CanvasCircle _ _ r _ => r | _ => 0 end.

Definition circleStyle (c : SvgCmd) : string :=
  match c with CanvasCircle _ _ _ s => s | _ => EmptyString end.

(** Columns first, rows second. *)
Definition columnsFirst (p q : Z * Z) : Prop :=
  fst p < fst q \/ (fst p = fst q /\ snd p < snd q).

(** A lower-case hexadecimal digit. *)
Definition isHexDigit (c : ascii) : bool :=
  existsb (Ascii.eqb c)
    ["0"; "1"; "2"; "3"; "4"; "5"; "6"; "7";
     "8"; "9"; "a"; "b"; "c"; "d"; "e"; "f"]%char.

(** Two images that hold the same pixels on the boxes of a grid. *)
Definition sameBoxes (img img' : Image) (boxSize : Z) : Prop :=
  Dx img' = Dx img /\ Dy img' = Dy img
  /\ forall cx cy,
       0 <= cx < Z.quot (Dx img) boxSize * boxSize ->
       0 <= cy < Z.quot (Dy img) boxSize * boxSize ->
       At img' cx cy = At img cx cy.

(** A string that holds neither a dot nor a separator. *)
Definition plain (s : string) : Prop :=
  forall c, In c (list_ascii_of_string s) -> c <> "."%char /\ c <> "/"%char.

(** The expression of the two luma functions, for any three weights. *)
Definition weightedLuma (wr wg wb : float) (r g b : Z) : float :=
  (((wr * Float64.of_uint32 r) + (wg * Float64.of_uint32 g)
    + (wb * Float64.of_uint32 b)) / 255.0)%float.

(** A float that is zero, or positive, normal and not above the real [b]. *)
Definition upTo (f : float) (b : R) : Prop :=
  (0 <= b)%R
  /\ (Prim2SF f = S754_zero false
      \/ exists m e, Prim2SF f = S754_finite false m e
                     /\ (SF.p2 (-5) <= SF.toR (Prim2SF f) <= b)%R).

(* ===================================================================== *)
(** ** The earlier makeDots *)

(** [makeDots] as it was before the flags [-s] and [-a]: no scale, the
    linear radius, and a flag [-m] for monochrome where the later version
    has [-c] for colour.  The loops over the pixels of a box are the same
    ([averageColor]). *)
Module V1.

Definition drawBox (lumaFunc : Z -> Z -> Z -> float) (img : Image)
    (boxSize boxHalf boxSizeSquared : Z) (lumaThreshold : float)
    (mono : bool) (x y : Z) : Draw.M unit :=
  c <- Draw.lift (averageColor img boxSize boxSizeSquared x y) ;;
  let '(rSum, gSum, bSum) := c in
  let luma := lumaFunc rSum gSum bSum in
  if Float64.geb luma lumaThreshold then Draw.ret tt
  else
    let cx := GoInt.add (GoInt.mul x boxSize) boxHalf in
    let cy := GoInt.add (GoInt.mul y boxSize) boxHalf in
    let r := Float64.to_int ((1.0 - luma) * Float64.of_int boxHalf)%float in
    if mono
    then Draw.emit (CanvasCircle cx cy r fillBlack)
    else Draw.emit (CanvasCircle cx cy r (fillColor rSum gSum bSum)).

Definition drawGrid (G : Globals) (img : Image) (boxSize : Z)
    (lumaThreshold : float) (mono bt709 : bool) : Draw.M unit :=
  let width := Dx img in
  let height := Dy img in
  Draw.emit (CanvasStart width height) ;;;
  let boxHalf := GoInt.quot boxSize 2 in
  let boxSizeSquared := GoInt.mul boxSize boxSize in
  widthSteps <- Draw.lift (GoInt.quo width boxSize) ;;
  heightSteps <- Draw.lift (GoInt.quo height boxSize) ;;
  let lumaFunc := if bt701 G then lumaBT709 else lumaBT601 in
  Draw.forEach (upto widthSteps) (fun x =>
    Draw.forEach (upto heightSteps) (fun y =>
      drawBox lumaFunc img boxSize boxHalf boxSizeSquared lumaThreshold
              mono x y)).

Definition makeDots (G : Globals) (img : Image) (boxSize : Z)
    (lumaThreshold : float) (mono bt709 : bool) (outputFileName : string)
    (w : World) : Exit * World :=
  if denied w outputFileName then (Fatal, w)
  else
    let m := drawGrid G img boxSize lumaThreshold mono bt709 in
    (exitOf m, writeFile w outputFileName (canvasOf m)).

End V1.

(* ===================================================================== *)
(** ** The radius the specification describes *)

(** The formula of a policy in real numbers, exact, on the reals that the
    float64 constants [math.Pi] and [1.7] stand for; [k] is
    [boxHalf * scale]. *)
Definition realRadius (lumaArea : bool) (luma : R) (k : Z) : R :=
  if lumaArea
  then (R_sqrt.sqrt ((1 - luma) / SF.piR) * SF.weightR * IZR k)%R
  else ((1 - luma) * IZR k)%R.

(** [r] is the real [v], not negative, with its fraction dropped. *)
Definition truncationOf (v : R) (r : Z) : Prop :=
  0 <= r /\ (IZR r <= v < IZR r + 1)%R.
(* ===================================================================== *)
(** ** Machine integers: facts *)

Lemma u32_mod z : GoInt.u32 z = z mod 2 ^ 32.
Proof.
  unfold GoInt.u32. change GoInt.mask32 with (Z.ones 32).
  apply Z.land_ones. lia.
Qed.

Lemma wrap64_mod z : GoInt.wrap64 z = (z + 2 ^ 63) mod 2 ^ 64 - 2 ^ 63.
Proof.
  unfold GoInt.wrap64. change GoInt.mask64 with (Z.ones 64).
  rewrite Z.land_ones by lia. reflexivity.
Qed.

Lemma wrap64_id z : isInt z -> GoInt.wrap64 z = z.
Proof.
  unfold isInt. change GoInt.two63 with (2 ^ 63). intros H.
  rewrite wrap64_mod, Z.mod_small; lia.
Qed.

Lemma upto_nonpos n : n <= 0 -> upto n = [].
Proof.
  intros H. unfold upto. destruct n; try reflexivity. lia.
Qed.

Lemma In_upto n v : In v (upto n) <-> 0 <= v < n.
Proof.
  unfold upto. rewrite in_map_iff. split.
  - intros (k & <- & Hk). apply in_seq in Hk. lia.
  - intros H. exists (Z.to_nat v). split; [lia|]. apply in_seq. lia.
Qed.

(* ===================================================================== *)
(** ** Drawing computations: facts *)

Lemma forEach_silent {A} (l : list A) (body : A -> Draw.M unit) :
  (forall a, In a l -> body a = Draw.ret tt) ->
  Draw.forEach l body = Draw.ret tt.
Proof.
  induction l as [|a l IH]; intros H; simpl; [reflexivity|].
  rewrite (H a) by (left; reflexivity).
  rewrite IH by (intros; apply H; right; assumption).
  reflexivity.
Qed.
(* ===================================================================== *)
(** ** The shape of a run *)

Lemma drawGrid_zero G img thr color bt709 scale lumaArea :
  drawGrid G img 0 thr color bt709 scale lumaArea
  = (Draw.Panic DivideByZero,
     [CanvasStart (GoInt.mul (Dx img) scale) (GoInt.mul (Dy img) scale)]).
Proof. reflexivity. Qed.

Lemma drawGrid_steps G img boxSize thr color bt709 scale lumaArea :
  boxSize <> 0 ->
  drawGrid G img boxSize thr color bt709 scale lumaArea
  = let m :=
      Draw.forEach (upto (GoInt.quot (Dx img) boxSize)) (fun x =>
        Draw.forEach (upto (GoInt.quot (Dy img) boxSize)) (fun y =>
          drawBox (if bt701 G then lumaBT709 else lumaBT601) img boxSize
                  (GoInt.quot boxSize 2) (GoInt.mul boxSize boxSize)
                  thr color scale lumaArea x y)) in
    (fst m,
     CanvasStart (GoInt.mul (Dx img) scale) (GoInt.mul (Dy img) scale)
       :: snd m).
Proof.
  intros Hb. unfold drawGrid, GoInt.quo.
  destruct (Z.eqb_spec boxSize 0) as [E|_]; [contradiction|].
  cbn [Draw.lift Draw.bind Draw.emit Draw.ret app].
  match goal with |- context [Draw.forEach ?l ?f] =>
    destruct (Draw.forEach l f) as [r out] end.
  destruct r; reflexivity.
Qed.

Lemma quot_small_dims d boxSize :
  isInt d -> isInt boxSize -> 0 <= d ->
  boxSize < 0 \/ d < boxSize ->
  GoInt.quot d boxSize <= 0.
Proof.
  intros Hd Hb Hd0 H. unfold GoInt.quot.
  assert (Hq : - d <= Z.quot d boxSize <= 0).
  { destruct H as [H|H].
    - rewrite <- (Z.opp_involutive boxSize), Z.quot_opp_r by lia.
      assert (0 <= Z.quot d (- boxSize)) by (apply Z.quot_pos; lia).
      assert (Z.quot d (- boxSize) <= d).
      { destruct (Z.eq_dec d 0) as [->|]; [rewrite Z.quot_0_l; lia|].
        destruct (Z.eq_dec (- boxSize) 1) as [->|];
          [rewrite Z.quot_1_r; lia|].
        assert (Z.quot d (- boxSize) < d) by (apply Z.quot_lt; lia). lia. }
      lia.
    - rewrite Z.quot_small by lia. lia. }
  rewrite wrap64_id; [lia|].
  unfold isInt in *. lia.
Qed.

Lemma drawGrid_degenerate G img boxSize thr color bt709 scale lumaArea :
  isInt (Dx img) -> isInt (Dy img) -> isInt boxSize ->
  0 <= Dx img -> 0 <= Dy img ->
  boxSize < 0 \/ Z.min (Dx img) (Dy img) < boxSize ->
  drawGrid G img boxSize thr color bt709 scale lumaArea
  = (Draw.Ok tt,
     [CanvasStart (GoInt.mul (Dx img) scale) (GoInt.mul (Dy img) scale)]).
Proof.
  intros Hx Hy Hb Hx0 Hy0 H.
  rewrite drawGrid_steps by lia.
  assert (Hs : GoInt.quot (Dx img) boxSize <= 0
               \/ GoInt.quot (Dy img) boxSize <= 0).
  { destruct H as [H|H].
    - left. apply quot_small_dims; auto.
    - destruct (Z.min_spec (Dx img) (Dy img)) as [[_ E]|[_ E]];
        rewrite E in H; [left|right]; apply quot_small_dims; auto. }
  destruct Hs as [Hs|Hs].
  - rewrite (upto_nonpos _ Hs). reflexivity.
  - rewrite (upto_nonpos _ Hs), forEach_silent by reflexivity. reflexivity.
Qed.
(* ===================================================================== *)
(** ** Degenerate grids *)

(** Degenerate grids, for every image: a box size below zero, or above the
    smaller side of the image, gives a run that returns with a canvas
    holding no circle, as the specification says; a box size of exactly zero
    does not: [width / boxSize] divides by it, unchecked, and the run
    panics, the canvas opened and closed around nothing. *)
Theorem degenerate_grid G img boxSize thr color bt709 name scale lumaArea w :
  denied w name = false ->
  isInt (Dx img) -> isInt (Dy img) -> isInt boxSize ->
  0 <= Dx img -> 0 <= Dy img ->
  let run := makeDots G img boxSize thr color bt709 name scale lumaArea w in
  let start := CanvasStart (GoInt.mul (Dx img) scale) (GoInt.mul (Dy img) scale) in
  (boxSize < 0 \/ Z.min (Dx img) (Dy img) < boxSize ->
     fst run = Returned /\ files (snd run) name = Some [start; CanvasEnd])
  /\ (boxSize = 0 ->
     fst run = Panicked DivideByZero
     /\ files (snd run) name = Some [start; CanvasEnd]).
Proof.
  intros Hd Hx Hy Hb Hx0 Hy0 run start. subst run start.
  unfold makeDots. rewrite Hd. split.
  - intros H. rewrite drawGrid_degenerate by assumption.
    cbn. rewrite String.eqb_refl. split; reflexivity.
  - intros ->. rewrite drawGrid_zero.
    cbn. rewrite String.eqb_refl. split; reflexivity.
Qed.

Lemma degenerate_grid_witness :
  let run := makeDots {| bt701 := false |} (solid 30 30 whitePixel) 50 1.0
                      true false "out.svg" 1 false emptyWorld in
  fst run = Returned
  /\ files (snd run) "out.svg"%string = Some [CanvasStart 30 30; CanvasEnd].
Proof.
  refine (proj1 (degenerate_grid {| bt701 := false |} (solid 30 30 whitePixel)
                   50 1.0 true false "out.svg" 1 false emptyWorld
                   eq_refl _ _ _ _ _) _);
    try (right; cbn; lia); unfold isInt, GoInt.two63; cbn; lia.
Defined.

(** C4 fails at box size 0.  [makeDots] computes [width / boxSize] without
    a check of the box size ([main] checks the threshold, not the box size):
    the run ends in the panic "integer divide by zero", where the
    specification says an empty output and no failure. *)
Lemma box_size_zero_panics :
  fst (makeDots {| bt701 := false |} (solid 100 100 blackPixel) 0 1.0
                true false "out.svg" 1 false emptyWorld)
  = Panicked DivideByZero
  /\ fst (makeDots {| bt701 := false |} (solid 100 100 blackPixel) 0 1.0
                   true false "out.svg" 1 false emptyWorld)
     <> Returned.
Proof. split; [reflexivity | discriminate]. Qed.

(* ===================================================================== *)
(** ** Runs depend on their inputs only *)

(** C9: a second run on the same image and configuration, started in the
    world the first one left, ends the same way and leaves the same file,
    circle for circle; and the file written does not depend on what the
    world held before. *)
Theorem makeDots_rerun G img boxSize thr color bt709 name scale lumaArea w w' :
  let run := makeDots G img boxSize thr color bt709 name scale lumaArea in
  fst (run (snd (run w))) = fst (run w)
  /\ (forall n, files (snd (run (snd (run w)))) n = files (snd (run w)) n)
  /\ (denied w name = false -> denied w' name = false ->
      fst (run w') = fst (run w)
      /\ files (snd (run w')) name = files (snd (run w)) name).
Proof.
  intros run. subst run. unfold makeDots.
  destruct (denied w name) eqn:Hd.
  - cbn. rewrite Hd. cbn. repeat split; intros; try reflexivity; discriminate.
  - cbn. rewrite Hd. cbn. split; [reflexivity|]. split.
    + intros n. destruct (String.eqb n name); reflexivity.
    + intros _ Hd'. rewrite Hd'. cbn. rewrite String.eqb_refl.
      split; reflexivity.
Qed.

(* ===================================================================== *)
(** ** The parameter bt709 *)

(** C10: [makeDots] never reads its parameter [bt709]; the luma function is
    chosen by the package-level flag. *)
Theorem bt709_parameter_ignored G img boxSize thr color name scale lumaArea w :
  makeDots G img boxSize thr color true name scale lumaArea w
  = makeDots G img boxSize thr color false name scale lumaArea w.
Proof. reflexivity. Qed.

(** The package-level flag does choose it: a pure blue box has luma
    [0.144] under BT.601 and [0.0722] under BT.709, and a threshold of
    [0.1] keeps its dot in one case only. *)
Lemma bt701_flag_read :
  circles (snd (drawGrid {| bt701 := true |} (solid 2 2 (0, 0, 65535)) 2 0.1
                         true false 1 false))
  = [CanvasCircle 1 1 0 "fill:#0000ff;stroke:none"]
  /\ circles (snd (drawGrid {| bt701 := false |} (solid 2 2 (0, 0, 65535)) 2 0.1
                            true true 1 false))
     = [].
Proof. split; vm_compute; reflexivity. Qed.
(* ===================================================================== *)
(** ** The channel sums *)

Lemma u32add_u32 a r : GoInt.u32add (GoInt.u32 a) r = GoInt.u32 (a + r).
Proof.
  unfold GoInt.u32add. rewrite !u32_mod.
  rewrite Z.add_mod_idemp_l by lia. reflexivity.
Qed.

Section Sums.

Variable img : Image.
Variables boxSize x y : Z.
Hypothesis Hbox : 0 < boxSize.
Hypothesis Hx : 0 <= x /\ (x + 1) * boxSize < GoInt.two63.
Hypothesis Hy : 0 <= y /\ (y + 1) * boxSize < GoInt.two63.

Lemma box_coordinate c i :
  0 <= c /\ (c + 1) * boxSize < GoInt.two63 -> 0 <= i < boxSize ->
  GoInt.add (GoInt.mul c boxSize) i = c * boxSize + i.
Proof.
  intros [Hc Hc'] Hi. unfold GoInt.add, GoInt.mul.
  assert (0 <= c * boxSize) by nia.
  rewrite (wrap64_id (c * boxSize)) by (unfold isInt; nia).
  apply wrap64_id. unfold isInt. nia.
Qed.

Lemma sumBox_pixel i j ar ag ab :
  0 <= i < boxSize -> 0 <= j < boxSize ->
  addPixel img boxSize x y i (GoInt.u32 ar, GoInt.u32 ag, GoInt.u32 ab) j
  = (GoInt.u32 (addChannel red img boxSize x y i ar j), GoInt.u32 (addChannel green img boxSize x y i ag j),
     GoInt.u32 (addChannel blue img boxSize x y i ab j)).
Proof.
  intros Hi Hj. unfold addPixel, addChannel. cbv beta iota zeta.
  rewrite (box_coordinate x i Hx Hi), (box_coordinate y j Hy Hj).
  destruct (At img (x * boxSize + i) (y * boxSize + j)) as [[r g] b].
  rewrite !u32add_u32. reflexivity.
Qed.

(** The [uint32] sums are the mathematical sums modulo [2^32]. *)
Lemma sumBox_row i lj : 0 <= i < boxSize ->
  Forall (fun j => 0 <= j < boxSize) lj ->
  forall ar ag ab,
  fold_left (addPixel img boxSize x y i) lj (GoInt.u32 ar, GoInt.u32 ag, GoInt.u32 ab)
  = (GoInt.u32 (fold_left (addChannel red img boxSize x y i) lj ar),
     GoInt.u32 (fold_left (addChannel green img boxSize x y i) lj ag),
     GoInt.u32 (fold_left (addChannel blue img boxSize x y i) lj ab)).
Proof.
  intros Hi. induction 1 as [|j lj Hj _ IH]; intros ar ag ab; [reflexivity|].
  cbn [fold_left]. rewrite (sumBox_pixel i j ar ag ab Hi Hj). apply IH.
Qed.

Lemma Forall_upto n : Forall (fun v => 0 <= v < n) (upto n).
Proof. apply Forall_forall. intros v. apply In_upto. Qed.

Lemma sumBox_columns li : Forall (fun i => 0 <= i < boxSize) li ->
  forall ar ag ab,
  fold_left (fun acc i => fold_left (addPixel img boxSize x y i) (upto boxSize) acc) li
            (GoInt.u32 ar, GoInt.u32 ag, GoInt.u32 ab)
  = (GoInt.u32 (fold_left (fun acc i => fold_left (addChannel red img boxSize x y i) (upto boxSize) acc) li ar),
     GoInt.u32 (fold_left (fun acc i => fold_left (addChannel green img boxSize x y i) (upto boxSize) acc) li ag),
     GoInt.u32 (fold_left (fun acc i => fold_left (addChannel blue img boxSize x y i) (upto boxSize) acc) li ab)).
Proof.
  induction 1 as [|i li Hi _ IH]; intros ar ag ab; [reflexivity|].
  cbn [fold_left].
  rewrite (sumBox_row i _ Hi (Forall_upto boxSize)). apply IH.
Qed.

Lemma sumBox_mod :
  sumBox img boxSize x y
  = (GoInt.u32 (channelSum red img boxSize x y),
     GoInt.u32 (channelSum green img boxSize x y),
     GoInt.u32 (channelSum blue img boxSize x y)).
Proof.
  unfold sumBox, channelSum.
  apply (sumBox_columns (upto boxSize) (Forall_upto boxSize) 0 0 0).
Qed.

End Sums.

Lemma row_sum_bounds (f : Z -> Z) (lj : list Z) :
  (forall j, 0 <= f j <= 65535) ->
  forall acc,
  acc <= fold_left (fun acc j => acc + f j) lj acc
      <= acc + 65535 * Z.of_nat (List.length lj).
Proof.
  intros Hf. induction lj as [|j lj IH]; intros acc; cbn [fold_left List.length].
  - lia.
  - specialize (IH (acc + f j)). specialize (Hf j). lia.
Qed.

Lemma box_sum_bounds (f : Z -> Z -> Z) (li lj : list Z) :
  (forall i j, 0 <= f i j <= 65535) ->
  forall acc,
  acc <= fold_left (fun acc i => fold_left (fun acc j => acc + f i j) lj acc) li acc
      <= acc + 65535 * (Z.of_nat (List.length li) * Z.of_nat (List.length lj)).
Proof.
  intros Hf. induction li as [|i li IH]; intros acc; cbn [fold_left List.length].
  - lia.
  - pose proof (row_sum_bounds (f i) lj (Hf i) acc) as Hr.
    specialize (IH (fold_left (fun acc j => acc + f i j) lj acc)). nia.
Qed.

Lemma length_upto n : 0 <= n -> Z.of_nat (List.length (upto n)) = n.
Proof.
  intros H. unfold upto. rewrite length_map, length_seq. lia.
Qed.

Lemma channelSum_bounds ch img boxSize x y :
  (forall c r, 0 <= ch (At img c r) <= 65535) -> 0 <= boxSize ->
  0 <= channelSum ch img boxSize x y <= 65535 * (boxSize * boxSize).
Proof.
  intros Hch Hb. unfold channelSum, addChannel.
  pose proof (box_sum_bounds
                (fun i j => ch (At img (x * boxSize + i) (y * boxSize + j)))
                (upto boxSize) (upto boxSize)
                (fun i j => Hch _ _) 0) as H.
  cbv beta in H. rewrite length_upto in H by assumption. lia.
Qed.

(** Where no sum leaves [uint32] (a box side of 256 at most is enough), the
    average colour of the code is the one the specification describes: the
    two orders of division give the same quotient. *)
Lemma averageColor_refines img boxSize x y :
  sixteenBit img -> 0 < boxSize <= 256 ->
  0 <= x /\ (x + 1) * boxSize < GoInt.two63 ->
  0 <= y /\ (y + 1) * boxSize < GoInt.two63 ->
  averageColor img boxSize (GoInt.mul boxSize boxSize) x y
  = Some (specAverage red img boxSize x y,
          specAverage green img boxSize x y,
          specAverage blue img boxSize x y).
Proof.
  intros H16 Hb Hx Hy. unfold averageColor.
  rewrite (sumBox_mod img boxSize x y) by lia.
  assert (Hsq : GoInt.u32 (GoInt.mul boxSize boxSize) = boxSize * boxSize).
  { unfold GoInt.mul. rewrite wrap64_id by (unfold isInt, GoInt.two63; nia).
    rewrite u32_mod. apply Z.mod_small. nia. }
  rewrite Hsq. unfold GoInt.u32quo.
  destruct (Z.eqb_spec (boxSize * boxSize) 0) as [E|_]; [nia|].
  assert (Hch : forall ch,
            (forall c r, 0 <= ch (At img c r) <= 65535) ->
            GoInt.u32 (channelSum ch img boxSize x y) / (boxSize * boxSize) / 257
            = specAverage ch img boxSize x y).
  { intros ch Hc.
    pose proof (channelSum_bounds ch img boxSize x y Hc ltac:(lia)) as Hs.
    rewrite u32_mod, Z.mod_small by nia.
    unfold specAverage.
    assert (Hq : Z.quot (channelSum ch img boxSize x y) 257
                 = channelSum ch img boxSize x y / 257)
      by (apply Z.quot_div_nonneg; lia).
    rewrite Hq, Z.quot_div_nonneg;
      [| apply Z.div_pos; lia | nia].
    rewrite !Z.div_div by nia. f_equal. lia. }
  rewrite !Hch; [reflexivity| | |]; intros c r; apply (H16 c r).
Qed.
(* ===================================================================== *)
(** ** binary64: signs *)

Lemma allFrom_spec n z p :
  allFrom n z p = true -> forall v, z <= v < z + Z.of_nat n -> p v = true.
Proof.
  revert z. induction n as [|n IH]; intros z H v Hv; [lia|].
  cbn [allFrom] in H. apply andb_prop in H as [H0 H1].
  destruct (Z.eq_dec v z) as [->|Hne]; [assumption|].
  apply (IH (z + 1) H1). lia.
Qed.

Module SFFacts.

Import SF.

Lemma iter_pos_inv {A} (P : A -> Prop) (f : A -> A) :
  (forall a, P a -> P (f a)) ->
  forall n a, P a -> P (iter_pos f n a).
Proof.
  intros Hf. induction n as [n IH|n IH|]; intros a Ha; cbn [iter_pos]; auto.
Qed.

Lemma shr_1_nonneg mrs : 0 <= shr_m mrs -> 0 <= shr_m (shr_1 mrs).
Proof.
  destruct mrs as [m r s]. destruct m as [|p|p]; cbn; intros H;
    try lia; destruct p; cbn; lia.
Qed.

Lemma shr_nonneg mrs e n :
  0 <= shr_m mrs -> 0 <= shr_m (fst (shr mrs e n)).
Proof.
  intros H. unfold shr. destruct n as [|p|p]; cbn [fst]; auto.
  apply iter_pos_inv; auto using shr_1_nonneg.
Qed.

Lemma shr_fexp_nonneg m e l :
  0 <= m -> 0 <= shr_m (fst (shr_fexp prec emax m e l)).
Proof.
  intros H. unfold shr_fexp. apply shr_nonneg.
  destruct l as [|[]]; exact H.
Qed.

Lemma round_nearest_even_nonneg m l :
  0 <= m -> 0 <= round_nearest_even m l.
Proof.
  intros H. destruct l as [|[]]; cbn; try destruct (Z.even m); lia.
Qed.

Lemma binary_round_aux_nonneg m e l :
  0 <= m -> nonneg (binary_round_aux prec emax false m e l) = true.
Proof.
  intros H. unfold binary_round_aux.
  pose proof (shr_fexp_nonneg m e l H) as H1.
  destruct (shr_fexp prec emax m e l) as [mrs' e'].
  cbn [fst] in H1.
  pose proof (shr_fexp_nonneg _ e' loc_Exact
                (round_nearest_even_nonneg _ (loc_of_shr_record mrs') H1)) as H2.
  destruct (shr_fexp prec emax _ e' loc_Exact) as [mrs'' e''].
  cbn [fst] in H2.
  destruct (shr_m mrs'') as [|p|p]; [reflexivity| |lia].
  destruct (e'' <=? emax - prec); reflexivity.
Qed.

Lemma binary_normalize_nonneg m e :
  0 <= m -> nonneg (binary_normalize prec emax m e false) = true.
Proof.
  intros H. destruct m as [|p|p]; [reflexivity| |lia].
  cbn [binary_normalize]. unfold binary_round.
  destruct (shl_align p e _) as [mz ez].
  apply binary_round_aux_nonneg. lia.
Qed.

Lemma SFmul_nonneg c x :
  posFinite c = true -> nonneg x = true ->
  nonneg (SFmul prec emax c x) = true.
Proof.
  destruct c as [| | |[] mc ec]; try discriminate. intros _.
  destruct x as [s|s| |s m e]; cbn; try (intros; assumption).
  destruct s; [discriminate|]. intros _.
  apply binary_round_aux_nonneg. lia.
Qed.

Lemma SFadd_nonneg x y :
  nonneg x = true -> nonneg y = true ->
  nonneg (SFadd prec emax x y) = true.
Proof.
  destruct x as [sx|sx| |sx mx ex], y as [sy|sy| |sy my ey]; cbn;
    try discriminate; try (intros; assumption);
    try (destruct sx, sy; cbn; intros; (assumption || discriminate || reflexivity)).
  intros Hx Hy. destruct sx, sy; try discriminate.
  apply binary_normalize_nonneg. cbn. lia.
Qed.

Lemma SFdiv_nonneg x c :
  nonneg x = true -> posFinite c = true ->
  nonneg (SFdiv prec emax x c) = true.
Proof.
  destruct c as [| | |[] mc ec]; try discriminate. intros Hx _.
  destruct x as [s|s| |s m e]; cbn in *; try assumption; try discriminate;
    (destruct s; [discriminate|]); [reflexivity|]. cbn [xorb].
  destruct (SFdiv_core_binary prec emax (Z.pos m) e (Z.pos mc) ec)
    as [[mz ez] lz] eqn:E.
  apply binary_round_aux_nonneg.
  unfold SFdiv_core_binary in E.
  match type of E with
  | context [Z.div_eucl ?a ?b] =>
      pose proof (Z.div_pos a b) as Hq; unfold Z.div in Hq;
      assert (Ha : 0 <= a);
      [| destruct (Z.div_eucl a b) as [q r]; inversion E; subst;
         apply Hq; [exact Ha | lia]]
  end.
  match goal with
  | |- 0 <= match ?s with _ => _ end =>
      destruct s eqn:Es; try lia
  end.
  apply Z.shiftl_nonneg. lia.
Qed.

Lemma of_uint63_nonneg n : nonneg (Prim2SF (of_uint63 n)) = true.
Proof.
  rewrite of_uint63_spec. apply binary_normalize_nonneg.
  apply (Uint63.to_Z_bounded n).
Qed.

Lemma SFleb_zero_nonneg x :
  nonneg x = true -> SFleb (S754_zero false) x = true.
Proof. destruct x as [s|s| |s m e]; cbn; try discriminate; destruct s; easy. Qed.

End SFFacts.

Lemma luma_nonneg (bt : bool) r g b :
  SF.nonneg (Prim2SF ((if bt then lumaBT709 else lumaBT601) r g b)) = true.
Proof.
  destruct bt; unfold lumaBT709, lumaBT601, Float64.of_uint32;
    rewrite div_spec, !add_spec, !mul_spec;
    (apply SFFacts.SFdiv_nonneg; [|reflexivity]);
    repeat apply SFFacts.SFadd_nonneg;
    (apply SFFacts.SFmul_nonneg; [reflexivity|]);
    apply SFFacts.of_uint63_nonneg.
Qed.

Lemma luma_geb_zero (bt : bool) r g b :
  Float64.geb ((if bt then lumaBT709 else lumaBT601) r g b) 0 = true.
Proof.
  unfold Float64.geb. rewrite leb_spec.
  apply (SFFacts.SFleb_zero_nonneg _ (luma_nonneg bt r g b)).
Qed.
(* ===================================================================== *)
(** ** binary64: comparisons *)

Module SFOrder.

Lemma SFcompare_swap x y :
  SFcompare y x = option_map CompOpp (SFcompare x y).
Proof.
  destruct x as [sx|sx| |sx mx ex], y as [sy|sy| |sy my ey]; cbn;
    try reflexivity;
    try (destruct sx; reflexivity); try (destruct sy; reflexivity);
    try (destruct sx, sy; reflexivity).
  destruct sx, sy; cbn; try reflexivity;
    rewrite (Z.compare_antisym ex ey);
    destruct (ex ?= ey); cbn; try reflexivity;
    pose proof (Pos.compare_cont_antisym mx my Eq) as H; cbn [CompOpp] in H;
    change PosDef.Pos.compare_cont with Pos.compare_cont;
    rewrite <- H; reflexivity.
Qed.

Lemma SFltb_not_SFleb x y : SFltb x y = true -> SFleb y x = false.
Proof.
  unfold SFltb, SFleb. rewrite (SFcompare_swap x y).
  destruct (SFcompare x y) as [[]|]; cbn; congruence.
Qed.

Lemma SFleb_not_SFltb x y : SFleb y x = true -> SFltb x y = false.
Proof.
  unfold SFltb, SFleb. rewrite (SFcompare_swap x y).
  destruct (SFcompare x y) as [[]|]; cbn; congruence.
Qed.


End SFOrder.

Lemma ltb_not_geb (x y : float) :
  (x <? y)%float = true -> Float64.geb x y = false.
Proof.
  unfold Float64.geb. rewrite ltb_spec, leb_spec.
  apply SFOrder.SFltb_not_SFleb.
Qed.

Lemma geb_not_ltb (x y : float) :
  Float64.geb x y = true -> (x <? y)%float = false.
Proof.
  unfold Float64.geb. rewrite ltb_spec, leb_spec.
  apply SFOrder.SFleb_not_SFltb.
Qed.

(* ===================================================================== *)
(** ** One box *)

Lemma averageColor_defined img boxSize boxSizeSquared x y :
  GoInt.u32 boxSizeSquared <> 0 ->
  exists c, averageColor img boxSize boxSizeSquared x y = Some c.
Proof.
  intros H. unfold averageColor, GoInt.u32quo.
  destruct (sumBox img boxSize x y) as [[r g] b].
  destruct (Z.eqb_spec (GoInt.u32 boxSizeSquared) 0) as [E|_];
    [contradiction|]. eexists; reflexivity.
Qed.

Lemma averageColor_divisor img boxSize boxSizeSquared x y c :
  averageColor img boxSize boxSizeSquared x y = Some c ->
  GoInt.u32 boxSizeSquared <> 0.
Proof.
  unfold averageColor, GoInt.u32quo.
  destruct (sumBox img boxSize x y) as [[r g] b].
  destruct (Z.eqb_spec (GoInt.u32 boxSizeSquared) 0) as [E|N];
    [discriminate | intros _; exact N].
Qed.

Lemma drawBox_average lumaFunc img boxSize boxHalf boxSizeSquared thr color
      scale lumaArea x y r g b :
  averageColor img boxSize boxSizeSquared x y = Some (r, g, b) ->
  drawBox lumaFunc img boxSize boxHalf boxSizeSquared thr color scale lumaArea x y
  = if Float64.geb (lumaFunc r g b) thr then Draw.ret tt
    else Draw.emit (boxCircle (lumaFunc r g b) r g b boxSize boxHalf
                              color scale lumaArea x y).
Proof.
  intros E. unfold drawBox, boxCircle. rewrite E.
  cbn [Draw.lift Draw.bind Draw.ret].
  destruct (Float64.geb (lumaFunc r g b) thr); [reflexivity|].
  destruct color; reflexivity.
Qed.

Lemma drawBox_returns lumaFunc img boxSize boxHalf boxSizeSquared thr color
      scale lumaArea x y :
  GoInt.u32 boxSizeSquared <> 0 ->
  fst (drawBox lumaFunc img boxSize boxHalf boxSizeSquared thr color scale
               lumaArea x y) = Draw.Ok tt.
Proof.
  intros H.
  destruct (averageColor_defined img boxSize boxSizeSquared x y H)
    as [[[r g] b] E].
  rewrite (drawBox_average _ _ _ _ _ _ _ _ _ _ _ _ _ _ E).
  destruct (Float64.geb _ thr); reflexivity.
Qed.

(* ===================================================================== *)
(** ** Loops *)

Lemma forEach_returns {A} (l : list A) (body : A -> Draw.M unit) :
  (forall a, In a l -> fst (body a) = Draw.Ok tt) ->
  Draw.forEach l body = (Draw.Ok tt, flat_map (fun a => snd (body a)) l).
Proof.
  induction l as [|a l IH]; intros H; cbn [Draw.forEach flat_map];
    [reflexivity|].
  rewrite IH by (intros; apply H; right; assumption).
  specialize (H a (or_introl eq_refl)).
  destruct (body a) as [[[]|e] out]; cbn in *; [reflexivity|discriminate].
Qed.


(** Without a panic the canvas holds, after [CanvasStart], what each box
    wrote, column by column and, in a column, row by row. *)
Lemma drawGrid_boxes G img boxSize thr color bt709 scale lumaArea :
  boxSize <> 0 -> GoInt.u32 (GoInt.mul boxSize boxSize) <> 0 ->
  drawGrid G img boxSize thr color bt709 scale lumaArea
  = (Draw.Ok tt,
     CanvasStart (GoInt.mul (Dx img) scale) (GoInt.mul (Dy img) scale)
       :: flat_map (fun x =>
            flat_map (fun y =>
              snd (drawBox (if bt701 G then lumaBT709 else lumaBT601) img
                           boxSize (GoInt.quot boxSize 2)
                           (GoInt.mul boxSize boxSize) thr color scale
                           lumaArea x y))
              (upto (GoInt.quot (Dy img) boxSize)))
            (upto (GoInt.quot (Dx img) boxSize))).
Proof.
  intros Hb Hsq. rewrite drawGrid_steps by assumption. cbv zeta.
  assert (Hrow : forall x,
    Draw.forEach (upto (GoInt.quot (Dy img) boxSize)) (fun y =>
      drawBox (if bt701 G then lumaBT709 else lumaBT601) img boxSize
              (GoInt.quot boxSize 2) (GoInt.mul boxSize boxSize)
              thr color scale lumaArea x y)
    = (Draw.Ok tt,
       flat_map (fun y =>
         snd (drawBox (if bt701 G then lumaBT709 else lumaBT601) img boxSize
                      (GoInt.quot boxSize 2) (GoInt.mul boxSize boxSize)
                      thr color scale lumaArea x y))
         (upto (GoInt.quot (Dy img) boxSize)))).
  { intros x. apply forEach_returns. intros y _.
    apply drawBox_returns. assumption. }
  rewrite forEach_returns by (intros x _; rewrite Hrow; reflexivity).
  cbn [fst snd]. f_equal. f_equal. apply flat_map_ext. intros x.
  rewrite Hrow. reflexivity.
Qed.
(* ===================================================================== *)
(** ** The threshold *)




(* ===================================================================== *)
(** ** Luma of 8-bit colours *)

(** Under BT.709 a grey [(v, v, v)] has luma [v / 255.0] to the last bit
    or two: the three weights add up to one. *)
Lemma lumaBT709_equal_channels v :
  0 <= v <= 255 ->
  (abs (lumaBT709 v v v - Float64.of_uint32 v / 255.0) <=? 0x1p-52)%float = true.
Proof.
  intros H.
  apply (allFrom_spec 256 0
           (fun v => (abs (lumaBT709 v v v - Float64.of_uint32 v / 255.0)
                      <=? 0x1p-52)%float));
    [vm_compute; reflexivity | lia].
Qed.

(** C1 fails for BT.601: its weights are [0.299], [0.587] and [0.144], which
    add up to [1.03]; white has luma [1.03], not [255 / 255.0 = 1.0], and
    every grey from 1 to 255 has a luma more than 2.9 percent above
    [v / 255.0]. *)
Theorem lumaBT601_equal_channels :
  lumaBT601 255 255 255 = 1.0299999999999998%float
  /\ (Float64.of_uint32 255 / 255.0)%float = 1%float
  /\ allFrom 255 1
       (fun v => (Float64.of_uint32 v / 255.0 * 1.029 <? lumaBT601 v v v)%float)
     = true.
Proof. split; [|split]; vm_compute; reflexivity. Qed.

(** C5 fails for BT.601: the luma of white is above [1.0]. *)
Theorem lumaBT601_white_above_one :
  (1 <? lumaBT601 255 255 255)%float = true
  /\ inUnit (lumaBT601 255 255 255) = false.
Proof. split; vm_compute; reflexivity. Qed.

(* ===================================================================== *)
(** ** The average colour: overflow *)

(** C2 fails where a channel sum leaves [uint32]: in a white box of side
    257 each sum is [257 * 257 * 65535], above [2^32]; the code keeps its low
    32 bits and arrives at the colour [#010101], where the specification's
    average is 255 per channel. *)
Theorem averageColor_overflow :
  averageColor (solid 257 257 whitePixel) 257 (GoInt.mul 257 257) 0 0
  = Some (1, 1, 1)
  /\ specAverage red (solid 257 257 whitePixel) 257 0 0 = 255
  /\ circles (canvasOf (drawGrid {| bt701 := false |} (solid 257 257 whitePixel)
                                 257 1 true false 1 false))
     = [CanvasCircle 128 128 127 "fill:#010101;stroke:none"].
Proof.
  split; [vm_cast_no_check (eq_refl (Some (1, 1, 1)))|].
  split; [vm_cast_no_check (eq_refl 255)|].
  vm_cast_no_check
    (eq_refl [CanvasCircle 128 128 127 "fill:#010101;stroke:none"]).
Qed.
(* ===================================================================== *)
(** ** binary64: rounding *)

Module SFRound.

Lemma pow2_pos n : 0 < 2 ^ n \/ n < 0.
Proof. destruct (Z_lt_le_dec n 0); [right|left]; [|apply Z.pow_pos_nonneg]; lia. Qed.

Lemma digits2_pos_bounds p :
  2 ^ (Z.pos (digits2_pos p) - 1) <= Z.pos p < 2 ^ Z.pos (digits2_pos p).
Proof.
  induction p as [p IH|p IH|]; cbn [digits2_pos].
  - rewrite Pos2Z.inj_succ, Z.pow_succ_r by lia.
    change (Z.pos p~1) with (2 * Z.pos p + 1).
    replace (Z.succ (Z.pos (digits2_pos p)) - 1)
      with (Z.succ (Z.pos (digits2_pos p) - 1)) by lia.
    rewrite Z.pow_succ_r by lia. lia.
  - rewrite Pos2Z.inj_succ, Z.pow_succ_r by lia.
    change (Z.pos p~0) with (2 * Z.pos p).
    replace (Z.succ (Z.pos (digits2_pos p)) - 1)
      with (Z.succ (Z.pos (digits2_pos p) - 1)) by lia.
    rewrite Z.pow_succ_r by lia. lia.
  - cbn. lia.
Qed.

Lemma digits2_pos_unique p d :
  2 ^ (d - 1) <= Z.pos p < 2 ^ d -> Z.pos (digits2_pos p) = d.
Proof.
  intros [Hl Hu]. pose proof (digits2_pos_bounds p) as [Bl Bu].
  set (d' := Z.pos (digits2_pos p)) in *.
  assert (0 < d') by (subst d'; lia).
  assert (0 < d).
  { destruct (Z_lt_le_dec 0 d) as [|Hd]; [assumption|].
    destruct (Z.eq_dec d 0) as [->|]; [cbn in Hu; lia|].
    rewrite Z.pow_neg_r in Hu by lia. lia. }
  destruct (Z.lt_trichotomy d' d) as [Hlt|[Heq|Hgt]]; [|assumption|].
  - assert (2 ^ d' <= 2 ^ (d - 1)) by (apply Z.pow_le_mono_r; lia). lia.
  - assert (2 ^ d <= 2 ^ (d' - 1)) by (apply Z.pow_le_mono_r; lia). lia.
Qed.

Lemma shr_1_m mrs : 0 <= shr_m mrs -> shr_m (shr_1 mrs) = shr_m mrs / 2.
Proof.
  destruct mrs as [m r s]. destruct m as [|p|p]; cbn [shr_m]; intros H;
    [reflexivity| |lia].
  destruct p as [p|p|]; cbn [shr_1 shr_m]; [| |reflexivity].
  - change (Z.pos p~1) with (2 * Z.pos p + 1).
    rewrite Z.add_comm, (Z.mul_comm 2), Z.div_add by lia. reflexivity.
  - change (Z.pos p~0) with (2 * Z.pos p).
    rewrite (Z.mul_comm 2), Z.div_mul by lia. reflexivity.
Qed.

Lemma div_pow2_nonneg m n : 0 <= m -> 0 <= m / 2 ^ n.
Proof.
  intros H. destruct (pow2_pos n) as [Hp|Hn].
  - apply Z.div_pos; lia.
  - rewrite Z.pow_neg_r by lia. rewrite Z.div_0_r. lia.
Qed.

Lemma shr_m_iter p : forall mrs,
  0 <= shr_m mrs ->
  shr_m (iter_pos shr_1 p mrs) = shr_m mrs / 2 ^ Z.pos p.
Proof.
  induction p as [p IH|p IH|]; intros mrs H; cbn [iter_pos].
  - rewrite IH, IH, shr_1_m by
      (try rewrite IH; try rewrite shr_1_m by assumption;
       try apply div_pow2_nonneg; try apply Z.div_pos; lia).
    rewrite !Z.div_div by lia.
    change (Z.pos p~1) with (2 * Z.pos p + 1).
    replace (2 * Z.pos p + 1) with (1 + Z.pos p + Z.pos p) by lia.
    rewrite !Z.pow_add_r by lia. f_equal. change (2 ^ 1) with 2. ring.
  - rewrite IH, IH by (try rewrite IH by assumption;
                        try apply div_pow2_nonneg; lia).
    rewrite Z.div_div by lia.
    change (Z.pos p~0) with (2 * Z.pos p).
    replace (2 * Z.pos p) with (Z.pos p + Z.pos p) by lia.
    rewrite Z.pow_add_r by lia. reflexivity.
  - apply shr_1_m. assumption.
Qed.

Lemma shr_1_even m :
  0 <= m -> (2 | m) ->
  shr_1 {| shr_m := m; shr_r := false; shr_s := false |}
  = {| shr_m := m / 2; shr_r := false; shr_s := false |}.
Proof.
  intros H [c Hc]. destruct m as [|p|p]; [reflexivity| |lia].
  destruct p as [p|p|]; [lia| |lia].
  cbn [shr_1 orb]. f_equal. change (Z.pos p~0) with (2 * Z.pos p).
  rewrite (Z.mul_comm 2), Z.div_mul by lia. reflexivity.
Qed.

Lemma pow2_divide_split a b m :
  0 <= a -> 0 <= b -> (2 ^ (a + b) | m) ->
  (2 ^ a | m) /\ (2 ^ b | m / 2 ^ a).
Proof.
  intros Ha Hb [c Hc]. rewrite Z.pow_add_r in Hc by lia.
  assert (0 < 2 ^ a) by (apply Z.pow_pos_nonneg; lia).
  split.
  - exists (c * 2 ^ b). lia.
  - exists c. subst m.
    replace (c * (2 ^ a * 2 ^ b)) with (c * 2 ^ b * 2 ^ a) by ring.
    rewrite Z.div_mul by lia. reflexivity.
Qed.

Lemma shr_iter_exact p : forall m,
  0 <= m -> (2 ^ Z.pos p | m) ->
  iter_pos shr_1 p {| shr_m := m; shr_r := false; shr_s := false |}
  = {| shr_m := m / 2 ^ Z.pos p; shr_r := false; shr_s := false |}.
Proof.
  induction p as [p IH|p IH|]; intros m H Hd; cbn [iter_pos].
  - change (Z.pos p~1) with (2 * Z.pos p + 1) in Hd |- *.
    replace (2 * Z.pos p + 1) with (1 + (Z.pos p + Z.pos p)) in Hd |- * by lia.
    apply pow2_divide_split in Hd as [H1 H2]; [|lia|lia].
    apply pow2_divide_split in H2 as [H2 H3]; [|lia|lia].
    change (2 ^ 1) with 2 in *.
    rewrite shr_1_even by assumption.
    rewrite IH by (try apply Z.div_pos; try assumption; lia).
    rewrite IH by (try apply div_pow2_nonneg; try apply Z.div_pos;
                   try assumption; lia).
    f_equal. rewrite !Z.div_div by lia.
    rewrite !Z.pow_add_r by lia. f_equal.
  - change (Z.pos p~0) with (2 * Z.pos p) in Hd |- *.
    replace (2 * Z.pos p) with (Z.pos p + Z.pos p) in Hd |- * by lia.
    apply pow2_divide_split in Hd as [H1 H2]; [|lia|lia].
    rewrite IH by assumption.
    rewrite IH by (try apply div_pow2_nonneg; assumption).
    f_equal. rewrite Z.div_div by lia.
    rewrite Z.pow_add_r by lia. reflexivity.
  - apply shr_1_even; assumption.
Qed.

End SFRound.
Module SFExact.

Import SFRound.

Lemma fexp_normal d : -1074 <= d - 53 -> fexp prec emax d = d - 53.
Proof.
  unfold fexp, SpecFloat.emin. change prec with 53. change emax with 1024. lia.
Qed.

Lemma Zdigits2_shifted M n :
  0 <= n -> Zdigits2 (Z.pos M * 2 ^ n) = Z.pos (digits2_pos M) + n.
Proof.
  intros Hn. pose proof (digits2_pos_bounds M) as [Bl Bu].
  assert (Hp : 0 < 2 ^ n) by (apply Z.pow_pos_nonneg; lia).
  destruct (Z.pos M * 2 ^ n) as [|q|q] eqn:E; try lia.
  cbn [Zdigits2]. apply digits2_pos_unique. rewrite <- E.
  replace (Z.pos (digits2_pos M) + n - 1)
    with (Z.pos (digits2_pos M) - 1 + n) by lia.
  rewrite !Z.pow_add_r by lia. nia.
Qed.

(** A 53-bit mantissa followed by [n] zero bits is shifted back without
    loss. *)
Lemma shr_fexp_exact M e n :
  Z.pos (digits2_pos M) = 53 -> -1074 <= e -> 0 <= n ->
  shr_fexp prec emax (Z.pos M * 2 ^ n) (e - n) loc_Exact
  = ({| shr_m := Z.pos M; shr_r := false; shr_s := false |}, e).
Proof.
  intros Hd He Hn. unfold shr_fexp.
  rewrite Zdigits2_shifted, Hd by assumption.
  replace (53 + n + (e - n)) with (53 + e) by lia.
  rewrite fexp_normal by lia.
  replace (53 + e - 53 - (e - n)) with n by lia.
  cbn [shr_record_of_loc]. unfold shr.
  destruct n as [|p|p]; [| |lia].
  - rewrite Z.mul_1_r, Z.sub_0_r. reflexivity.
  - assert (Hp : 0 < 2 ^ Z.pos p) by (apply Z.pow_pos_nonneg; lia).
    rewrite shr_iter_exact;
      [| nia | exists (Z.pos M); reflexivity].
    rewrite Z.div_mul by lia. f_equal. lia.
Qed.

Lemma binary_round_aux_exact M e n :
  Z.pos (digits2_pos M) = 53 -> -1074 <= e <= 971 -> 0 <= n ->
  binary_round_aux prec emax false (Z.pos M * 2 ^ n) (e - n) loc_Exact
  = S754_finite false M e.
Proof.
  intros Hd He Hn. unfold binary_round_aux.
  rewrite shr_fexp_exact by (assumption || lia).
  cbn [shr_m loc_of_shr_record round_nearest_even].
  pose proof (shr_fexp_exact M e 0 Hd ltac:(lia) ltac:(lia)) as H0.
  rewrite Z.mul_1_r, Z.sub_0_r in H0. rewrite H0. cbn [shr_m].
  change (emax - prec) with 971.
  destruct (Z.leb_spec e 971); [reflexivity|lia].
Qed.

Lemma iter_xO_pow2 p q : Z.pos (Pos.iter xO p q) = Z.pos p * 2 ^ Z.pos q.
Proof.
  induction q as [|q IH] using Pos.peano_ind.
  - cbn [Pos.iter]. change (Z.pos p~0) with (2 * Z.pos p).
    change (2 ^ 1) with 2. lia.
  - rewrite Pos.iter_succ, Pos2Z.inj_succ, Z.pow_succ_r by lia.
    change (Z.pos (Pos.iter xO p q)~0) with (2 * Z.pos (Pos.iter xO p q)).
    rewrite IH. ring.
Qed.

(** An integer below [2^53] is a float64. *)
Lemma binary_normalize_small k :
  0 < k < 2 ^ 53 ->
  exists M e,
    binary_normalize prec emax k 0 false = S754_finite false M e
    /\ Z.pos (digits2_pos M) = 53 /\ -52 <= e <= 0
    /\ Z.pos M = k * 2 ^ (- e).
Proof.
  intros Hk. destruct k as [|p|p]; try lia.
  cbn [binary_normalize]. unfold binary_round.
  pose proof (digits2_pos_bounds p) as [Bl Bu].
  set (d := Z.pos (digits2_pos p)) in *.
  assert (Hd : 1 <= d <= 53).
  { split; [subst d; lia|].
    destruct (Z_lt_le_dec 53 d) as [Hgt|]; [|assumption].
    assert (2 ^ 53 <= 2 ^ (d - 1)) by (apply Z.pow_le_mono_r; lia). lia. }
  rewrite Z.add_0_r, fexp_normal by lia.
  unfold shl_align. rewrite Z.sub_0_r.
  destruct (d - 53) as [|q|q] eqn:Eq; try lia.
  - exists p, 0. rewrite <- (Z.mul_1_r (Z.pos p)) at 1.
    change 1 with (2 ^ 0) at 1.
    replace 0 with (0 - 0) at 2 by reflexivity.
    rewrite binary_round_aux_exact by (lia || (fold d; lia)).
    repeat split; lia.
  - exists (Pos.iter xO p q), (Z.neg q).
    assert (Hq : Z.pos (Pos.iter xO p q) = Z.pos p * 2 ^ Z.pos q).
    { apply iter_xO_pow2. }
    assert (Hdig : Z.pos (digits2_pos (Pos.iter xO p q)) = 53).
    { pose proof (Zdigits2_shifted p (Z.pos q) ltac:(lia)) as Hs.
      rewrite <- Hq in Hs. cbn [Zdigits2] in Hs. rewrite Hs. fold d. lia. }
    rewrite <- (Z.mul_1_r (Z.pos (Pos.iter xO p q))) at 1.
    change 1 with (2 ^ 0) at 1.
    replace (Z.neg q) with (Z.neg q - 0) at 1 by lia.
    rewrite binary_round_aux_exact by lia.
    repeat split; try lia. exact Hq.
Qed.

End SFExact.
(* ===================================================================== *)
(** ** Integers that float64 holds exactly *)

Lemma of_int_small k :
  0 < k < 2 ^ 53 ->
  exists M e,
    Prim2SF (Float64.of_int k) = S754_finite false M e
    /\ Z.pos (digits2_pos M) = 53 /\ -52 <= e <= 0
    /\ Z.pos M = k * 2 ^ (- e).
Proof.
  intros Hk. unfold Float64.of_int.
  rewrite Z.abs_eq by lia.
  destruct (Z.ltb_spec k GoInt.two63) as [_|H];
    [|unfold GoInt.two63 in H; lia].
  destruct (Z.ltb_spec k 0) as [H|_]; [lia|].
  rewrite of_uint63_spec, Uint63.of_Z_spec.
  rewrite Z.mod_small by (change Uint63.wB with (2 ^ 63); lia).
  apply SFExact.binary_normalize_small. assumption.
Qed.

Lemma mul_one_exact (x : float) M e :
  Prim2SF x = S754_finite false M e ->
  Z.pos (digits2_pos M) = 53 -> -1074 <= e <= 971 ->
  (1 * x)%float = x.
Proof.
  intros Hx Hd He. apply Prim2SF_inj. rewrite mul_spec, Hx.
  change (Prim2SF 1) with (S754_finite false 4503599627370496 (-52)).
  unfold SF64mul, SFmul. cbn [xorb].
  replace (Z.pos (4503599627370496 * M)) with (Z.pos M * 2 ^ 52) by lia.
  replace (-52 + e) with (e - 52) by lia.
  apply SFExact.binary_round_aux_exact; (assumption || lia).
Qed.

Lemma to_int_exact (x : float) M e k :
  Prim2SF x = S754_finite false M e ->
  -52 <= e <= 0 -> Z.pos M = k * 2 ^ (- e) -> 0 < k < 2 ^ 63 ->
  Float64.to_int x = k.
Proof.
  intros Hx He HM Hk. unfold Float64.to_int. rewrite Hx.
  rewrite Z.shiftl_div_pow2 by lia.
  assert (0 < 2 ^ (- e)) by (apply Z.pow_pos_nonneg; lia).
  rewrite HM, Z.div_mul by lia.
  change GoInt.two63 with (2 ^ 63).
  destruct (Z.leb_spec (- 2 ^ 63) k); [|lia].
  destruct (Z.ltb_spec k (2 ^ 63)); [reflexivity|lia].
Qed.

(** The linear radius of a black box: [boxHalf * scale] itself, as long as
    float64 holds that product exactly. *)
Lemma black_linear_radius k :
  0 < k < 2 ^ 53 ->
  Float64.to_int ((1.0 - 0) * Float64.of_int k)%float = k.
Proof.
  intros Hk. destruct (of_int_small k Hk) as (M & e & Hx & Hd & He & HM).
  change (1.0 - 0)%float with 1%float.
  rewrite (mul_one_exact _ M e Hx Hd) by lia.
  apply (to_int_exact _ M e k Hx He HM). lia.
Qed.
(* ===================================================================== *)
(** ** A black image *)

Lemma black_box_average x y :
  0 <= x < 2 -> 0 <= y < 2 ->
  averageColor (solid 100 100 blackPixel) 50 (GoInt.mul 50 50) x y
  = Some (0, 0, 0).
Proof.
  intros Hx Hy.
  assert (Ex : x = 0 \/ x = 1) by lia. assert (Ey : y = 0 \/ y = 1) by lia.
  destruct Ex as [-> | ->], Ey as [-> | ->]; vm_compute; reflexivity.
Qed.

Lemma black_luma (bt : bool) :
  (if bt then lumaBT709 else lumaBT601) 0 0 0 = 0%float.
Proof. destruct bt; vm_compute; reflexivity. Qed.

Lemma scaled_coordinate c scale :
  0 <= c <= 100 -> 0 < scale -> 25 * scale < 2 ^ 53 ->
  GoInt.mul c scale = c * scale.
Proof.
  intros Hc Hs Hk. unfold GoInt.mul. apply wrap64_id.
  unfold isInt, GoInt.two63. nia.
Qed.

(** C8, for the scales at which float64 holds [25 * scale] exactly: on a
    black image of 100 by 100 and a box of 50 the grid has two columns and
    two rows; each box has average colour [(0, 0, 0)] and luma [0.0]; under
    the linear policy and a threshold above [0.0] the canvas holds four
    circles of radius [25 * scale], filled [#000000] in colour mode and
    [black] otherwise. *)
Theorem black_image_scenario G thr (color bt709 : bool) name scale w :
  denied w name = false ->
  (0 <? thr)%float = true ->
  0 < scale -> 25 * scale < 2 ^ 53 ->
  let img := solid 100 100 blackPixel in
  let run := makeDots G img 50 thr color bt709 name scale false w in
  let style := if color then "fill:#000000;stroke:none"%string
               else "fill:black;stroke:none"%string in
  GoInt.quo (Dx img) 50 = Some 2 /\ GoInt.quo (Dy img) 50 = Some 2
  /\ (forall x y, 0 <= x < 2 -> 0 <= y < 2 ->
      averageColor img 50 (GoInt.mul 50 50) x y = Some (0, 0, 0))
  /\ (if bt701 G then lumaBT709 else lumaBT601) 0 0 0 = 0%float
  /\ fst run = Returned
  /\ files (snd run) name
     = Some [CanvasStart (100 * scale) (100 * scale);
             CanvasCircle (25 * scale) (25 * scale) (25 * scale) style;
             CanvasCircle (25 * scale) (75 * scale) (25 * scale) style;
             CanvasCircle (75 * scale) (25 * scale) (25 * scale) style;
             CanvasCircle (75 * scale) (75 * scale) (25 * scale) style;
             CanvasEnd].
Proof.
  intros Hd Hthr Hs Hk img run style. subst run.
  split; [reflexivity|]. split; [reflexivity|].
  split; [exact black_box_average|].
  split; [apply black_luma|].
  unfold makeDots. rewrite Hd.
  rewrite drawGrid_boxes by (vm_compute; discriminate).
  change (GoInt.quot (Dx img) 50) with 2.
  change (GoInt.quot (Dy img) 50) with 2.
  change (GoInt.quot 50 2) with 25.
  change (upto 2) with [0; 1].
  cbn [flat_map app].
  rewrite !(drawBox_average _ _ _ _ _ _ _ _ _ _ _ 0 0 0)
    by (apply black_box_average; lia).
  rewrite black_luma, (ltb_not_geb _ _ Hthr).
  unfold boxCircle, dotRadius.
  change (GoInt.add (GoInt.mul 0 50) 25) with 25.
  change (GoInt.add (GoInt.mul 1 50) 25) with 75.
  change (Dx img) with 100. change (Dy img) with 100.
  rewrite !scaled_coordinate by lia.
  rewrite black_linear_radius by lia.
  cbn [Draw.emit snd fst exitOf canvasOf app writeFile files].
  rewrite String.eqb_refl. split; [reflexivity|].
  destruct color; reflexivity.
Qed.

Lemma black_image_scenario_witness :
  files (snd (makeDots {| bt701 := false |} (solid 100 100 blackPixel) 50 1
                       true false "out.svg" 3 false emptyWorld)) "out.svg"%string
  = Some [CanvasStart 300 300;
          CanvasCircle 75 75 75 "fill:#000000;stroke:none";
          CanvasCircle 75 225 75 "fill:#000000;stroke:none";
          CanvasCircle 225 75 75 "fill:#000000;stroke:none";
          CanvasCircle 225 225 75 "fill:#000000;stroke:none";
          CanvasEnd].
Proof.
  pose proof (black_image_scenario {| bt701 := false |} 1 true false
                "out.svg" 3 emptyWorld eq_refl eq_refl
                ltac:(lia) ltac:(lia)) as H.
  cbv zeta in H. exact (proj2 (proj2 (proj2 (proj2 (proj2 H))))).
Defined.

(** C8 as stated fails once float64 no longer holds [25 * scale]: at scale
    [2^49 + 1] the product is odd and above [2^53], the conversion rounds it
    to the even neighbour below, and the radius is [25 * scale - 1]. *)
Lemma black_image_huge_scale :
  let scale := 2 ^ 49 + 1 in
  circles (canvasOf (drawGrid {| bt701 := false |} (solid 100 100 blackPixel)
                              50 1 true false scale false))
  = [CanvasCircle (25 * scale) (25 * scale) (25 * scale - 1) "fill:#000000;stroke:none";
     CanvasCircle (25 * scale) (75 * scale) (25 * scale - 1) "fill:#000000;stroke:none";
     CanvasCircle (75 * scale) (25 * scale) (25 * scale - 1) "fill:#000000;stroke:none";
     CanvasCircle (75 * scale) (75 * scale) (25 * scale - 1) "fill:#000000;stroke:none"].
Proof. vm_compute. reflexivity. Qed.
(* ===================================================================== *)
(** ** binary64: rounding of long mantissas *)

Module SFTrunc.

Import SFRound SFExact.

Lemma shr_m_record_of_loc m l : shr_m (shr_record_of_loc m l) = m.
Proof. destruct l as [|[]]; reflexivity. Qed.

Lemma round_nearest_even_cases m l :
  round_nearest_even m l = m \/ round_nearest_even m l = m + 1.
Proof.
  destruct l as [|[]]; cbn; auto. destruct (Z.even m); auto.
Qed.

Lemma Zdigits2_bounds m :
  0 < m -> 2 ^ (Zdigits2 m - 1) <= m < 2 ^ Zdigits2 m.
Proof.
  destruct m as [|p|p]; try lia. intros _. apply digits2_pos_bounds.
Qed.

Lemma Zdigits2_unique m d :
  2 ^ (d - 1) <= m < 2 ^ d -> 0 < m -> Zdigits2 m = d.
Proof.
  destruct m as [|p|p]; try lia. intros H _. apply digits2_pos_unique, H.
Qed.

(** The first shift of [binary_round_aux] leaves the 53 leading bits. *)
Lemma shr_fexp_trunc m e l :
  0 < m -> 0 <= Zdigits2 m - 53 -> -1074 <= e + (Zdigits2 m - 53) ->
  exists mrs,
    shr_fexp prec emax m e l = (mrs, e + (Zdigits2 m - 53))
    /\ shr_m mrs = m / 2 ^ (Zdigits2 m - 53).
Proof.
  intros Hm Hn He. unfold shr_fexp.
  rewrite fexp_normal by lia.
  replace (Zdigits2 m + e - 53 - e) with (Zdigits2 m - 53) by lia.
  unfold shr. destruct (Zdigits2 m - 53) as [|p|p]; [| |lia].
  - eexists. split; [rewrite Z.add_0_r; reflexivity|].
    rewrite shr_m_record_of_loc, Z.div_1_r. reflexivity.
  - eexists. split; [reflexivity|].
    rewrite shr_m_iter by (rewrite shr_m_record_of_loc; lia).
    rewrite shr_m_record_of_loc. reflexivity.
Qed.

Lemma trunc_range m :
  0 < m -> 0 <= Zdigits2 m - 53 ->
  2 ^ 52 <= m / 2 ^ (Zdigits2 m - 53) < 2 ^ 53.
Proof.
  intros Hm Hn. pose proof (Zdigits2_bounds m Hm) as [Bl Bu].
  set (n := Zdigits2 m - 53) in *.
  assert (Hp : 0 < 2 ^ n) by (apply Z.pow_pos_nonneg; lia).
  replace (Zdigits2 m - 1) with (n + 52) in Bl by (subst n; lia).
  replace (Zdigits2 m) with (n + 53) in Bu by (subst n; lia).
  rewrite Z.pow_add_r in Bl, Bu by lia.
  split.
  - apply Z.div_le_lower_bound; lia.
  - apply Z.div_lt_upper_bound; lia.
Qed.

(** [binary_round_aux] on a positive mantissa of 53 bits or more, in the
    normal range and below overflow: the result is one of the two
    neighbours of the mantissa cut to 53 bits. *)
Lemma binary_round_aux_trunc m e l :
  0 < m -> 0 <= Zdigits2 m - 53 ->
  -1074 <= e + (Zdigits2 m - 53) -> e + (Zdigits2 m - 53) + 1 <= 971 ->
  exists m' e',
    binary_round_aux prec emax false m e l = S754_finite false m' e'
    /\ e <= e'
    /\ (Z.pos m' * 2 ^ (e' - e)
          = m / 2 ^ (Zdigits2 m - 53) * 2 ^ (Zdigits2 m - 53)
        \/ Z.pos m' * 2 ^ (e' - e)
          = (m / 2 ^ (Zdigits2 m - 53) + 1) * 2 ^ (Zdigits2 m - 53)).
Proof.
  intros Hm Hn He Ho.
  destruct (shr_fexp_trunc m e l Hm Hn He) as (mrs & E1 & HF).
  pose proof (trunc_range m Hm Hn) as HR.
  set (n := Zdigits2 m - 53) in *. set (F := m / 2 ^ n) in *.
  unfold binary_round_aux. rewrite E1, HF.
  set (m2 := round_nearest_even F (loc_of_shr_record mrs)).
  assert (Hm2 : m2 = F \/ m2 = F + 1) by apply round_nearest_even_cases.
  assert (Hp : 0 < 2 ^ n) by (apply Z.pow_pos_nonneg; lia).
  destruct (Z_lt_le_dec m2 (2 ^ 53)) as [Hlt|Hge].
  - (* the rounded mantissa still has 53 bits *)
    assert (Hd : Zdigits2 m2 = 53) by (apply Zdigits2_unique; lia).
    unfold shr_fexp. rewrite Hd, fexp_normal by lia.
    replace (53 + (e + n) - 53 - (e + n)) with 0 by lia.
    cbn [shr shr_record_of_loc shr_m].
    destruct m2 as [|q|q] eqn:Eq; try lia.
    change (emax - prec) with 971.
    destruct (Z.leb_spec (e + n) 971); [|lia].
    exists q, (e + n). split; [reflexivity|]. split; [lia|].
    replace (e + n - e) with n by lia.
    destruct Hm2 as [<- | <-]; auto.
  - (* it reached 2^53 and is shifted once more *)
    assert (E2 : m2 = 2 ^ 53) by lia.
    rewrite E2. change (2 ^ 53) with 9007199254740992.
    unfold shr_fexp. change (Zdigits2 9007199254740992) with 54.
    rewrite fexp_normal by lia.
    replace (54 + (e + n) - 53 - (e + n)) with 1 by lia.
    cbn [shr shr_record_of_loc iter_pos shr_1 shr_m].
    change (emax - prec) with 971.
    destruct (Z.leb_spec (e + n + 1) 971); [|lia].
    exists 4503599627370496%positive, (e + n + 1).
    split; [reflexivity|]. split; [lia|]. right.
    replace (e + n + 1 - e) with (1 + n) by lia.
    rewrite Z.pow_add_r by lia. change (2 ^ 1) with 2.
    assert (F + 1 = 9007199254740992) by lia. nia.
Qed.

End SFTrunc.
(* ===================================================================== *)
(** ** binary64: the reals behind the floats *)

Module SFReal.

Import SF SFRound SFExact SFTrunc.
Local Open Scope R_scope.

Lemma p2_pos e : 0 < p2 e.
Proof. apply powerRZ_lt. lra. Qed.

Lemma p2_add a b : p2 (a + b) = p2 a * p2 b.
Proof. apply powerRZ_add. lra. Qed.

Lemma p2_IZR n : (0 <= n)%Z -> p2 n = IZR (2 ^ n).
Proof.
  intros H. unfold p2. rewrite <- (Z2Nat.id n H) at 2.
  rewrite <- pow_IZR, pow_powerRZ, Z2Nat.id by assumption. reflexivity.
Qed.

Lemma p2_ge_1 n : (0 <= n)%Z -> 1 <= p2 n.
Proof.
  intros H. rewrite p2_IZR by assumption. apply IZR_le.
  assert (0 < 2 ^ n)%Z by (apply Z.pow_pos_nonneg; lia). lia.
Qed.

Lemma p2_le a b : (a <= b)%Z -> p2 a <= p2 b.
Proof.
  intros H. replace b with (a + (b - a))%Z by lia. rewrite p2_add.
  pose proof (p2_pos a). pose proof (p2_ge_1 (b - a) ltac:(lia)). nra.
Qed.

Lemma p2_lt a b : (a < b)%Z -> p2 a < p2 b.
Proof.
  intros H. replace b with (a + 1 + (b - a - 1))%Z by lia.
  rewrite !p2_add, (p2_IZR 1) by lia. change (2 ^ 1)%Z with 2%Z.
  pose proof (p2_pos a). pose proof (p2_ge_1 (b - a - 1) ltac:(lia)). nra.
Qed.

Lemma p2_neg_52 : p2 (-52) * IZR (2 ^ 52) = 1.
Proof.
  rewrite <- (p2_IZR 52) by lia. rewrite <- p2_add. reflexivity.
Qed.

(** The relative error of [binary_round_aux] is at most [2^-52]: [x] is the
    exact value, of which [m] holds the integer part at exponent [e]. *)
Lemma binary_round_aux_rel m e l x :
  (0 < m)%Z -> (0 <= Zdigits2 m - 53)%Z ->
  (-1074 <= e + (Zdigits2 m - 53))%Z ->
  (e + (Zdigits2 m - 53) + 1 <= 971)%Z ->
  IZR m * p2 e <= x < (IZR m + 1) * p2 e ->
  exists m' e',
    binary_round_aux prec emax false m e l = S754_finite false m' e'
    /\ x * (1 - p2 (-52)) <= IZR (Z.pos m') * p2 e' <= x * (1 + p2 (-52)).
Proof.
  intros Hm Hn He Ho Hx.
  destruct (binary_round_aux_trunc m e l Hm Hn He Ho)
    as (m' & e' & E & Hee & HV).
  exists m', e'. split; [exact E|].
  pose proof (trunc_range m Hm Hn) as [HF _].
  set (n := (Zdigits2 m - 53)%Z) in *. set (F := (m / 2 ^ n)%Z) in *.
  assert (Hp : (0 < 2 ^ n)%Z) by (apply Z.pow_pos_nonneg; lia).
  assert (HV' : IZR (Z.pos m') * p2 e' = IZR (Z.pos m' * 2 ^ (e' - e)) * p2 e).
  { rewrite mult_IZR, <- p2_IZR by lia.
    replace e' with (e' - e + e)%Z at 1 by lia. rewrite p2_add. ring. }
  rewrite HV'.
  assert (Hlo : (F * 2 ^ n <= m)%Z).
  { subst F. rewrite Z.mul_comm. apply Z.mul_div_le. lia. }
  assert (Hhi : (m + 1 <= (F + 1) * 2 ^ n)%Z).
  { subst F. pose proof (Z.mul_succ_div_gt m (2 ^ n) Hp). lia. }
  apply IZR_le in Hlo, Hhi, HF.
  rewrite mult_IZR in Hlo. rewrite plus_IZR, mult_IZR, plus_IZR in Hhi.
  pose proof (p2_pos e) as HP. pose proof p2_neg_52 as Heps.
  pose proof (p2_pos (-52)) as Heps0.
  set (eps := p2 (-52)) in *. set (P := p2 e) in *.
  set (T := IZR (2 ^ n)) in *. set (Fr := IZR F) in *.
  set (c52 := IZR (2 ^ 52)) in *. set (mr := IZR m) in *.
  assert (HT : 0 < T) by (subst T; apply IZR_lt; lia).
  assert (Hu : 0 < T * P) by nra.
  assert (Hx1 : Fr * (T * P) <= x) by nra.
  assert (Hx2 : x < (Fr + 1) * (T * P)) by nra.
  assert (Hu2 : T * P <= x * eps).
  { assert (c52 * (T * P) <= x) by nra.
    assert (c52 * (T * P) * eps <= x * eps) by nra.
    replace (c52 * (T * P) * eps) with (T * P * (eps * c52)) in * by ring.
    rewrite Heps in *. lra. }
  destruct HV as [-> | ->];
    rewrite mult_IZR, ?plus_IZR; fold T Fr; nra.
Qed.

End SFReal.
(* ===================================================================== *)
(** ** binary64: order and products of positive floats *)

Module SFPos.

Import SF SFRound SFExact SFTrunc SFReal.
Local Open Scope R_scope.

Lemma canonical_cases m e :
  canonical_mantissa prec emax m e = true ->
  (Z.pos (digits2_pos m) = 53 /\ -1074 <= e)%Z
  \/ (e = -1074 /\ Z.pos (digits2_pos m) <= 53)%Z.
Proof.
  unfold canonical_mantissa, fexp, SpecFloat.emin.
  change prec with 53%Z. change emax with 1024%Z.
  intros H. apply Z.eqb_eq in H. lia.
Qed.

Lemma Prim2SF_canonical (f : float) s m e :
  Prim2SF f = S754_finite s m e ->
  canonical_mantissa prec emax m e = true /\ (e <= 971)%Z.
Proof.
  intros E. pose proof (Prim2SF_valid f) as H. rewrite E in H.
  cbn [SpecFloat.valid_binary] in H. unfold bounded in H.
  apply andb_prop in H as [H1 H2]. split; [exact H1|].
  apply Z.leb_le in H2. exact H2.
Qed.

Lemma mantissa_lt m d :
  (Z.pos (digits2_pos m) <= d)%Z -> IZR (Z.pos m) < p2 d.
Proof.
  intros H. pose proof (digits2_pos_bounds m) as [_ Bu].
  rewrite p2_IZR by lia. apply IZR_lt.
  assert (2 ^ Z.pos (digits2_pos m) <= 2 ^ d)%Z
    by (apply Z.pow_le_mono_r; lia). lia.
Qed.

Lemma mantissa_ge m :
  Z.pos (digits2_pos m) = 53%Z -> p2 52 <= IZR (Z.pos m).
Proof.
  intros H. pose proof (digits2_pos_bounds m) as [Bl _].
  rewrite H in Bl. rewrite p2_IZR by lia. apply IZR_le. exact Bl.
Qed.

Lemma canonical_lt m1 e1 m2 e2 :
  canonical_mantissa prec emax m1 e1 = true ->
  canonical_mantissa prec emax m2 e2 = true ->
  (e1 < e2)%Z ->
  IZR (Z.pos m1) * p2 e1 < IZR (Z.pos m2) * p2 e2.
Proof.
  intros C1 C2 He.
  apply canonical_cases in C1, C2.
  assert (H1 : IZR (Z.pos m1) < p2 53) by (apply mantissa_lt; lia).
  assert (H2 : p2 52 <= IZR (Z.pos m2)) by (apply mantissa_ge; lia).
  pose proof (p2_pos e1). pose proof (p2_pos e2).
  pose proof (p2_le (e1 + 1) e2 ltac:(lia)) as Hle.
  rewrite p2_add in Hle.
  rewrite (p2_IZR 1) in Hle by lia. change (2 ^ 1)%Z with 2%Z in Hle.
  replace 53%Z with (52 + 1)%Z in H1 by lia. rewrite p2_add in H1.
  rewrite (p2_IZR 1) in H1 by lia. change (2 ^ 1)%Z with 2%Z in H1.
  pose proof (p2_pos 52).
  set (P1 := p2 e1) in *. set (P2 := p2 e2) in *. set (c := p2 52) in *.
  assert (IZR (Z.pos m1) * P1 < c * 2 * P1) by nra.
  assert (c * (P1 * 2) <= c * P2) by nra.
  assert (c * P2 <= IZR (Z.pos m2) * P2) by nra.
  lra.
Qed.

Lemma SFcompare_pos m1 e1 m2 e2 :
  canonical_mantissa prec emax m1 e1 = true ->
  canonical_mantissa prec emax m2 e2 = true ->
  match SFcompare (S754_finite false m1 e1) (S754_finite false m2 e2) with
  | Some Lt => IZR (Z.pos m1) * p2 e1 < IZR (Z.pos m2) * p2 e2
  | Some Eq => IZR (Z.pos m1) * p2 e1 = IZR (Z.pos m2) * p2 e2
  | Some Gt => IZR (Z.pos m2) * p2 e2 < IZR (Z.pos m1) * p2 e1
  | None => False
  end.
Proof.
  intros C1 C2. cbn [SFcompare].
  destruct (Z.compare_spec e1 e2) as [->|Hlt|Hgt].
  - change (PosDef.Pos.compare_cont Eq m1 m2) with (Pos.compare m1 m2).
    pose proof (p2_pos e2).
    destruct (Pos.compare_spec m1 m2) as [->|Hm|Hm].
    + reflexivity.
    + apply Rmult_lt_compat_r; [assumption|]. apply IZR_lt. lia.
    + apply Rmult_lt_compat_r; [assumption|]. apply IZR_lt. lia.
  - apply canonical_lt; assumption.
  - apply canonical_lt; assumption.
Qed.

(** On positive finite floats the comparisons are those of the reals. *)
Lemma ltb_pos (x y : float) m1 e1 m2 e2 :
  Prim2SF x = S754_finite false m1 e1 ->
  Prim2SF y = S754_finite false m2 e2 ->
  ((x <? y)%float = true <-> toR (Prim2SF x) < toR (Prim2SF y)).
Proof.
  intros Ex Ey. rewrite ltb_spec, Ex, Ey. unfold SFltb, toR.
  destruct (Prim2SF_canonical x _ _ _ Ex) as [C1 _].
  destruct (Prim2SF_canonical y _ _ _ Ey) as [C2 _].
  pose proof (SFcompare_pos m1 e1 m2 e2 C1 C2) as H.
  rewrite !Rmult_1_l.
  destruct (SFcompare (S754_finite false m1 e1) (S754_finite false m2 e2))
    as [[]|]; split; intros; try easy; lra.
Qed.

Lemma leb_pos (x y : float) m1 e1 m2 e2 :
  Prim2SF x = S754_finite false m1 e1 ->
  Prim2SF y = S754_finite false m2 e2 ->
  ((x <=? y)%float = true <-> toR (Prim2SF x) <= toR (Prim2SF y)).
Proof.
  intros Ex Ey. rewrite leb_spec, Ex, Ey. unfold SFleb, toR.
  destruct (Prim2SF_canonical x _ _ _ Ex) as [C1 _].
  destruct (Prim2SF_canonical y _ _ _ Ey) as [C2 _].
  pose proof (SFcompare_pos m1 e1 m2 e2 C1 C2) as H.
  rewrite !Rmult_1_l.
  destruct (SFcompare (S754_finite false m1 e1) (S754_finite false m2 e2))
    as [[]|]; split; intros; try easy; lra.
Qed.

(** A positive float between [2^lo] and [2^hi], well above the subnormal
    range, has a 53-bit mantissa and an exponent the bounds fix. *)
Lemma exponent_range (f : float) m e lo hi :
  Prim2SF f = S754_finite false m e ->
  (-1021 <= lo)%Z ->
  p2 lo <= toR (Prim2SF f) <= p2 hi ->
  Z.pos (digits2_pos m) = 53%Z /\ (lo - 52 <= e <= hi - 52)%Z.
Proof.
  intros E Hlo [Hl Hh]. rewrite E in Hl, Hh. unfold toR in Hl, Hh.
  rewrite Rmult_1_l in Hl, Hh.
  destruct (Prim2SF_canonical f _ _ _ E) as [C _].
  apply canonical_cases in C.
  assert (Hm : IZR (Z.pos m) < p2 53) by (apply mantissa_lt; lia).
  pose proof (p2_pos e) as HP.
  assert (He : (lo - 53 < e)%Z).
  { destruct (Z_lt_le_dec (lo - 53) e) as [|Hc]; [assumption|exfalso].
    pose proof (p2_le (e + 53) lo ltac:(lia)) as Hc'.
    rewrite p2_add in Hc'. nra. }
  assert (Hd : Z.pos (digits2_pos m) = 53%Z) by lia.
  split; [exact Hd|]. split; [lia|].
  pose proof (mantissa_ge m Hd) as Hge.
  destruct (Z_lt_le_dec (hi - 52) e) as [Hc|]; [exfalso|lia].
  pose proof (p2_lt hi (e + 52) ltac:(lia)) as Hc'.
  rewrite p2_add in Hc'. pose proof (p2_pos 52). nra.
Qed.

(** The product of two normal positive floats, away from underflow and
    overflow, is exact to a relative [2^-52]. *)
Lemma mul_rel (x y : float) mx ex my ey :
  Prim2SF x = S754_finite false mx ex ->
  Prim2SF y = S754_finite false my ey ->
  Z.pos (digits2_pos mx) = 53%Z -> Z.pos (digits2_pos my) = 53%Z ->
  (-1074 <= ex + ey + 52)%Z -> (ex + ey + 54 <= 971)%Z ->
  exists m e,
    Prim2SF (x * y)%float = S754_finite false m e
    /\ toR (Prim2SF x) * toR (Prim2SF y) * (1 - p2 (-52))
       <= toR (Prim2SF (x * y)%float)
       <= toR (Prim2SF x) * toR (Prim2SF y) * (1 + p2 (-52)).
Proof.
  intros Ex Ey Dx Dy Hlo Hhi. rewrite mul_spec, Ex, Ey.
  unfold SF64mul, SFmul. cbn [xorb].
  pose proof (digits2_pos_bounds mx) as [Lx Ux].
  pose proof (digits2_pos_bounds my) as [Ly Uy].
  rewrite Dx in Lx, Ux. rewrite Dy in Ly, Uy.
  change (53 - 1)%Z with 52%Z in Lx, Ly.
  assert (HM : (2 ^ 104 <= Z.pos (mx * my) < 2 ^ 106)%Z).
  { rewrite Pos2Z.inj_mul.
    change (2 ^ 104)%Z with (2 ^ 52 * 2 ^ 52)%Z.
    change (2 ^ 106)%Z with (2 ^ 53 * 2 ^ 53)%Z. nia. }
  assert (Hd : (Zdigits2 (Z.pos (mx * my)) = 105
               \/ Zdigits2 (Z.pos (mx * my)) = 106)%Z).
  { destruct (Z_lt_le_dec (Z.pos (mx * my)) (2 ^ 105)).
    - left. apply Zdigits2_unique; [|lia]. change (105 - 1)%Z with 104%Z. lia.
    - right. apply Zdigits2_unique; [|lia]. change (106 - 1)%Z with 105%Z. lia. }
  destruct (binary_round_aux_rel (Z.pos (mx * my)) (ex + ey) loc_Exact
              (IZR (Z.pos (mx * my)) * p2 (ex + ey)))
    as (m & e & E & HV); try lia.
  { pose proof (p2_pos (ex + ey)). nra. }
  exists m, e. split; [exact E|]. rewrite E. unfold toR.
  rewrite Pos2Z.inj_mul, mult_IZR, p2_add in HV.
  rewrite !Rmult_1_l.
  replace (IZR (Z.pos mx) * p2 ex * (IZR (Z.pos my) * p2 ey))
    with (IZR (Z.pos mx) * IZR (Z.pos my) * (p2 ex * p2 ey)) by ring.
  exact HV.
Qed.

End SFPos.
(* ===================================================================== *)
(** ** Scaling two coefficients by the same integer *)

Module Scaling.

Import SF SFRound SFExact SFTrunc SFReal SFPos.
Local Open Scope R_scope.

(** A float between two positive finite floats is positive and finite. *)
Lemma between_pos (lo f hi : float) ml el mh eh :
  Prim2SF lo = S754_finite false ml el ->
  Prim2SF hi = S754_finite false mh eh ->
  (lo <=? f)%float = true -> (f <=? hi)%float = true ->
  exists m e,
    Prim2SF f = S754_finite false m e
    /\ toR (Prim2SF lo) <= toR (Prim2SF f) <= toR (Prim2SF hi).
Proof.
  intros El Eh Hl Hh.
  pose proof Hl as Hl'. pose proof Hh as Hh'.
  rewrite leb_spec, El in Hl'. rewrite leb_spec, Eh in Hh'.
  destruct (Prim2SF f) as [s|s| |s m e] eqn:E; try discriminate;
    try (destruct s; discriminate).
  destruct s; [discriminate|].
  exists m, e. split; [reflexivity|]. rewrite <- E. split.
  - apply (proj1 (leb_pos lo f _ _ _ _ El E)). exact Hl.
  - apply (proj1 (leb_pos f hi _ _ _ _ E Eh)). exact Hh.
Qed.

Lemma toR_of_int k :
  (0 < k < 2 ^ 53)%Z ->
  exists M e,
    Prim2SF (Float64.of_int k) = S754_finite false M e
    /\ Z.pos (digits2_pos M) = 53%Z /\ (-52 <= e <= 0)%Z
    /\ toR (Prim2SF (Float64.of_int k)) = IZR k.
Proof.
  intros Hk. destruct (of_int_small k Hk) as (M & e & E & Hd & He & HM).
  exists M, e. repeat split; try assumption; try lia.
  rewrite E. unfold toR. rewrite Rmult_1_l, HM, mult_IZR.
  rewrite <- p2_IZR by lia. rewrite Rmult_assoc, <- p2_add.
  replace (- e + e)%Z with 0%Z by lia. change (p2 0) with 1. ring.
Qed.

(** The margin the comparisons below ask for: one part in [2^40]. *)
Lemma margin_constants :
  1 + p2 (-52)
  <= (1 + / IZR (2 ^ 40)) * (1 - p2 (-52)) * (1 - p2 (-52)).
Proof.
  pose proof p2_neg_52 as H. pose proof (p2_pos (-52)) as H0.
  set (eps := p2 (-52)) in *.
  assert (E : eps = / IZR (2 ^ 52)).
  { apply Rmult_eq_reg_r with (IZR (2 ^ 52)); [|apply not_0_IZR; lia].
    rewrite H. field. apply not_0_IZR. lia. }
  rewrite E. change (2 ^ 40)%Z with 1099511627776%Z.
  change (2 ^ 52)%Z with 4503599627370496%Z. lra.
Qed.

(** If [a], scaled up by one part in [2^40], is still below [b], then
    [a * k] is below [b * k] for every integer [k] that float64 holds: the
    two roundings cannot close the gap. *)
Lemma scaled_order (a b : float) k :
  (0 < k < 2 ^ 53)%Z ->
  (0x1p-64 <=? a)%float = true -> (a <=? 2)%float = true ->
  (0x1p-64 <=? b)%float = true -> (b <=? 2)%float = true ->
  (a * 0x1.0000000001p+0 <? b)%float = true ->
  (a * Float64.of_int k <? b * Float64.of_int k)%float = true.
Proof.
  intros Hk La Ua Lb Ub Hgap.
  destruct (between_pos 0x1p-64 a 2 _ _ _ _ eq_refl eq_refl La Ua)
    as (ma & ea & Ea & Ra).
  destruct (between_pos 0x1p-64 b 2 _ _ _ _ eq_refl eq_refl Lb Ub)
    as (mb & eb & Eb & Rb).
  change (toR (Prim2SF 0x1p-64)) with (1 * IZR 4503599627370496 * p2 (-116))
    in Ra, Rb.
  change (toR (Prim2SF 2)) with (1 * IZR 4503599627370496 * p2 (-51))
    in Ra, Rb.
  change 4503599627370496%Z with (2 ^ 52)%Z in Ra, Rb.
  rewrite <- (p2_IZR 52), Rmult_1_l, <- !p2_add in Ra, Rb by lia.
  change (52 + -116)%Z with (-64)%Z in Ra, Rb.
  change (52 + -51)%Z with 1%Z in Ra, Rb.
  destruct (exponent_range a ma ea (-64) 1 Ea ltac:(lia) Ra) as [Da Xa].
  destruct (exponent_range b mb eb (-64) 1 Eb ltac:(lia) Rb) as [Db Xb].
  destruct (toR_of_int k Hk) as (M & e & EK & DK & XK & RK).
  (* the three products *)
  destruct (mul_rel a 0x1.0000000001p+0 ma ea 4503599627374592 (-52)
              Ea eq_refl Da eq_refl ltac:(lia) ltac:(lia))
    as (m1 & e1 & E1 & R1).
  destruct (mul_rel a (Float64.of_int k) ma ea M e Ea EK Da DK
              ltac:(lia) ltac:(lia)) as (m2 & e2 & E2 & R2).
  destruct (mul_rel b (Float64.of_int k) mb eb M e Eb EK Db DK
              ltac:(lia) ltac:(lia)) as (m3 & e3 & E3 & R3).
  apply (proj1 (ltb_pos _ _ _ _ _ _ E1 Eb)) in Hgap.
  apply (proj2 (ltb_pos _ _ _ _ _ _ E2 E3)).
  rewrite RK in R2, R3.
  assert (Hc : toR (Prim2SF 0x1.0000000001p+0) = 1 + / IZR (2 ^ 40)).
  { change (toR (Prim2SF 0x1.0000000001p+0))
      with (1 * IZR 4503599627374592 * p2 (-52)).
    pose proof p2_neg_52 as H52. pose proof (p2_pos (-52)).
    change (2 ^ 52)%Z with 4503599627370496%Z in H52.
    change (2 ^ 40)%Z with 1099511627776%Z.
    apply Rmult_eq_reg_r with (IZR 4503599627370496); [|lra].
    replace (1 * IZR 4503599627374592 * p2 (-52) * IZR 4503599627370496)
      with (IZR 4503599627374592 * (p2 (-52) * IZR 4503599627370496)) by ring.
    rewrite H52. lra. }
  rewrite Hc in R1.
  pose proof margin_constants as Hm.
  pose proof (p2_pos (-52)) as He0. pose proof (p2_pos (-64)) as H64.
  assert (Hk' : 1 <= IZR k) by (apply IZR_le; lia).
  set (A := toR (Prim2SF a)) in *. set (B := toR (Prim2SF b)) in *.
  set (eps := p2 (-52)) in *. set (dl := / IZR (2 ^ 40)) in *.
  set (K := IZR k) in *.
  assert (HA : 0 < A) by lra.
  assert (Heps1 : eps < 1).
  { subst eps. pose proof p2_neg_52 as H52.
    change (2 ^ 52)%Z with 4503599627370496%Z in H52. nra. }
  assert (HB : A * ((1 + dl) * (1 - eps)) < B) by lra.
  assert (H1 : A * K * (1 + eps) <= A * K * ((1 + dl) * (1 - eps) * (1 - eps))).
  { apply Rmult_le_compat_l; [nra|lra]. }
  assert (H2 : A * K * ((1 + dl) * (1 - eps) * (1 - eps))
               < B * K * (1 - eps)).
  { replace (A * K * ((1 + dl) * (1 - eps) * (1 - eps)))
      with (A * ((1 + dl) * (1 - eps)) * (K * (1 - eps))) by ring.
    replace (B * K * (1 - eps)) with (B * (K * (1 - eps))) by ring.
    apply Rmult_lt_compat_r; [nra|exact HB]. }
  lra.
Qed.

End Scaling.
(* ===================================================================== *)
(** ** binary64: difference, quotient and square root *)

Module SFOps.

Import SF SFRound SFExact SFTrunc SFReal SFPos.
Local Open Scope R_scope.

(** [binary_round] is exact to a relative [2^-52] in the normal range. *)
Lemma binary_round_rel p e :
  (-1074 <= Z.pos (digits2_pos p) + e - 53)%Z ->
  (Z.pos (digits2_pos p) + e - 53 + 1 <= 971)%Z ->
  exists m' e',
    binary_round prec emax false p e = S754_finite false m' e'
    /\ IZR (Z.pos p) * p2 e * (1 - p2 (-52))
       <= IZR (Z.pos m') * p2 e'
       <= IZR (Z.pos p) * p2 e * (1 + p2 (-52)).
Proof.
  intros Hlo Hhi. unfold binary_round.
  set (d := Z.pos (digits2_pos p)) in *.
  rewrite fexp_normal by lia. unfold shl_align.
  pose proof (p2_pos e) as HP. pose proof (p2_pos (-52)) as He.
  pose proof p2_neg_52 as H52.
  assert (He1 : p2 (-52) < 1).
  { change (2 ^ 52)%Z with 4503599627370496%Z in H52. nra. }
  destruct (d + e - 53 - e)%Z as [|q|q] eqn:Eq.
  - (* exactly 53 bits *)
    destruct (binary_round_aux_rel (Z.pos p) e loc_Exact
                (IZR (Z.pos p) * p2 e)) as (m' & e' & E & HV);
      cbn [Zdigits2]; fold d; try lia; [nra|].
    exists m', e'. split; assumption.
  - (* more than 53 bits *)
    destruct (binary_round_aux_rel (Z.pos p) e loc_Exact
                (IZR (Z.pos p) * p2 e)) as (m' & e' & E & HV);
      cbn [Zdigits2]; fold d; try lia; [nra|].
    exists m', e'. split; assumption.
  - (* fewer: the mantissa is padded with zeros, nothing is lost *)
    assert (Hq : Z.pos (Pos.iter xO p q) = (Z.pos p * 2 ^ Z.pos q)%Z)
      by apply iter_xO_pow2.
    assert (Hdig : Z.pos (digits2_pos (Pos.iter xO p q)) = 53%Z).
    { pose proof (Zdigits2_shifted p (Z.pos q) ltac:(lia)) as Hs.
      rewrite <- Hq in Hs. cbn [Zdigits2] in Hs. rewrite Hs. fold d. lia. }
    exists (Pos.iter xO p q), (d + e - 53)%Z. split.
    + rewrite <- (Z.mul_1_r (Z.pos (Pos.iter xO p q))) at 1.
      change 1%Z with (2 ^ 0)%Z at 1.
      replace (d + e - 53)%Z with (d + e - 53 - 0)%Z at 1 by lia.
      apply binary_round_aux_exact; lia.
    + rewrite Hq, mult_IZR, <- p2_IZR by lia.
      assert (Ex : IZR (Z.pos p) * p2 (Z.pos q) * p2 (d + e - 53)
                   = IZR (Z.pos p) * p2 e).
      { rewrite Rmult_assoc, <- p2_add.
        replace (Z.pos q + (d + e - 53))%Z with e by lia. reflexivity. }
      rewrite Ex.
      assert (0 < IZR (Z.pos p)) by (apply IZR_lt; lia).
      assert (0 < IZR (Z.pos p) * p2 e) by nra.
      nra.
Qed.

Lemma shl_align_value mx ex ex' :
  (ex' <= ex)%Z ->
  Z.pos (fst (shl_align mx ex ex')) = (Z.pos mx * 2 ^ (ex - ex'))%Z.
Proof.
  intros H. unfold shl_align.
  destruct (ex' - ex)%Z as [|q|q] eqn:Eq; try lia; cbn [fst].
  - replace (ex - ex')%Z with 0%Z by lia. lia.
  - rewrite iter_xO_pow2. f_equal. f_equal. lia.
Qed.

Lemma toR_one : toR (S754_finite false 4503599627370496 (-52)) = 1.
Proof.
  unfold toR. pose proof p2_neg_52 as H52.
  change (2 ^ 52)%Z with 4503599627370496%Z in H52. lra.
Qed.

(** [1.0 - x] for a float [x] from [0.0] up to, but not at, [1.0]. *)
Lemma sub_one_rel (x : float) :
  (0 <=? x)%float = true -> (x <? 1)%float = true ->
  exists m e,
    Prim2SF (1 - x)%float = S754_finite false m e
    /\ 0 <= toR (Prim2SF x) < 1
    /\ (1 - toR (Prim2SF x)) * (1 - p2 (-52))
       <= toR (Prim2SF (1 - x)%float)
       <= (1 - toR (Prim2SF x)) * (1 + p2 (-52))
    /\ (forall mx ex, Prim2SF x = S754_finite false mx ex ->
        p2 ex <= 1 - toR (Prim2SF x)).
Proof.
  intros H0 H1.
  pose proof (p2_pos (-52)) as He. pose proof p2_neg_52 as H52.
  assert (He1 : p2 (-52) < 1).
  { change (2 ^ 52)%Z with 4503599627370496%Z in H52. nra. }
  pose proof H0 as H0'. pose proof H1 as H1'.
  rewrite leb_spec in H0'. rewrite ltb_spec in H1'.
  change (Prim2SF 0) with (S754_zero false) in H0'.
  change (Prim2SF 1) with (S754_finite false 4503599627370496 (-52)) in H1'.
  rewrite sub_spec.
  change (Prim2SF 1) with (S754_finite false 4503599627370496 (-52)).
  destruct (Prim2SF x) as [s|s| |s ml el] eqn:E; try discriminate;
    try (destruct s; discriminate).
  - (* zero *)
    exists 4503599627370496%positive, (-52)%Z. cbn [SF64sub SFsub].
    split; [reflexivity|]. rewrite toR_one. cbn [toR]. split; [lra|].
    split; [nra|]. intros mx ex Hx. discriminate.
  - destruct s; [discriminate|].
    destruct (Prim2SF_canonical x _ _ _ E) as [C _].
    assert (Hlt : toR (S754_finite false ml el) < 1).
    { rewrite <- E.
      pose proof (proj1 (ltb_pos x 1 ml el 4503599627370496 (-52) E eq_refl) H1)
        as Hr.
      change (Prim2SF 1) with (S754_finite false 4503599627370496 (-52)) in Hr.
      rewrite toR_one in Hr. exact Hr. }
    unfold toR in *. rewrite Rmult_1_l in *.
    pose proof (p2_pos el) as HPl.
    assert (Hml : 0 < IZR (Z.pos ml)) by (apply IZR_lt; lia).
    (* the exponent of x is at most -53 *)
    assert (Hel : (el <= -53)%Z).
    { destruct (Z_lt_le_dec (-53) el) as [Hc|]; [exfalso|lia].
      apply canonical_cases in C.
      assert (Hd : Z.pos (digits2_pos ml) = 53%Z) by lia.
      pose proof (mantissa_ge ml Hd) as Hge.
      pose proof (p2_le (-52) el ltac:(lia)) as Hle.
      pose proof (p2_pos 52).
      assert (p2 52 * p2 (-52) <= IZR (Z.pos ml) * p2 el) by nra.
      rewrite <- p2_add in *. change (p2 (52 + -52)) with 1 in *. lra. }
    unfold SF64sub, SFsub. cbn [cond_Zopp].
    rewrite Z.min_r by lia.
    rewrite !shl_align_value by lia.
    replace (el - el)%Z with 0%Z by lia. rewrite Z.mul_1_r.
    change (Z.pos 4503599627370496) with (2 ^ 52)%Z.
    rewrite <- Z.pow_add_r by lia.
    replace (52 + (-52 - el))%Z with (- el)%Z by lia.
    (* the difference of the aligned mantissas is positive *)
    assert (HD : (0 < 2 ^ (- el) - Z.pos ml)%Z).
    { apply Z.lt_0_sub. apply lt_IZR. rewrite <- p2_IZR by lia.
      assert (p2 (- el) * p2 el = 1).
      { rewrite <- p2_add. replace (- el + el)%Z with 0%Z by lia.
        reflexivity. }
      pose proof (p2_pos (- el)). nra. }
    destruct (2 ^ (- el) - Z.pos ml)%Z as [|D|D] eqn:ED; try lia.
    cbn [binary_normalize].
    assert (HDv : IZR (Z.pos D) * p2 el = 1 - IZR (Z.pos ml) * p2 el).
    { rewrite <- ED, minus_IZR, <- p2_IZR by lia.
      rewrite Rmult_minus_distr_r, <- p2_add.
      replace (- el + el)%Z with 0%Z by lia. reflexivity. }
    pose proof (digits2_pos_bounds D) as [BDl BDu].
    set (d := Z.pos (digits2_pos D)) in *.
    assert (Hd1 : (1 <= d)%Z) by (subst d; lia).
    (* the difference is not subnormal and does not overflow *)
    assert (Hdlo : (-1074 <= d + el - 53)%Z).
    { destruct (Z_lt_le_dec el (-60)) as [Hs|]; [|lia].
      (* x is below 2^-7, the difference above one half *)
      apply canonical_cases in C.
      assert (Hm53 : IZR (Z.pos ml) < p2 53) by (apply mantissa_lt; lia).
      pose proof (p2_le (53 + el) (-7) ltac:(lia)) as Hle.
      rewrite p2_add in Hle.
      assert (H7 : p2 (-7) * 128 = 1).
      { change 128 with (IZR (2 ^ 7)).
        rewrite <- (p2_IZR 7), <- p2_add by lia. reflexivity. }
      pose proof (p2_pos (-7)). pose proof (p2_pos 53).
      assert (Hhalf : / 2 < IZR (Z.pos D) * p2 el) by nra.
      assert (HDd : IZR (Z.pos D) < p2 d).
      { rewrite p2_IZR by lia. apply IZR_lt. lia. }
      destruct (Z_lt_le_dec (d + el) 0) as [Hneg|]; [exfalso|lia].
      pose proof (p2_le (d + el) (-1) ltac:(lia)) as Hle1.
      rewrite p2_add in Hle1.
      assert (Hm1 : p2 (-1) * 2 = 1).
      { change 2 with (IZR (2 ^ 1)).
        rewrite <- (p2_IZR 1), <- p2_add by lia. reflexivity. }
      pose proof (p2_pos d). nra. }
    assert (Hdhi : (d + el - 53 + 1 <= 971)%Z).
    { assert (d <= - el)%Z; [|lia].
      destruct (Z_lt_le_dec (- el) d) as [Hc|]; [exfalso|lia].
      assert (2 ^ (- el) <= 2 ^ (d - 1))%Z
        by (apply Z.pow_le_mono_r; lia). lia. }
    destruct (binary_round_rel D el Hdlo Hdhi) as (m & e & Er & HV).
    exists m, e. rewrite Er. split; [reflexivity|].
    split; [nra|]. cbn [toR]. rewrite Rmult_1_l, <- HDv.
    split; [exact HV|]. intros mx ex Hx. injection Hx as <- <-.
    assert (1 <= IZR (Z.pos D)) by (apply IZR_le; lia). nra.
Qed.

End SFOps.
Module SFOps2.

Import SF SFRound SFExact SFTrunc SFReal SFPos SFOps.
Local Open Scope R_scope.

Lemma Zdigits2_53_or_54 q :
  (2 ^ 52 <= q < 2 ^ 54)%Z -> (0 <= Zdigits2 q - 53 <= 1)%Z.
Proof.
  intros H. destruct (Z_lt_le_dec q (2 ^ 53)).
  - rewrite (Zdigits2_unique q 53); lia.
  - rewrite (Zdigits2_unique q 54); lia.
Qed.

(** The quotient of two normal positive floats, away from underflow and
    overflow. *)
Lemma div_rel (x y : float) mx ex my ey :
  Prim2SF x = S754_finite false mx ex ->
  Prim2SF y = S754_finite false my ey ->
  Z.pos (digits2_pos mx) = 53%Z -> Z.pos (digits2_pos my) = 53%Z ->
  (-1074 <= ex - ey - 53)%Z -> (ex - ey - 53 + 2 <= 971)%Z ->
  exists m e,
    Prim2SF (x / y)%float = S754_finite false m e
    /\ toR (Prim2SF x) / toR (Prim2SF y) * (1 - p2 (-52))
       <= toR (Prim2SF (x / y)%float)
       <= toR (Prim2SF x) / toR (Prim2SF y) * (1 + p2 (-52)).
Proof.
  intros Ex Ey Dx Dy Hlo Hhi. rewrite div_spec, Ex, Ey.
  unfold SF64div, SFdiv. cbn [xorb].
  unfold SFdiv_core_binary. cbn [Zdigits2]. rewrite Dx, Dy.
  replace (53 + ex - (53 + ey))%Z with (ex - ey)%Z by lia.
  rewrite fexp_normal by lia.
  rewrite Z.min_l by lia.
  replace (ex - ey - (ex - ey - 53))%Z with 53%Z by lia.
  rewrite Z.shiftl_mul_pow2 by lia.
  pose proof (Z_div_mod (Z.pos mx * 2 ^ 53) (Z.pos my) ltac:(lia)) as Hdm.
  destruct (Z.div_eucl (Z.pos mx * 2 ^ 53) (Z.pos my)) as [q r].
  destruct Hdm as [Hq Hr].
  pose proof (digits2_pos_bounds mx) as [Lx Ux].
  pose proof (digits2_pos_bounds my) as [Ly Uy].
  rewrite Dx in Lx, Ux. rewrite Dy in Ly, Uy.
  change (53 - 1)%Z with 52%Z in Lx, Ly.
  assert (Hqr : (2 ^ 52 <= q < 2 ^ 54)%Z).
  { change (2 ^ 52)%Z with 4503599627370496%Z in *.
    change (2 ^ 53)%Z with 9007199254740992%Z in *.
    change (2 ^ 54)%Z with 18014398509481984%Z. nia. }
  pose proof (Zdigits2_53_or_54 q Hqr) as Hdq.
  pose proof (p2_pos ex) as Px. pose proof (p2_pos ey) as Py.
  pose proof (p2_pos (ex - ey - 53)) as Pe.
  assert (Hmx : 0 < IZR (Z.pos mx)) by (apply IZR_lt; lia).
  assert (Hmy : 0 < IZR (Z.pos my)) by (apply IZR_lt; lia).
  (* the exact quotient, at the exponent of the integer quotient *)
  assert (Hquot : IZR (Z.pos mx) * p2 ex / (IZR (Z.pos my) * p2 ey)
                  = IZR (Z.pos mx * 2 ^ 53) / IZR (Z.pos my)
                    * p2 (ex - ey - 53)).
  { rewrite mult_IZR, <- (p2_IZR 53) by lia.
    replace ex with (ex - ey - 53 + 53 + ey)%Z at 1 by lia.
    rewrite !p2_add. field. split; lra. }
  destruct (binary_round_aux_rel q (ex - ey - 53)
              (new_location (Z.pos my) r)
              (IZR (Z.pos mx) * p2 ex / (IZR (Z.pos my) * p2 ey)))
    as (m & e & E & HV); try lia.
  { rewrite Hquot, Hq, plus_IZR, mult_IZR.
    assert (Hr' : 0 <= IZR r < IZR (Z.pos my))
      by (split; [apply IZR_le|apply IZR_lt]; lia).
    set (Y := IZR (Z.pos my)) in *. set (Q := IZR q) in *.
    set (P := p2 (ex - ey - 53)) in *.
    assert (EQ : (Y * Q + IZR r) / Y = Q + IZR r / Y) by (field; lra).
    rewrite EQ.
    assert (0 <= IZR r / Y < 1).
    { split.
      - apply Rmult_le_pos; [lra|]. apply Rlt_le, Rinv_0_lt_compat. lra.
      - apply Rmult_lt_reg_r with Y; [lra|].
        unfold Rdiv. rewrite Rmult_assoc, Rinv_l by lra. lra. }
    nra. }
  exists m, e. split; [exact E|]. rewrite E. unfold toR.
  rewrite !Rmult_1_l. exact HV.
Qed.

(** The square root of a normal positive float. *)
Lemma sqrt_rel (x : float) mx ex :
  Prim2SF x = S754_finite false mx ex ->
  Z.pos (digits2_pos mx) = 53%Z ->
  (-1000 <= ex <= 900)%Z ->
  exists m e,
    Prim2SF (PrimFloat.sqrt x) = S754_finite false m e
    /\ R_sqrt.sqrt (toR (Prim2SF x)) * (1 - p2 (-52))
       <= toR (Prim2SF (PrimFloat.sqrt x))
       <= R_sqrt.sqrt (toR (Prim2SF x)) * (1 + p2 (-52)).
Proof.
  intros Ex Dx Hex. rewrite sqrt_spec, Ex.
  unfold SF64sqrt, SFsqrt, SFsqrt_core_binary. cbn [Zdigits2]. rewrite Dx.
  rewrite !Z.div2_div.
  replace ((53 + ex + 1) / 2)%Z with (ex / 2 + 27)%Z
    by (replace (53 + ex + 1)%Z with (ex + 27 * 2)%Z by lia;
        rewrite Z.div_add by lia; reflexivity).
  pose proof (Z.div_mod ex 2 ltac:(lia)) as Hdiv.
  pose proof (Z.mod_pos_bound ex 2 ltac:(lia)) as Hmod.
  set (h := (ex / 2)%Z) in *.
  rewrite fexp_normal by lia.
  rewrite Z.min_l by lia.
  replace (h + 27 - 53)%Z with (h - 26)%Z by lia.
  set (s := (ex - 2 * (h - 26))%Z).
  assert (Hs : (s = 52 \/ s = 53)%Z) by (subst s; lia).
  assert (Hm' : (match s with
                 | Z.pos _ => Z.shiftl (Z.pos mx) s
                 | 0%Z => Z.pos mx
                 | Z.neg _ => 0%Z
                 end = Z.pos mx * 2 ^ s)%Z).
  { destruct Hs as [-> | ->]; rewrite Z.shiftl_mul_pow2 by lia; reflexivity. }
  rewrite Hm'.
  pose proof (digits2_pos_bounds mx) as [Lx Ux].
  rewrite Dx in Lx, Ux. change (53 - 1)%Z with 52%Z in Lx.
  assert (HM : (2 ^ 104 <= Z.pos mx * 2 ^ s < 2 ^ 106)%Z).
  { change (2 ^ 104)%Z with (2 ^ 52 * 2 ^ 52)%Z.
    change (2 ^ 106)%Z with (2 ^ 53 * 2 ^ 53)%Z.
    destruct Hs as [-> | ->]; lia. }
  pose proof (Z.sqrtrem_spec (Z.pos mx * 2 ^ s) ltac:(lia)) as Hsq.
  destruct (Z.sqrtrem (Z.pos mx * 2 ^ s)) as [q r].
  destruct Hsq as [Hq Hr].
  assert (Hqr : (2 ^ 52 <= q < 2 ^ 53)%Z).
  { change (2 ^ 104)%Z with (2 ^ 52 * 2 ^ 52)%Z in HM.
    change (2 ^ 106)%Z with (2 ^ 53 * 2 ^ 53)%Z in HM.
    change (2 ^ 52)%Z with 4503599627370496%Z in *.
    change (2 ^ 53)%Z with 9007199254740992%Z in *. nia. }
  assert (Hdq : Zdigits2 q = 53%Z) by (apply Zdigits2_unique; lia).
  pose proof (p2_pos ex) as Px. pose proof (p2_pos (h - 26)) as Pe.
  assert (Hmx : 0 < IZR (Z.pos mx)) by (apply IZR_lt; lia).
  (* the exact root, at the exponent of the integer root *)
  assert (Hroot : R_sqrt.sqrt (IZR (Z.pos mx) * p2 ex)
                  = R_sqrt.sqrt (IZR (Z.pos mx * 2 ^ s)) * p2 (h - 26)).
  { assert (Hval : IZR (Z.pos mx) * p2 ex
                   = IZR (Z.pos mx * 2 ^ s) * (p2 (h - 26) * p2 (h - 26))).
    { rewrite mult_IZR, <- p2_IZR by lia.
      rewrite Rmult_assoc, <- !p2_add.
      replace (s + (h - 26 + (h - 26)))%Z with ex by (subst s; lia).
      reflexivity. }
    rewrite Hval, sqrt_mult, sqrt_square; try lra; [apply IZR_le; lia|nra]. }
  assert (Hrt : IZR q <= R_sqrt.sqrt (IZR (Z.pos mx * 2 ^ s)) < IZR q + 1).
  { rewrite Hq, plus_IZR, mult_IZR.
    assert (Hq0 : 0 <= IZR q) by (apply IZR_le; lia).
    assert (Hr0 : 0 <= IZR r <= 2 * IZR q).
    { split; [apply IZR_le; lia|].
      change 2 with (IZR 2). rewrite <- mult_IZR. apply IZR_le. lia. }
    split.
    - rewrite <- (sqrt_square (IZR q)) at 1 by lra.
      apply sqrt_le_1_alt. lra.
    - rewrite <- (sqrt_square (IZR q + 1)) at 1 by lra.
      apply sqrt_lt_1_alt. nra. }
  destruct (binary_round_aux_rel q (h - 26)
              (if (r =? 0)%Z then loc_Exact
               else loc_Inexact (if (r <=? q)%Z then Lt else Gt))
              (R_sqrt.sqrt (IZR (Z.pos mx) * p2 ex)))
    as (m & e & E & HV); try lia.
  { rewrite Hroot. nra. }
  exists m, e. split; [exact E|]. rewrite E. unfold toR.
  rewrite !Rmult_1_l. exact HV.
Qed.

End SFOps2.
(* ===================================================================== *)
(** ** The two coefficients of the radius *)

Module Coefficients.

Import SF SFRound SFExact SFTrunc SFReal SFPos SFOps SFOps2 Scaling.
Local Open Scope R_scope.

Lemma p2_neg n : (0 <= n)%Z -> p2 (- n) = / IZR (2 ^ n).
Proof.
  intros H.
  assert (Hn : IZR (2 ^ n) <> 0).
  { apply not_0_IZR. assert (0 < 2 ^ n)%Z by (apply Z.pow_pos_nonneg; lia). lia. }
  apply Rmult_eq_reg_r with (IZR (2 ^ n)); [|exact Hn].
  rewrite <- p2_IZR at 1 by assumption. rewrite <- p2_add.
  replace (- n + n)%Z with 0%Z by lia. rewrite Rinv_l by exact Hn.
  reflexivity.
Qed.

Lemma eps_value : p2 (-52) = / 4503599627370496.
Proof. exact (p2_neg 52 ltac:(lia)). Qed.

Lemma toR_Pi :
  toR (Prim2SF Float64.Pi) = 7074237752028440 / 2251799813685248.
Proof.
  change (Prim2SF Float64.Pi) with (S754_finite false 7074237752028440 (-51)).
  unfold toR.
  replace (p2 (-51)) with (/ 2251799813685248)
    by (symmetry; exact (p2_neg 51 ltac:(lia))).
  lra.
Qed.

Lemma toR_weight :
  toR (Prim2SF 1.7) = 7656119366529843 / 4503599627370496.
Proof.
  change (Prim2SF 1.7) with (S754_finite false 7656119366529843 (-52)).
  unfold toR. rewrite eps_value. lra.
Qed.

Lemma div_ge a b d : 0 < d -> a * d <= b -> a <= b / d.
Proof.
  intros Hd H. apply Rmult_le_reg_r with d; [assumption|].
  unfold Rdiv. rewrite Rmult_assoc, Rinv_l by lra. lra.
Qed.

Lemma div_le b c d : 0 < d -> b <= c * d -> b / d <= c.
Proof.
  intros Hd H. apply Rmult_le_reg_r with d; [assumption|].
  unfold Rdiv. rewrite Rmult_assoc, Rinv_l by lra. lra.
Qed.

Lemma sqrt_scale_lt t g q :
  0 <= t -> 0 < g -> t * t < q * (g * g) -> t < R_sqrt.sqrt q * g.
Proof.
  intros Ht Hg H.
  assert (Hq : 0 <= q).
  { destruct (Rle_lt_dec 0 q) as [|Hn]; [assumption|exfalso].
    assert (0 < g * g) by nra. nra. }
  rewrite <- (sqrt_square g) at 1 by lra.
  rewrite <- sqrt_mult by nra.
  rewrite <- (sqrt_square t) at 1 by assumption.
  apply sqrt_lt_1_alt. nra.
Qed.

Lemma sqrt_scale_gt l g q :
  0 <= q -> 0 < g -> 0 < l -> q * (g * g) < l * l -> R_sqrt.sqrt q * g < l.
Proof.
  intros Hq Hg Hl H.
  rewrite <- (sqrt_square g) at 1 by lra.
  rewrite <- sqrt_mult by nra.
  rewrite <- (sqrt_square l) at 1 by lra.
  apply sqrt_lt_1_alt. nra.
Qed.

Lemma ltb_leb (x y : float) : (x <? y)%float = true -> (x <=? y)%float = true.
Proof.
  rewrite ltb_spec, leb_spec. unfold SFltb, SFleb.
  destruct (SFcompare (Prim2SF x) (Prim2SF y)) as [[]|]; congruence.
Qed.

(** What float64 makes of [1 - luma] and of [sqrt((1 - luma) / Pi) * 1.7],
    for a luma from [0.0] up to, but not at, [1.0]: both are positive
    normal floats, each within a few roundings of its exact value. *)
Lemma coefficient_chain (luma : float) lo :
  (0 <=? luma)%float = true -> (luma <? 1)%float = true ->
  (-60 <= lo <= 0)%Z -> p2 lo <= 1 - toR (Prim2SF luma) ->
  let cL := (1 - luma)%float in
  let cA := (PrimFloat.sqrt (cL / Float64.Pi) * 1.7)%float in
  let eps := p2 (-52) in
  let l := toR (Prim2SF luma) in
  let L := toR (Prim2SF cL) in
  let A := toR (Prim2SF cA) in
  exists mL eL mA eA Q,
    Prim2SF cL = S754_finite false mL eL
    /\ Prim2SF cA = S754_finite false mA eA
    /\ 0 <= l < 1
    /\ (1 - l) * (1 - eps) <= L <= (1 - l) * (1 + eps)
    /\ L / toR (Prim2SF Float64.Pi) * (1 - eps) <= Q
       <= L / toR (Prim2SF Float64.Pi) * (1 + eps)
    /\ R_sqrt.sqrt Q * toR (Prim2SF 1.7) * ((1 - eps) * (1 - eps)) <= A
       <= R_sqrt.sqrt Q * toR (Prim2SF 1.7) * ((1 + eps) * (1 + eps))
    /\ p2 (-64) <= L <= 2 /\ p2 (-64) <= A <= 2.
Proof.
  intros H0 H1 Hlo Hgap cL cA eps l L A.
  destruct (sub_one_rel luma H0 H1) as (mL & eL & EL & Hl & HL & _).
  fold cL l L eps in EL, Hl, HL. fold l in Hgap.
  pose proof eps_value as Heps. fold eps in Heps.
  assert (Heps' : 0 < eps < / 4) by (rewrite Heps; lra).
  pose proof (p2_pos lo) as Plo.
  (* 1 - luma *)
  assert (RL : p2 (lo - 1) <= L <= p2 1).
  { rewrite (p2_IZR 1) by lia. change (IZR (2 ^ 1)) with 2.
    replace lo with (lo - 1 + 1)%Z in Hgap, Plo by lia.
    rewrite p2_add, (p2_IZR 1) in Hgap, Plo by lia.
    change (IZR (2 ^ 1)) with 2 in Hgap, Plo.
    pose proof (p2_pos (lo - 1)). split; nra. }
  destruct (exponent_range cL mL eL (lo - 1) 1 EL ltac:(lia) RL) as [DL XL].
  (* divided by Pi *)
  destruct (div_rel cL Float64.Pi mL eL 7074237752028440 (-51)
              EL eq_refl DL eq_refl ltac:(lia) ltac:(lia))
    as (mQ & eQ & EQ & HQ).
  fold L eps in HQ.
  pose proof toR_Pi as HPi.
  set (pi' := toR (Prim2SF Float64.Pi)) in *.
  assert (Hpi : 3 < pi' < 4) by (rewrite HPi; lra).
  set (Q := toR (Prim2SF (cL / Float64.Pi)%float)) in *.
  assert (HL0 : p2 (lo - 1) <= L <= 1 + eps).
  { split; [apply RL|]. nra. }
  pose proof (p2_pos (lo - 1)) as Plo1.
  assert (Hdiv : p2 (lo - 1) / 4 <= L / pi' <= (1 + eps) / 3).
  { split; [apply div_ge|apply div_le]; nra. }
  assert (RQ : p2 (lo - 4) <= Q <= p2 0).
  { change (p2 0) with 1.
    replace (lo - 1)%Z with (lo - 4 + 3)%Z in Hdiv, Plo1 by lia.
    rewrite p2_add, (p2_IZR 3) in Hdiv, Plo1 by lia.
    change (IZR (2 ^ 3)) with 8 in Hdiv, Plo1.
    pose proof (p2_pos (lo - 4)). split; nra. }
  destruct (exponent_range _ mQ eQ (lo - 4) 0 EQ ltac:(lia) RQ) as [DQ XQ].
  fold Q in RQ.
  (* the square root *)
  destruct (sqrt_rel _ mQ eQ EQ DQ ltac:(lia)) as (mS & eS & ES & HS).
  fold Q eps in HS.
  set (S := toR (Prim2SF (PrimFloat.sqrt (cL / Float64.Pi)))) in *.
  assert (Hroot : p2 (-32) <= R_sqrt.sqrt Q <= 1).
  { split.
    - rewrite <- (sqrt_square (p2 (-32))) by (apply Rlt_le, p2_pos).
      apply sqrt_le_1_alt. rewrite <- p2_add.
      change (-32 + -32)%Z with (-64)%Z.
      pose proof (p2_le (-64) (lo - 4) ltac:(lia)). lra.
    - rewrite <- sqrt_1. apply sqrt_le_1_alt.
      change (p2 0) with 1 in RQ. lra. }
  pose proof (p2_pos (-33)) as P33.
  assert (E33 : p2 (-32) = p2 (-33) * 2).
  { change (-32)%Z with (-33 + 1)%Z. rewrite p2_add, (p2_IZR 1) by lia.
    reflexivity. }
  assert (RS : p2 (-33) <= S <= p2 1).
  { rewrite (p2_IZR 1) by lia. change (IZR (2 ^ 1)) with 2. split; nra. }
  destruct (exponent_range _ mS eS (-33) 1 ES ltac:(lia) RS) as [DS XS].
  (* times 1.7 *)
  destruct (mul_rel _ 1.7 mS eS 7656119366529843 (-52) ES eq_refl DS eq_refl
              ltac:(lia) ltac:(lia)) as (mA & eA & EA & HA).
  fold S cA A eps in HA, EA.
  pose proof toR_weight as Hw.
  set (w := toR (Prim2SF 1.7)) in *.
  assert (Hw' : 1 < w < 2) by (rewrite Hw; lra).
  exists mL, eL, mA, eA, Q.
  split; [exact EL|]. split; [exact EA|]. split; [exact Hl|].
  split; [exact HL|]. split; [exact HQ|].
  assert (Hs0 : 0 <= R_sqrt.sqrt Q) by apply sqrt_pos.
  assert (HA' : R_sqrt.sqrt Q * w * ((1 - eps) * (1 - eps)) <= A
                <= R_sqrt.sqrt Q * w * ((1 + eps) * (1 + eps))).
  { split.
    - apply Rle_trans with (S * w * (1 - eps)); [|apply HA].
      replace (R_sqrt.sqrt Q * w * ((1 - eps) * (1 - eps)))
        with (R_sqrt.sqrt Q * (1 - eps) * (w * (1 - eps))) by ring.
      replace (S * w * (1 - eps)) with (S * (w * (1 - eps))) by ring.
      apply Rmult_le_compat_r; [nra|apply HS].
    - apply Rle_trans with (S * w * (1 + eps)); [apply HA|].
      replace (R_sqrt.sqrt Q * w * ((1 + eps) * (1 + eps)))
        with (R_sqrt.sqrt Q * (1 + eps) * (w * (1 + eps))) by ring.
      replace (S * w * (1 + eps)) with (S * (w * (1 + eps))) by ring.
      apply Rmult_le_compat_r; [nra|apply HS]. }
  split; [exact HA'|].
  pose proof (p2_le (-64) (lo - 1) ltac:(lia)) as H64.
  split; [split; [lra|nra]|].
  pose proof (p2_le (-64) (-33) ltac:(lia)) as P64.
  split.
  - apply Rle_trans with (p2 (-32) * (1 * (/ 2))); [lra|].
    apply Rle_trans with (R_sqrt.sqrt Q * w * ((1 - eps) * (1 - eps)));
      [|apply HA'].
    rewrite Rmult_assoc.
    apply Rmult_le_compat; [lra|lra|apply Hroot|].
    apply Rmult_le_compat; [lra|lra|lra|]. nra.
  - apply Rle_trans with (R_sqrt.sqrt Q * w * ((1 + eps) * (1 + eps)));
      [apply HA'|].
    assert (Hsw : R_sqrt.sqrt Q * w <= 1 * w)
      by (apply Rmult_le_compat_r; [lra|apply Hroot]).
    assert (Hsw0 : 0 <= R_sqrt.sqrt Q * w)
      by (apply Rmult_le_pos; lra).
    assert (Hee : (1 + eps) * (1 + eps) <= 1 + 3 * eps).
    { replace ((1 + eps) * (1 + eps)) with (1 + 2 * eps + eps * eps) by ring.
      assert (eps * eps <= eps * 1)
        by (apply Rmult_le_compat_l; lra). lra. }
    apply Rle_trans with (1 * w * (1 + 3 * eps)).
    + apply Rmult_le_compat; [lra|apply Rmult_le_pos; lra|lra|lra].
    + rewrite Hw, Heps. lra.
Qed.

End Coefficients.
(* ===================================================================== *)
(** ** Area against linear *)

Module Policies.

Import SF SFRound SFExact SFTrunc SFReal SFPos SFOps SFOps2 Scaling Coefficients.
Local Open Scope R_scope.

Section Gap.

Variables l L Q A : R.
Hypothesis HL : (1 - l) * (1 - eps) <= L <= (1 - l) * (1 + eps).
Hypothesis HL0 : 0 < L.
Hypothesis HQ : L / piR * (1 - eps) <= Q <= L / piR * (1 + eps).
Hypothesis HA :
  R_sqrt.sqrt Q * weightR * ((1 - eps) * (1 - eps)) <= A
  <= R_sqrt.sqrt Q * weightR * ((1 + eps) * (1 + eps)).

Lemma quotient_times_pi :
  L * (1 - eps) <= Q * piR <= L * (1 + eps).
Proof.
  assert (Hpi : 0 < piR) by (unfold piR; lra).
  assert (E : forall c, L / piR * c * piR = L * c)
    by (intros c; field; lra).
  destruct HQ as [H1 H2]. split.
  - rewrite <- E. apply Rmult_le_compat_r; lra.
  - rewrite <- E. apply Rmult_le_compat_r; lra.
Qed.

(** From luma [0.0801] on, the area coefficient is above the linear one by
    more than the margin. *)
Lemma light_gap :
  lightFrom <= l < 1 ->
  L * (1 + margin) * (1 + eps) < A.
Proof.
  intros Hl. destruct quotient_times_pi as [HQ1 _].
  assert (Hpi : 0 < piR) by (unfold piR; lra).
  assert (He : 0 < eps < / 1000) by (unfold eps; lra).
  assert (Hd : 0 < margin < / 1000) by (unfold margin; lra).
  assert (Hw : 0 < weightR) by (unfold weightR; lra).
  set (t := L * (1 + margin) * (1 + eps)).
  set (g := weightR * ((1 - eps) * (1 - eps))).
  set (k1 := (1 + margin) * (1 + margin) * ((1 + eps) * (1 + eps)) * piR).
  set (k2 := (1 - eps) * (weightR * ((1 - eps) * (1 - eps)))
             * (weightR * ((1 - eps) * (1 - eps)))).
  assert (Hk1 : 0 < k1).
  { unfold k1. repeat apply Rmult_lt_0_compat; lra. }
  assert (Hnum : (1 - lightFrom) * (1 + eps) * k1
                 < k2).
  { unfold k1, k2, eps, margin, piR, weightR, lightFrom. lra. }
  assert (HLmax : L <= (1 - lightFrom) * (1 + eps)).
  { apply Rle_trans with ((1 - l) * (1 + eps)); [apply HL|].
    apply Rmult_le_compat_r; unfold lightFrom, darkUpTo in *; lra. }
  assert (HLk : L * k1 < k2).
  { apply Rle_lt_trans with
      ((1 - lightFrom) * (1 + eps) * k1);
      [|exact Hnum].
    apply Rmult_le_compat_r; unfold lightFrom, darkUpTo in *; lra. }
  assert (Hg : 0 < g).
  { unfold g. repeat apply Rmult_lt_0_compat; lra. }
  assert (Ht : 0 <= t).
  { unfold t. repeat apply Rmult_le_pos; lra. }
  assert (Htt : t * t < Q * (g * g)).
  { apply Rmult_lt_reg_r with piR; [exact Hpi|].
    apply Rlt_le_trans with (L * (1 - eps) * (g * g)).
    - replace (t * t * piR) with (L * (L * k1)) by (unfold t, k1; ring).
      replace (L * (1 - eps) * (g * g)) with (L * k2) by (unfold g, k2; ring).
      apply Rmult_lt_compat_l; assumption.
    - replace (Q * (g * g) * piR) with (Q * piR * (g * g)) by ring.
      apply Rmult_le_compat_r; [|exact HQ1].
      apply Rlt_le, Rmult_lt_0_compat; exact Hg. }
  apply Rlt_le_trans with (R_sqrt.sqrt Q * g).
  - apply sqrt_scale_lt; assumption.
  - unfold g. rewrite <- Rmult_assoc. apply HA.
Qed.

(** Up to luma [0.08] it is the linear coefficient that is above. *)
Lemma dark_gap :
  0 <= l <= darkUpTo ->
  A * (1 + margin) * (1 + eps) < L.
Proof.
  intros Hl. destruct quotient_times_pi as [HQ1 HQ2].
  assert (Hpi : 0 < piR) by (unfold piR; lra).
  assert (He : 0 < eps < / 1000) by (unfold eps; lra).
  assert (Hd : 0 < margin < / 1000) by (unfold margin; lra).
  assert (Hw : 0 < weightR) by (unfold weightR; lra).
  set (g := weightR * ((1 + eps) * (1 + eps)) * ((1 + margin) * (1 + eps))).
  assert (Hg : 0 < g).
  { unfold g. repeat apply Rmult_lt_0_compat; lra. }
  assert (Hnum : (1 + eps) * (g * g)
                 < (1 - darkUpTo) * (1 - eps) * piR).
  { unfold g, eps, margin, piR, weightR, darkUpTo. lra. }
  assert (HLmin : (1 - darkUpTo) * (1 - eps) <= L).
  { apply Rle_trans with ((1 - l) * (1 - eps)); [|apply HL].
    apply Rmult_le_compat_r; unfold lightFrom, darkUpTo in *; lra. }
  assert (HQ0 : 0 <= Q).
  { apply Rmult_le_reg_r with piR; [exact Hpi|].
    rewrite Rmult_0_l. apply Rle_trans with (L * (1 - eps)); [|exact HQ1].
    apply Rmult_le_pos; lra. }
  assert (Hqq : Q * (g * g) < L * L).
  { apply Rmult_lt_reg_r with piR; [exact Hpi|].
    apply Rle_lt_trans with (L * (1 + eps) * (g * g)).
    - replace (Q * (g * g) * piR) with (Q * piR * (g * g)) by ring.
      apply Rmult_le_compat_r; [|exact HQ2].
      apply Rlt_le, Rmult_lt_0_compat; exact Hg.
    - replace (L * (1 + eps) * (g * g)) with (L * ((1 + eps) * (g * g))) by ring.
      replace (L * L * piR) with (L * (L * piR)) by ring.
      apply Rmult_lt_compat_l; [exact HL0|].
      apply Rlt_le_trans with
        ((1 - darkUpTo) * (1 - eps) * piR);
        [exact Hnum|].
      apply Rmult_le_compat_r; unfold lightFrom, darkUpTo in *; lra. }
  apply Rle_lt_trans with (R_sqrt.sqrt Q * g).
  - replace (R_sqrt.sqrt Q * g)
      with (R_sqrt.sqrt Q * weightR * ((1 + eps) * (1 + eps)) * (1 + margin) * (1 + eps))
      by (unfold g; ring).
    repeat (apply Rmult_le_compat_r; [lra|]). apply HA.
  - apply sqrt_scale_gt; assumption.
Qed.

End Gap.

End Policies.
Module Radii.

Import SF SFRound SFExact SFTrunc SFReal SFPos SFOps SFOps2 Scaling
       Coefficients Policies.
Local Open Scope R_scope.

Lemma toR_light : toR (Prim2SF 0.0801) = lightFrom.
Proof.
  change (Prim2SF 0.0801) with (S754_finite false 5771813282438028 (-56)).
  unfold toR, lightFrom.
  replace (p2 (-56)) with (/ 72057594037927936)
    by (symmetry; exact (p2_neg 56 ltac:(lia))).
  lra.
Qed.

Lemma toR_dark : toR (Prim2SF 0.08) = darkUpTo.
Proof.
  change (Prim2SF 0.08) with (S754_finite false 5764607523034235 (-56)).
  unfold toR, darkUpTo.
  replace (p2 (-56)) with (/ 72057594037927936)
    by (symmetry; exact (p2_neg 56 ltac:(lia))).
  lra.
Qed.

Lemma toR_margin : toR (Prim2SF 0x1.0000000001p+0) = 1 + margin.
Proof.
  change (Prim2SF 0x1.0000000001p+0)
    with (S754_finite false 4503599627374592 (-52)).
  unfold toR, margin. rewrite eps_value. lra.
Qed.

Lemma toR_two : toR (Prim2SF 2) = 2.
Proof.
  change (Prim2SF 2) with (S754_finite false 4503599627370496 (-51)).
  unfold toR.
  replace (p2 (-51)) with (/ 2251799813685248)
    by (symmetry; exact (p2_neg 51 ltac:(lia))).
  lra.
Qed.

Lemma toR_tiny : toR (Prim2SF 0x1p-64) = p2 (-64).
Proof.
  change (Prim2SF 0x1p-64) with (S754_finite false 4503599627370496 (-116)).
  unfold toR. change 4503599627370496%Z with (2 ^ 52)%Z.
  rewrite <- (p2_IZR 52), Rmult_1_l, <- p2_add by lia. reflexivity.
Qed.

(** The float64 tests that [scaled_order] asks of two coefficients, from
    what is known of the reals they stand for. *)
Lemma coefficients_ordered (a b : float) ma ea mb eb k :
  (0 < k < 2 ^ 53)%Z ->
  Prim2SF a = S754_finite false ma ea ->
  Prim2SF b = S754_finite false mb eb ->
  p2 (-64) <= toR (Prim2SF a) <= 2 ->
  p2 (-64) <= toR (Prim2SF b) <= 2 ->
  toR (Prim2SF a) * (1 + margin) * (1 + eps) < toR (Prim2SF b) ->
  (a * Float64.of_int k <? b * Float64.of_int k)%float = true.
Proof.
  intros Hk Ea Eb Ra Rb Hgap.
  assert (La : (0x1p-64 <=? a)%float = true).
  { apply (proj2 (leb_pos 0x1p-64 a 4503599627370496 (-116) _ _ eq_refl Ea)). rewrite toR_tiny. apply Ra. }
  assert (Ua : (a <=? 2)%float = true).
  { apply (proj2 (leb_pos a 2 _ _ 4503599627370496 (-51) Ea eq_refl)). rewrite toR_two. apply Ra. }
  assert (Lb : (0x1p-64 <=? b)%float = true).
  { apply (proj2 (leb_pos 0x1p-64 b 4503599627370496 (-116) _ _ eq_refl Eb)). rewrite toR_tiny. apply Rb. }
  assert (Ub : (b <=? 2)%float = true).
  { apply (proj2 (leb_pos b 2 _ _ 4503599627370496 (-51) Eb eq_refl)). rewrite toR_two. apply Rb. }
  apply scaled_order; try assumption.
  assert (Ra' : p2 (-64) <= toR (Prim2SF a) <= p2 1).
  { rewrite (p2_IZR 1) by lia. exact Ra. }
  destruct (exponent_range a ma ea (-64) 1 Ea ltac:(lia) Ra') as [Da Xa].
  destruct (mul_rel a 0x1.0000000001p+0 ma ea 4503599627374592 (-52)
              Ea eq_refl Da eq_refl ltac:(lia) ltac:(lia))
    as (m1 & e1 & E1 & R1).
  apply (proj2 (ltb_pos _ b _ _ _ _ E1 Eb)).
  rewrite toR_margin, eps_value in R1. fold eps in R1. lra.
Qed.

End Radii.
Module Lumas.

Import SF SFRound SFExact SFTrunc SFReal SFPos SFOps SFOps2 Scaling
       Coefficients Policies Radii.
Local Open Scope R_scope.

Lemma light_luma (luma : float) :
  (0.0801 <=? luma)%float = true -> (luma <? 1)%float = true ->
  (0 <=? luma)%float = true
  /\ lightFrom <= toR (Prim2SF luma) < 1
  /\ p2 (-56) <= 1 - toR (Prim2SF luma).
Proof.
  intros Hl Hu.
  destruct (between_pos 0.0801 luma 1 5771813282438028 (-56)
              4503599627370496 (-52) eq_refl eq_refl Hl (ltb_leb _ _ Hu))
    as (m & e & E & Hr).
  rewrite toR_light in Hr.
  change (Prim2SF 1) with (S754_finite false 4503599627370496 (-52)) in Hr.
  rewrite toR_one in Hr.
  assert (H0 : (0 <=? luma)%float = true) by (rewrite leb_spec, E; reflexivity).
  destruct (sub_one_rel luma H0 Hu) as (_ & _ & _ & Hlt & _ & Hgap).
  specialize (Hgap m e E).
  assert (Hr' : p2 (-4) <= toR (Prim2SF luma) <= p2 0).
  { change (p2 0) with 1.
    replace (p2 (-4)) with (/ 16) by (symmetry; exact (p2_neg 4 ltac:(lia))).
    unfold lightFrom in Hr. lra. }
  destruct (exponent_range luma m e (-4) 0 E ltac:(lia) Hr') as [_ Xe].
  pose proof (p2_le (-56) e ltac:(lia)).
  split; [exact H0|]. split; [lra|lra].
Qed.

Lemma dark_luma (luma : float) :
  (0 <=? luma)%float = true -> (luma <=? 0.08)%float = true ->
  (luma <? 1)%float = true
  /\ 0 <= toR (Prim2SF luma) <= darkUpTo.
Proof.
  intros Hl Hu. pose proof Hl as Hl'. pose proof Hu as Hu'.
  rewrite leb_spec in Hl', Hu'.
  change (Prim2SF 0) with (S754_zero false) in Hl'.
  change (Prim2SF 0.08) with (S754_finite false 5764607523034235 (-56)) in Hu'.
  destruct (Prim2SF luma) as [s|s| |s m e] eqn:E; try discriminate;
    try (destruct s; discriminate).
  - split; [rewrite ltb_spec, E; reflexivity|].
    cbn [toR]. unfold darkUpTo. lra.
  - destruct s; [discriminate|].
    pose proof (proj1 (leb_pos luma 0.08 m e 5764607523034235 (-56) E eq_refl)
                  Hu) as Hr.
    rewrite toR_dark, E in Hr.
    assert (H0 : 0 < toR (S754_finite false m e)).
    { unfold toR. rewrite Rmult_1_l. apply Rmult_lt_0_compat;
        [apply IZR_lt; lia|apply p2_pos]. }
    split; [|lra].
    apply (proj2 (ltb_pos luma 1 m e 4503599627370496 (-52) E eq_refl)).
    rewrite E.
    change (Prim2SF 1) with (S754_finite false 4503599627370496 (-52)).
    rewrite toR_one. unfold darkUpTo in Hr. lra.
Qed.

End Lumas.

(** The integer product [boxHalf * scale] as [makeDots] computes it. *)
Lemma box_scale_product boxHalf scale :
  0 < boxHalf -> 0 < scale -> boxHalf * scale < 2 ^ 53 ->
  GoInt.mul boxHalf scale = boxHalf * scale /\ 0 < boxHalf * scale < 2 ^ 53.
Proof.
  intros Hb Hs Hk. split; [|nia].
  unfold GoInt.mul. apply wrap64_id. unfold isInt, GoInt.two63. nia.
Qed.

(** C3, as the code has it.  For [boxHalf > 0], [scale > 0] and a product
    [boxHalf * scale] that float64 holds exactly: the area policy gives the
    strictly larger radius for every luma from [0.0801] up to, but not at,
    [1.0]; it gives the strictly smaller radius for every luma from [0.0]
    to [0.08]; at luma [1.0] both radii are zero. *)
Theorem area_against_linear (luma : float) boxHalf scale :
  0 < boxHalf -> 0 < scale -> boxHalf * scale < 2 ^ 53 ->
  let linear := dotRadius false luma boxHalf scale in
  let area := dotRadius true luma boxHalf scale in
  ((0.0801 <=? luma)%float = true -> (luma <? 1)%float = true ->
   (linear <? area)%float = true)
  /\ ((0 <=? luma)%float = true -> (luma <=? 0.08)%float = true ->
      (area <? linear)%float = true)
  /\ (luma = 1%float ->
      linear = 0%float /\ area = 0%float
      /\ Float64.to_int linear = 0 /\ Float64.to_int area = 0).
Proof.
  intros Hb Hs Hk linear area. subst linear area. unfold dotRadius.
  destruct (box_scale_product boxHalf scale Hb Hs Hk) as [-> Hk'].
  set (k := boxHalf * scale) in *.
  split; [|split].
  - (* light *)
    intros Hl Hu.
    destruct (Lumas.light_luma luma Hl Hu) as (H0 & Hr & Hgap).
    destruct (Coefficients.coefficient_chain luma (-56) H0 Hu ltac:(lia)
                ltac:(pose proof (SFReal.p2_le (-56) (-56) ltac:(lia)); lra))
      as (mL & eL & mA & eA & Q & EL & EA & _ & HL & HQ & HA & RL & RA).
    rewrite Coefficients.eps_value, Coefficients.toR_Pi,
      Coefficients.toR_weight in *.
    apply (Radii.coefficients_ordered _ _ mL eL mA eA k Hk' EL EA RL RA).
    apply (Policies.light_gap (SF.toR (Prim2SF luma)) _ Q _ HL
             ltac:(pose proof (SFReal.p2_pos (-64)); lra) HQ HA Hr).
  - (* dark *)
    intros Hl Hu.
    destruct (Lumas.dark_luma luma Hl Hu) as (H1 & Hr).
    destruct (Coefficients.coefficient_chain luma (-1) Hl H1 ltac:(lia)
                ltac:(replace (SF.p2 (-1)) with (/ 2)%R
                        by (symmetry; exact (Coefficients.p2_neg 1 ltac:(lia)));
                      unfold SF.darkUpTo in Hr; lra))
      as (mL & eL & mA & eA & Q & EL & EA & _ & HL & HQ & HA & RL & RA).
    rewrite Coefficients.eps_value, Coefficients.toR_Pi,
      Coefficients.toR_weight in *.
    apply (Radii.coefficients_ordered _ _ mA eA mL eL k Hk' EA EL RA RL).
    apply (Policies.dark_gap (SF.toR (Prim2SF luma)) _ Q _ HL
             ltac:(pose proof (SFReal.p2_pos (-64)); lra) HQ HA Hr).
  - (* luma = 1.0 *)
    intros ->.
    change (1.0 - 1)%float with 0%float.
    change (PrimFloat.sqrt (0 / Float64.Pi) * 1.7)%float with 0%float.
    destruct (of_int_small k Hk') as (M & e & E & _).
    assert (Hz : (0 * Float64.of_int k)%float = 0%float).
    { apply Prim2SF_inj. rewrite mul_spec, E. reflexivity. }
    rewrite Hz. repeat split; reflexivity.
Qed.

Lemma area_against_linear_witness :
  (dotRadius false 0.5 25 1 <? dotRadius true 0.5 25 1)%float = true
  /\ (dotRadius true 0.05 25 1 <? dotRadius false 0.05 25 1)%float = true.
Proof.
  pose proof (area_against_linear 0.5 25 1 ltac:(lia) ltac:(lia) ltac:(lia))
    as H5.
  pose proof (area_against_linear 0.05 25 1 ltac:(lia) ltac:(lia) ltac:(lia))
    as H0.
  cbv zeta in H5, H0. split.
  - exact (proj1 H5 eq_refl eq_refl).
  - exact (proj1 (proj2 H0) eq_refl eq_refl).
Defined.

(** C3 as stated fails for dark boxes: for a black one, luma [0.0], with
    [boxHalf = 25] and [scale = 1], the linear radius is [25] and the area
    radius [sqrt(1 / Pi) * 1.7 * 25], a little under [24]. *)
Lemma area_smaller_for_black :
  (dotRadius false 0 25 1 <? dotRadius true 0 25 1)%float = false
  /\ (dotRadius true 0 25 1 <? dotRadius false 0 25 1)%float = true
  /\ Float64.to_int (dotRadius false 0 25 1) = 25
  /\ Float64.to_int (dotRadius true 0 25 1) = 23.
Proof. repeat split; vm_compute; reflexivity. Qed.
(* ===================================================================== *)
(** ** How a run ends and what it leaves *)

Lemma upto_pos n : 0 < n -> exists l, upto n = 0 :: l.
Proof.
  intros H. unfold upto. destruct (Z.to_nat n) as [|k] eqn:E; [lia|].
  cbn [seq map]. eexists; reflexivity.
Qed.

Lemma drawBox_panics lumaFunc img boxSize boxHalf boxSizeSquared thr color
      scale lumaArea x y :
  GoInt.u32 boxSizeSquared = 0 ->
  drawBox lumaFunc img boxSize boxHalf boxSizeSquared thr color scale
          lumaArea x y = Draw.panic DivideByZero.
Proof.
  intros H. unfold drawBox, averageColor, GoInt.u32quo. rewrite H.
  destruct (sumBox img boxSize x y) as [[r g] b]. reflexivity.
Qed.

(** What one box writes: nothing, or its circle. *)
Lemma drawBox_output lumaFunc img boxSize boxHalf boxSizeSquared thr color
      scale lumaArea x y :
  snd (drawBox lumaFunc img boxSize boxHalf boxSizeSquared thr color scale
               lumaArea x y) = []
  \/ exists r g b,
       averageColor img boxSize boxSizeSquared x y = Some (r, g, b)
       /\ Float64.geb (lumaFunc r g b) thr = false
       /\ snd (drawBox lumaFunc img boxSize boxHalf boxSizeSquared thr color
                       scale lumaArea x y)
          = [boxCircle (lumaFunc r g b) r g b boxSize boxHalf color scale
                       lumaArea x y].
Proof.
  destruct (averageColor img boxSize boxSizeSquared x y) as [[[r g] b]|] eqn:E.
  - rewrite (drawBox_average _ _ _ _ _ _ _ _ _ _ _ _ _ _ E).
    destruct (Float64.geb (lumaFunc r g b) thr) eqn:T; [left; reflexivity|].
    right. exists r, g, b. split; [reflexivity|]. split; [exact T|reflexivity].
  - left. unfold drawBox. rewrite E. reflexivity.
Qed.

Lemma forEach_output {A} (P : SvgCmd -> Prop) (l : list A)
      (body : A -> Draw.M unit) :
  (forall a, In a l -> Forall P (snd (body a))) ->
  Forall P (snd (Draw.forEach l body)).
Proof.
  induction l as [|a l IH]; intros H; cbn [Draw.forEach]; [constructor|].
  pose proof (H a (or_introl eq_refl)) as Ha.
  assert (Hl : Forall P (snd (Draw.forEach l body)))
    by (apply IH; intros; apply H; right; assumption).
  destruct (body a) as [[[]|e] out]; cbn in *; [|assumption].
  destruct (Draw.forEach l body) as [r out']. cbn in *.
  apply Forall_app. split; assumption.
Qed.

(** With or without a panic, [drawGrid] writes [CanvasStart] and then
    circles of boxes of the grid only. *)
Lemma drawGrid_output (P : SvgCmd -> Prop) G img boxSize thr color bt709
      scale lumaArea :
  (forall x y r g b,
     0 <= x < GoInt.quot (Dx img) boxSize ->
     0 <= y < GoInt.quot (Dy img) boxSize ->
     averageColor img boxSize (GoInt.mul boxSize boxSize) x y = Some (r, g, b) ->
     let luma := (if bt701 G then lumaBT709 else lumaBT601) r g b in
     Float64.geb luma thr = false ->
     P (boxCircle luma r g b boxSize (GoInt.quot boxSize 2) color scale
                  lumaArea x y)) ->
  exists cs,
    snd (drawGrid G img boxSize thr color bt709 scale lumaArea)
    = CanvasStart (GoInt.mul (Dx img) scale) (GoInt.mul (Dy img) scale) :: cs
    /\ Forall P cs.
Proof.
  intros HP. destruct (Z.eq_dec boxSize 0) as [->|Hb].
  - exists []. split; [reflexivity | constructor].
  - rewrite drawGrid_steps by assumption. cbv zeta. cbn [snd].
    eexists. split; [reflexivity|].
    apply forEach_output. intros x Hx. apply In_upto in Hx.
    apply forEach_output. intros y Hy. apply In_upto in Hy.
    destruct (drawBox_output (if bt701 G then lumaBT709 else lumaBT601) img
                boxSize (GoInt.quot boxSize 2) (GoInt.mul boxSize boxSize)
                thr color scale lumaArea x y)
      as [E|(r & g & b & E & T & Eo)]; rewrite ?E, ?Eo.
    + constructor.
    + constructor; [|constructor]. apply HP; assumption.
Qed.

Lemma drawGrid_exit G img boxSize thr color bt709 scale lumaArea :
  fst (drawGrid G img boxSize thr color bt709 scale lumaArea)
  = if (boxSize =? 0)
       || ((GoInt.u32 (GoInt.mul boxSize boxSize) =? 0)
           && (0 <? GoInt.quot (Dx img) boxSize)
           && (0 <? GoInt.quot (Dy img) boxSize))
    then Draw.Panic DivideByZero else Draw.Ok tt.
Proof.
  destruct (Z.eqb_spec boxSize 0) as [->|Hb]; [reflexivity|].
  cbn [orb].
  destruct (Z.eqb_spec (GoInt.u32 (GoInt.mul boxSize boxSize)) 0) as [Hs|Hs].
  - cbn [andb]. rewrite drawGrid_steps by assumption. cbv zeta. cbn [fst].
    destruct (Z.ltb_spec 0 (GoInt.quot (Dx img) boxSize)) as [Hx|Hx].
    + destruct (upto_pos _ Hx) as [lx ->]. cbn [andb Draw.forEach].
      destruct (Z.ltb_spec 0 (GoInt.quot (Dy img) boxSize)) as [Hy|Hy].
      * destruct (upto_pos _ Hy) as [ly ->]. cbn [Draw.forEach].
        rewrite drawBox_panics by assumption. reflexivity.
      * rewrite (upto_nonpos _ Hy). cbn [Draw.forEach Draw.bind Draw.ret].
        rewrite forEach_silent by reflexivity. reflexivity.
    + rewrite (upto_nonpos _ Hx). reflexivity.
  - cbn [andb]. rewrite drawGrid_boxes by assumption. reflexivity.
Qed.

Lemma square_u32 boxSize :
  1 <= boxSize <= 65535 -> GoInt.u32 (GoInt.mul boxSize boxSize) <> 0.
Proof.
  intros H. unfold GoInt.mul.
  rewrite wrap64_id by (unfold isInt, GoInt.two63; nia).
  rewrite u32_mod, Z.mod_small by nia. nia.
Qed.

(** X1: how [makeDots] ends.  It stops the program where the output file
    cannot be created; it panics where the box size is zero, and where the
    square of the box size is zero as a [uint32] while the grid has a box;
    in every other case it returns.  A box size from 1 to 65535 never
    panics. *)
Theorem makeDots_exit G img boxSize thr color bt709 name scale lumaArea w :
  fst (makeDots G img boxSize thr color bt709 name scale lumaArea w)
  = (if denied w name then Fatal
     else if (boxSize =? 0)
             || ((GoInt.u32 (GoInt.mul boxSize boxSize) =? 0)
                 && (0 <? GoInt.quot (Dx img) boxSize)
                 && (0 <? GoInt.quot (Dy img) boxSize))
          then Panicked DivideByZero else Returned)
  /\ (1 <= boxSize <= 65535 ->
      fst (makeDots G img boxSize thr color bt709 name scale lumaArea w)
      = if denied w name then Fatal else Returned).
Proof.
  assert (E : fst (makeDots G img boxSize thr color bt709 name scale lumaArea w)
    = (if denied w name then Fatal
     else if (boxSize =? 0)
             || ((GoInt.u32 (GoInt.mul boxSize boxSize) =? 0)
                 && (0 <? GoInt.quot (Dx img) boxSize)
                 && (0 <? GoInt.quot (Dy img) boxSize))
          then Panicked DivideByZero else Returned)).
  { unfold makeDots. destruct (denied w name); [reflexivity|].
    cbn [fst]. unfold exitOf. rewrite drawGrid_exit.
    destruct (_ || _); reflexivity. }
  split; [exact E|].
  intros H. rewrite E. destruct (denied w name); [reflexivity|].
  destruct (Z.eqb_spec boxSize 0) as [?|_]; [lia|].
  destruct (Z.eqb_spec (GoInt.u32 (GoInt.mul boxSize boxSize)) 0) as [Hs|_];
    [|reflexivity].
  exfalso. exact (square_u32 boxSize H Hs).
Qed.

(** A box size of 65536 on an image that holds such a box: the square is
    [2^32], zero as a [uint32], and the division of the sums panics; a box
    size of 50 on an image of any size returns. *)
Lemma makeDots_exit_witness :
  fst (makeDots {| bt701 := false |} (solid 65536 65536 whitePixel) 65536 1
                true false "out.svg" 1 false emptyWorld)
  = Panicked DivideByZero
  /\ fst (makeDots {| bt701 := false |} (solid 640 480 whitePixel) 50 1
                   true false "out.svg" 1 false emptyWorld)
     = Returned.
Proof.
  split.
  - exact (proj1 (makeDots_exit {| bt701 := false |}
                   (solid 65536 65536 whitePixel) 65536 1 true false
                   "out.svg" 1 false emptyWorld)).
  - exact (proj2 (makeDots_exit {| bt701 := false |}
                   (solid 640 480 whitePixel) 50 1 true false
                   "out.svg" 1 false emptyWorld) ltac:(lia)).
Defined.

(** X2: what [makeDots] leaves.  Where the output file cannot be created
    the world is as it was.  In every other run, also one that panics, the
    output file holds [CanvasStart] with the scaled extent of the image,
    then circles and nothing else, then [CanvasEnd]; no other file is
    touched. *)
Theorem makeDots_canvas G img boxSize thr color bt709 name scale lumaArea w :
  let run := makeDots G img boxSize thr color bt709 name scale lumaArea w in
  (denied w name = true -> run = (Fatal, w))
  /\ (denied w name = false ->
      (exists cs,
         files (snd run) name
         = Some (CanvasStart (GoInt.mul (Dx img) scale)
                             (GoInt.mul (Dy img) scale) :: cs ++ [CanvasEnd])
         /\ forallb isCircle cs = true)
      /\ (forall other, other <> name -> files (snd run) other = files w other)
      /\ (forall other, denied (snd run) other = denied w other)).
Proof.
  intros run. subst run. unfold makeDots. split.
  - intros ->. reflexivity.
  - intros ->. cbn [snd writeFile files denied]. split; [|split].
    + rewrite String.eqb_refl.
      destruct (drawGrid_output (fun c => isCircle c = true) G img boxSize thr
                  color bt709 scale lumaArea) as (cs & E & Hcs).
      { intros. reflexivity. }
      exists cs. unfold canvasOf. rewrite E. split; [reflexivity|].
      apply forallb_forall. apply Forall_forall. exact Hcs.
    + intros other Ho. apply String.eqb_neq in Ho. rewrite Ho. reflexivity.
    + reflexivity.
Qed.
(* ===================================================================== *)
(** ** The dots of a run: how many, where, in which order *)

Lemma circles_framed s cs :
  Forall (fun c => isCircle c = true) cs ->
  circles (s :: cs ++ [CanvasEnd])
  = (if isCircle s then [s] else []) ++ cs.
Proof.
  intros H. unfold circles. cbn [filter]. fold (isCircle s).
  rewrite filter_app. cbn [filter].
  assert (E : filter (fun c => match c with
                               | CanvasCircle _ _ _ _ => true
                               | _ => false
                               end) cs = cs).
  { induction H as [|c cs Hc _ IH]; cbn [filter]; [reflexivity|].
    fold (isCircle c). rewrite Hc, IH. reflexivity. }
  rewrite E, app_nil_r. destruct (isCircle s); reflexivity.
Qed.

(** The circles of the canvas are what [drawGrid] wrote after
    [CanvasStart]. *)
Lemma circles_canvasOf G img boxSize thr color bt709 scale lumaArea :
  snd (drawGrid G img boxSize thr color bt709 scale lumaArea)
  = CanvasStart (GoInt.mul (Dx img) scale) (GoInt.mul (Dy img) scale)
      :: circles (canvasOf (drawGrid G img boxSize thr color bt709 scale
                                     lumaArea)).
Proof.
  destruct (drawGrid_output (fun c => isCircle c = true) G img boxSize thr
              color bt709 scale lumaArea) as (cs & E & Hcs).
  { intros. reflexivity. }
  unfold canvasOf. rewrite E. rewrite <- app_comm_cons.
  rewrite (circles_framed _ cs Hcs). reflexivity.
Qed.

Lemma circles_tl G img boxSize thr color bt709 scale lumaArea :
  circles (canvasOf (drawGrid G img boxSize thr color bt709 scale lumaArea))
  = tl (snd (drawGrid G img boxSize thr color bt709 scale lumaArea)).
Proof.
  pose proof (circles_canvasOf G img boxSize thr color bt709 scale lumaArea)
    as E.
  apply (f_equal (@tl _)) in E. symmetry. exact E.
Qed.

Lemma forEach_length {A} (l : list A) (body : A -> Draw.M unit) (k : nat) :
  (forall a, (List.length (snd (body a)) <= k)%nat) ->
  (List.length (snd (Draw.forEach l body)) <= List.length l * k)%nat.
Proof.
  intros H. induction l as [|a l IH]; cbn [Draw.forEach List.length];
    [cbn; lia|].
  specialize (H a). destruct (body a) as [[[]|e] out]; cbn in *; [|lia].
  destruct (Draw.forEach l body) as [r out']. cbn in *.
  rewrite length_app. lia.
Qed.

Lemma length_upto_nat n : List.length (upto n) = Z.to_nat n.
Proof. unfold upto. rewrite length_map, length_seq. reflexivity. Qed.

Lemma drawBox_length lumaFunc img boxSize boxHalf boxSizeSquared thr color
      scale lumaArea x y :
  (List.length (snd (drawBox lumaFunc img boxSize boxHalf boxSizeSquared thr
                             color scale lumaArea x y)) <= 1)%nat.
Proof.
  destruct (drawBox_output lumaFunc img boxSize boxHalf boxSizeSquared thr
              color scale lumaArea x y) as [E|(r & g & b & _ & _ & E)];
    rewrite E; cbn; lia.
Qed.

(** A threshold that is not a number is above no luma. *)
Lemma geb_nan (x : float) : Float64.geb x nan = false.
Proof. unfold Float64.geb. rewrite leb_spec. reflexivity. Qed.

Lemma flat_map_length_const {A B} (f : A -> list B) (l : list A) (k : nat) :
  (forall a, List.length (f a) = k) ->
  List.length (flat_map f l) = (List.length l * k)%nat.
Proof.
  intros H. induction l as [|a l IH]; cbn [flat_map List.length];
    [reflexivity|].
  rewrite length_app, H, IH. cbn. lia.
Qed.

(** X3: the number of dots.  A run draws at most one circle for each box
    of the grid, [width / boxSize] columns of [height / boxSize] rows; where
    the division of the sums does not panic and the threshold is not a
    number, it draws exactly that many: [luma >= NaN] holds for no luma, so
    no box is left out. *)
Theorem dots_count G img boxSize thr color bt709 scale lumaArea :
  let dots t := circles (canvasOf (drawGrid G img boxSize t color bt709 scale
                                            lumaArea)) in
  let boxes := (Z.to_nat (GoInt.quot (Dx img) boxSize)
                * Z.to_nat (GoInt.quot (Dy img) boxSize))%nat in
  (List.length (dots thr) <= boxes)%nat
  /\ (boxSize <> 0 -> GoInt.u32 (GoInt.mul boxSize boxSize) <> 0 ->
      List.length (dots nan) = boxes).
Proof.
  intros dots boxes. subst dots boxes. split.
  - rewrite circles_tl.
    destruct (Z.eq_dec boxSize 0) as [->|Hb]; [cbn; lia|].
    rewrite drawGrid_steps by assumption. cbv zeta. cbn [snd tl].
    rewrite <- !length_upto_nat.
    apply forEach_length. intros x.
    replace (List.length (upto (GoInt.quot (Dy img) boxSize)))
      with (List.length (upto (GoInt.quot (Dy img) boxSize)) * 1)%nat by lia.
    apply forEach_length. intros y. apply drawBox_length.
  - intros Hb Hs.
    rewrite circles_tl, drawGrid_boxes by assumption. cbn [snd tl].
    rewrite <- !length_upto_nat.
    apply flat_map_length_const. intros x.
    transitivity (List.length (upto (GoInt.quot (Dy img) boxSize)) * 1)%nat;
      [|lia].
    apply flat_map_length_const. intros y.
    destruct (averageColor_defined img boxSize (GoInt.mul boxSize boxSize)
                x y Hs) as [[[r g] b] Ea].
    rewrite (drawBox_average _ _ _ _ _ _ _ _ _ _ _ _ _ _ Ea), geb_nan.
    reflexivity.
Qed.
(* ===================================================================== *)
(** ** Sorted lists *)

Lemma StronglySorted_app {A} (R : A -> A -> Prop) (l l' : list A) :
  StronglySorted R l -> StronglySorted R l' ->
  (forall a b, In a l -> In b l' -> R a b) ->
  StronglySorted R (l ++ l').
Proof.
  intros Hl Hl' H. induction Hl as [|a l Hl IH Ha]; cbn [app]; [assumption|].
  constructor.
  - apply IH. intros; apply H; [right|]; assumption.
  - apply Forall_app. split; [assumption|].
    apply Forall_forall. intros b Hb. apply H; [left; reflexivity|assumption].
Qed.

Lemma StronglySorted_map {A B} (R : B -> B -> Prop) (f : A -> B) (l : list A) :
  StronglySorted (fun a a' => R (f a) (f a')) l -> StronglySorted R (map f l).
Proof.
  induction 1 as [|a l Hl IH Ha]; cbn [map]; constructor; [assumption|].
  apply Forall_forall. intros b Hb. apply in_map_iff in Hb as (a' & <- & Ha').
  rewrite Forall_forall in Ha. exact (Ha a' Ha').
Qed.

Lemma StronglySorted_weaken {A} (R R' : A -> A -> Prop) (l : list A) :
  (forall a b, In a l -> In b l -> R a b -> R' a b) ->
  StronglySorted R l -> StronglySorted R' l.
Proof.
  intros H Hl. induction Hl as [|a l Hl IH Ha]; constructor.
  - apply IH. intros; apply H; try right; assumption.
  - rewrite Forall_forall in *. intros b Hb.
    apply H; [left; reflexivity | right; assumption | exact (Ha b Hb)].
Qed.

Lemma seq_sorted k : forall a, StronglySorted lt (seq a k).
Proof.
  induction k as [|k IH]; intros a; cbn [seq]; constructor; [apply IH|].
  apply Forall_forall. intros b Hb. apply in_seq in Hb. lia.
Qed.

Lemma upto_sorted n : StronglySorted Z.lt (upto n).
Proof.
  unfold upto. apply StronglySorted_map.
  apply (StronglySorted_weaken lt); [intros; lia | apply seq_sorted].
Qed.

(* ===================================================================== *)
(** ** Where the dots are *)

(** The coordinate of the centre of column or row [v], where [int] holds
    the scaled extent of the image. *)
Lemma centre_coordinate d boxSize scale v :
  0 < boxSize -> 0 < scale -> 0 <= d -> d * scale < GoInt.two63 ->
  0 <= v < GoInt.quot d boxSize ->
  GoInt.mul (GoInt.add (GoInt.mul v boxSize) (GoInt.quot boxSize 2)) scale
  = (v * boxSize + boxSize / 2) * scale
  /\ v * boxSize * scale <= (v * boxSize + boxSize / 2) * scale
     < (v + 1) * boxSize * scale
  /\ (v + 1) * boxSize <= d.
Proof.
  intros Hb Hs Hd Hds Hv. unfold GoInt.two63 in *.
  assert (Hdi : isInt d) by (unfold isInt, GoInt.two63; nia).
  assert (Hq : GoInt.quot d boxSize = d / boxSize).
  { unfold GoInt.quot. rewrite Z.quot_div_nonneg by lia.
    apply wrap64_id. unfold isInt, GoInt.two63 in *.
    pose proof (Z.div_le_upper_bound d boxSize d ltac:(lia) ltac:(nia)).
    pose proof (Z.div_pos d boxSize ltac:(lia) ltac:(lia)). lia. }
  rewrite Hq in Hv.
  assert (Hd' : (v + 1) * boxSize <= d).
  { pose proof (Z.mul_div_le d boxSize ltac:(lia)). nia. }
  assert (Hh : GoInt.quot boxSize 2 = boxSize / 2).
  { unfold GoInt.quot. rewrite Z.quot_div_nonneg by lia.
    apply wrap64_id. unfold isInt, GoInt.two63 in *.
    pose proof (Z.div_pos boxSize 2 ltac:(lia) ltac:(lia)).
    pose proof (Z.div_le_upper_bound boxSize 2 boxSize ltac:(lia) ltac:(lia)).
    nia. }
  assert (H2 : 0 <= boxSize / 2 < boxSize).
  { split; [apply Z.div_pos; lia | apply Z.div_lt; lia]. }
  rewrite Hh. unfold GoInt.add, GoInt.mul.
  rewrite (wrap64_id (v * boxSize)) by (unfold isInt, GoInt.two63; nia).
  rewrite (wrap64_id (v * boxSize + boxSize / 2))
    by (unfold isInt, GoInt.two63; nia).
  split; [|split; [nia|assumption]].
  apply wrap64_id. unfold isInt, GoInt.two63. nia.
Qed.

(** The centres of the circles of a run: each in the middle of a box of
    the grid, and increasing strictly, columns first. *)
Lemma grid_centres G img boxSize thr color bt709 scale lumaArea :
  0 < boxSize -> 0 < scale -> 0 <= Dx img -> 0 <= Dy img ->
  Dx img * scale < GoInt.two63 -> Dy img * scale < GoInt.two63 ->
  let dots := circles (canvasOf (drawGrid G img boxSize thr color bt709 scale
                                          lumaArea)) in
  Forall (fun c =>
            exists x y,
              0 <= x /\ (x + 1) * boxSize <= Dx img
              /\ 0 <= y /\ (y + 1) * boxSize <= Dy img
              /\ circleCentre c = ((x * boxSize + boxSize / 2) * scale,
                                   (y * boxSize + boxSize / 2) * scale)) dots
  /\ StronglySorted columnsFirst (map circleCentre dots).
Proof.
  intros Hb Hs Hx0 Hy0 Hxs Hys dots. subst dots. split.
  - rewrite circles_tl.
    destruct (drawGrid_output
                (fun c => exists x y,
                   0 <= x /\ (x + 1) * boxSize <= Dx img
                   /\ 0 <= y /\ (y + 1) * boxSize <= Dy img
                   /\ circleCentre c = ((x * boxSize + boxSize / 2) * scale,
                                        (y * boxSize + boxSize / 2) * scale))
                G img boxSize thr color bt709 scale lumaArea)
      as (cs & E & Hcs).
    { intros x y r g b Hx Hy _ luma _. exists x, y.
      destruct (centre_coordinate (Dx img) boxSize scale x Hb Hs Hx0 Hxs Hx)
        as (Ex & _ & Bx).
      destruct (centre_coordinate (Dy img) boxSize scale y Hb Hs Hy0 Hys Hy)
        as (Ey & _ & By).
      unfold boxCircle, circleCentre. rewrite Ex, Ey.
      repeat split; try assumption; lia. }
    rewrite E. exact Hcs.
  - rewrite circles_tl.
    rewrite drawGrid_steps by lia. cbv zeta. cbn [snd tl].
    apply StronglySorted_map.
    set (body := fun x y =>
           drawBox (if bt701 G then lumaBT709 else lumaBT601) img boxSize
                   (GoInt.quot boxSize 2) (GoInt.mul boxSize boxSize)
                   thr color scale lumaArea x y).
    set (R := fun a a' => columnsFirst (circleCentre a) (circleCentre a')).
    assert (Hc : forall x y c,
              0 <= x < GoInt.quot (Dx img) boxSize ->
              0 <= y < GoInt.quot (Dy img) boxSize ->
              In c (snd (body x y)) ->
              circleCentre c = ((x * boxSize + boxSize / 2) * scale,
                                (y * boxSize + boxSize / 2) * scale)).
    { intros x y c Hx Hy Hin. unfold body in Hin.
      destruct (drawBox_output (if bt701 G then lumaBT709 else lumaBT601) img
                  boxSize (GoInt.quot boxSize 2) (GoInt.mul boxSize boxSize)
                  thr color scale lumaArea x y)
        as [E|(r & g & b & _ & _ & E)]; rewrite E in Hin; [destruct Hin|].
      destruct Hin as [<-|[]].
      destruct (centre_coordinate (Dx img) boxSize scale x Hb Hs Hx0 Hxs Hx)
        as (Ex & _).
      destruct (centre_coordinate (Dy img) boxSize scale y Hb Hs Hy0 Hys Hy)
        as (Ey & _).
      unfold boxCircle, circleCentre. rewrite Ex, Ey. reflexivity. }
    assert (Hrow : forall x l,
              0 <= x < GoInt.quot (Dx img) boxSize ->
              (forall y, In y l -> 0 <= y < GoInt.quot (Dy img) boxSize) ->
              StronglySorted Z.lt l ->
              StronglySorted R (snd (Draw.forEach l (body x)))
              /\ forall c, In c (snd (Draw.forEach l (body x))) ->
                   exists y, In y l /\ In c (snd (body x y))).
    { intros x l Hx. induction l as [|y l IH]; intros Hl Hsl.
      - split; [constructor | intros c []].
      - apply StronglySorted_inv in Hsl as [Hsl Hy].
        destruct (IH (fun y' H => Hl y' (or_intror H)) Hsl) as [IH1 IH2].
        cbn [Draw.forEach].
        assert (Hone : StronglySorted R (snd (body x y))).
        { unfold body.
          destruct (drawBox_output (if bt701 G then lumaBT709 else lumaBT601)
                      img boxSize (GoInt.quot boxSize 2)
                      (GoInt.mul boxSize boxSize) thr color scale lumaArea x y)
            as [E|(r & g & b & _ & _ & E)]; rewrite E;
            repeat constructor. }
        destruct (body x y) as [[[]|e] out] eqn:Eb; cbn [Draw.bind snd] in *.
        + destruct (Draw.forEach l (body x)) as [rr out'] eqn:Ef.
          cbn [snd] in *. split.
          * apply StronglySorted_app; [assumption|assumption|].
            intros c c' Hin Hin'.
            destruct (IH2 c' Hin') as (y' & Hy' & Hc').
            rewrite Forall_forall in Hy. pose proof (Hy y' Hy') as Hlt.
            assert (Hcy : In c (snd (body x y))) by (rewrite Eb; exact Hin).
            unfold R, columnsFirst.
            rewrite (Hc x y c Hx (Hl y (or_introl eq_refl)) Hcy).
            rewrite (Hc x y' c' Hx (Hl y' (or_intror Hy')) Hc').
            cbn [fst snd]. right. split; [reflexivity|].
            apply Z.mul_lt_mono_pos_r; [lia|]. apply Z.add_lt_mono_r.
            apply Z.mul_lt_mono_pos_r; lia.
          * intros c Hin. apply in_app_or in Hin as [Hin|Hin].
            -- exists y. split; [left; reflexivity|]. rewrite Eb. exact Hin.
            -- destruct (IH2 c Hin) as (y' & Hy' & Hc').
               exists y'. split; [right; assumption | assumption].
        + split; [assumption|]. intros c Hin. exists y.
          split; [left; reflexivity|]. rewrite Eb. exact Hin. }
    pose proof (upto_sorted (GoInt.quot (Dy img) boxSize)) as Hsy.
    assert (Hly : forall y, In y (upto (GoInt.quot (Dy img) boxSize)) ->
                            0 <= y < GoInt.quot (Dy img) boxSize)
      by (intros y; apply In_upto).
    fold body.
    assert (Hcol : forall l,
              (forall x, In x l -> 0 <= x < GoInt.quot (Dx img) boxSize) ->
              StronglySorted Z.lt l ->
              StronglySorted R
                (snd (Draw.forEach l (fun x =>
                   Draw.forEach (upto (GoInt.quot (Dy img) boxSize)) (body x))))
              /\ forall c,
                   In c (snd (Draw.forEach l (fun x =>
                     Draw.forEach (upto (GoInt.quot (Dy img) boxSize)) (body x)))) ->
                   exists x y, In x l
                     /\ 0 <= y < GoInt.quot (Dy img) boxSize
                     /\ In c (snd (body x y))).
    { induction l as [|x l IH]; intros Hl Hsl.
      - split; [constructor | intros c []].
      - apply StronglySorted_inv in Hsl as [Hsl Hxl].
        destruct (IH (fun x' H => Hl x' (or_intror H)) Hsl) as [IH1 IH2].
        destruct (Hrow x _ (Hl x (or_introl eq_refl)) Hly Hsy) as [R1 R2].
        cbn [Draw.forEach].
        destruct (Draw.forEach (upto (GoInt.quot (Dy img) boxSize)) (body x))
          as [[[]|e] out] eqn:Eb; cbn [Draw.bind snd] in *.
        + match goal with |- context [Draw.forEach l ?f] =>
            destruct (Draw.forEach l f) as [rr out'] eqn:Ef end.
          cbn [snd] in *. split.
          * apply StronglySorted_app; [assumption|assumption|].
            intros c c' Hin Hin'.
            destruct (R2 c Hin) as (y & Hy & Hcy).
            destruct (IH2 c' Hin') as (x' & y' & Hx' & Hy' & Hc').
            rewrite Forall_forall in Hxl. pose proof (Hxl x' Hx') as Hlt.
            unfold R, columnsFirst.
            rewrite (Hc x y c (Hl x (or_introl eq_refl)) (Hly y Hy) Hcy).
            rewrite (Hc x' y' c' (Hl x' (or_intror Hx')) Hy' Hc').
            cbn [fst snd]. left.
            apply Z.mul_lt_mono_pos_r; [lia|]. apply Z.add_lt_mono_r.
            apply Z.mul_lt_mono_pos_r; lia.
          * intros c Hin. apply in_app_or in Hin as [Hin|Hin].
            -- destruct (R2 c Hin) as (y & Hy & Hcy).
               exists x, y. split; [left; reflexivity|].
               split; [apply Hly; assumption | assumption].
            -- destruct (IH2 c Hin) as (x' & y' & Hx' & Hy' & Hc').
               exists x', y'. split; [right; assumption|]. split; assumption.
        + split; [assumption|]. intros c Hin.
          destruct (R2 c Hin) as (y & Hy & Hcy).
          exists x, y. split; [left; reflexivity|].
          split; [apply Hly; assumption | assumption]. }
    apply (Hcol (upto (GoInt.quot (Dx img) boxSize))).
    + intros x; apply In_upto.
    + apply upto_sorted.
Qed.

(** X4: where the dots are and in which order.  For a positive box size
    and scale, on an image whose scaled extent [int] holds, every circle
    has its centre in the middle of a box of the grid,
    [((x * boxSize + boxSize / 2) * scale, (y * boxSize + boxSize / 2) * scale)]
    with [x] a column and [y] a row of the grid, and the circles are written
    column by column from the left, and in a column from the top: the
    centres increase strictly, so no two circles share a centre. *)
Theorem dots_centres G img boxSize thr color bt709 scale lumaArea :
  0 < boxSize -> 0 < scale -> 0 <= Dx img -> 0 <= Dy img ->
  Dx img * scale < GoInt.two63 -> Dy img * scale < GoInt.two63 ->
  let dots := circles (canvasOf (drawGrid G img boxSize thr color bt709 scale
                                          lumaArea)) in
  Forall (fun c =>
            exists x y,
              0 <= x /\ (x + 1) * boxSize <= Dx img
              /\ 0 <= y /\ (y + 1) * boxSize <= Dy img
              /\ circleCentre c = ((x * boxSize + boxSize / 2) * scale,
                                   (y * boxSize + boxSize / 2) * scale)) dots
  /\ StronglySorted columnsFirst (map circleCentre dots).
Proof. exact (grid_centres G img boxSize thr color bt709 scale lumaArea). Qed.

Lemma dots_centres_witness :
  StronglySorted columnsFirst
    (map circleCentre
       (circles (canvasOf (drawGrid {| bt701 := false |}
                                    (solid 100 100 blackPixel) 50 1 true false
                                    2 false)))).
Proof.
  refine (proj2 (dots_centres {| bt701 := false |} (solid 100 100 blackPixel)
                   50 1 true false 2 false _ _ _ _ _ _));
    unfold GoInt.two63; cbn; lia.
Defined.
(* ===================================================================== *)
(** ** Which pixels a run reads *)

Lemma fold_left_ext_in {A B} (f g : A -> B -> A) (l : list B) :
  (forall a b, In b l -> f a b = g a b) ->
  forall a, fold_left f l a = fold_left g l a.
Proof.
  induction l as [|b l IH]; intros H a; cbn [fold_left]; [reflexivity|].
  rewrite (H a b (or_introl eq_refl)).
  apply IH. intros; apply H; right; assumption.
Qed.

Lemma forEach_ext_in {A} (l : list A) (body body' : A -> Draw.M unit) :
  (forall a, In a l -> body a = body' a) ->
  Draw.forEach l body = Draw.forEach l body'.
Proof.
  induction l as [|a l IH]; intros H; cbn [Draw.forEach]; [reflexivity|].
  rewrite (H a (or_introl eq_refl)).
  rewrite IH by (intros; apply H; right; assumption). reflexivity.
Qed.

(** The number of columns (or rows) of the grid, and the last pixel of its
    last box. *)
Lemma grid_extent d boxSize v :
  0 < boxSize -> 0 <= d < GoInt.two63 ->
  GoInt.quot d boxSize = Z.quot d boxSize
  /\ (0 <= v < GoInt.quot d boxSize ->
      0 <= v /\ (v + 1) * boxSize <= Z.quot d boxSize * boxSize
      /\ Z.quot d boxSize * boxSize <= d).
Proof.
  intros Hb Hd. unfold GoInt.two63 in *.
  assert (Hq : GoInt.quot d boxSize = Z.quot d boxSize).
  { unfold GoInt.quot. apply wrap64_id. unfold isInt, GoInt.two63.
    rewrite Z.quot_div_nonneg by lia.
    pose proof (Z.div_le_upper_bound d boxSize d ltac:(lia) ltac:(nia)).
    pose proof (Z.div_pos d boxSize ltac:(lia) ltac:(lia)). lia. }
  split; [exact Hq|]. rewrite Hq. intros Hv.
  rewrite Z.quot_div_nonneg in * by lia.
  pose proof (Z.mul_div_le d boxSize ltac:(lia)). nia.
Qed.

Lemma pixel_coordinate boxSize c i :
  0 < boxSize -> 0 <= c -> (c + 1) * boxSize < GoInt.two63 ->
  0 <= i < boxSize ->
  GoInt.add (GoInt.mul c boxSize) i = c * boxSize + i.
Proof.
  intros Hb Hc Hc' Hi.
  exact (box_coordinate boxSize c c Hb (conj Hc Hc') (conj Hc Hc') c i
           (conj Hc Hc') Hi).
Qed.

Lemma sumBox_sameBoxes img img' boxSize x y :
  sameBoxes img img' boxSize ->
  0 < boxSize -> 0 <= Dx img < GoInt.two63 -> 0 <= Dy img < GoInt.two63 ->
  0 <= x < GoInt.quot (Dx img) boxSize ->
  0 <= y < GoInt.quot (Dy img) boxSize ->
  sumBox img' boxSize x y = sumBox img boxSize x y.
Proof.
  intros (_ & _ & Hat) Hb Hdx Hdy Hx Hy. unfold sumBox.
  destruct (grid_extent (Dx img) boxSize x Hb Hdx) as [_ Gx].
  destruct (grid_extent (Dy img) boxSize y Hb Hdy) as [_ Gy].
  specialize (Gx Hx). specialize (Gy Hy).
  apply fold_left_ext_in. intros acc i Hi. apply In_upto in Hi.
  apply fold_left_ext_in. intros [[ar ag] ab] j Hj. apply In_upto in Hj.
  unfold addPixel.
  rewrite (pixel_coordinate boxSize x i) by (unfold GoInt.two63 in *; lia).
  rewrite (pixel_coordinate boxSize y j) by (unfold GoInt.two63 in *; lia).
  rewrite Hat by nia. reflexivity.
Qed.

(** X5: the pixels a run reads.  Two images of the same extent that hold
    the same pixels on the boxes of the grid, the columns
    [0 .. (width / boxSize) * boxSize - 1] and the rows
    [0 .. (height / boxSize) * boxSize - 1], give the same run: what lies
    right of the last whole box and below it is never looked at. *)
Theorem remainder_ignored G img img' boxSize thr color bt709 name scale
        lumaArea w :
  sameBoxes img img' boxSize ->
  0 < boxSize -> 0 <= Dx img < GoInt.two63 -> 0 <= Dy img < GoInt.two63 ->
  makeDots G img' boxSize thr color bt709 name scale lumaArea w
  = makeDots G img boxSize thr color bt709 name scale lumaArea w.
Proof.
  intros Hsame Hb Hdx Hdy.
  assert (E : drawGrid G img' boxSize thr color bt709 scale lumaArea
              = drawGrid G img boxSize thr color bt709 scale lumaArea).
  { rewrite !drawGrid_steps by lia. cbv zeta.
    destruct Hsame as (Ex & Ey & Hat). rewrite Ex, Ey.
    assert (Ef : forall (m m' : Draw.M unit) s, m = m' ->
                   (fst m, s :: snd m) = (fst m', s :: snd m'))
      by (intros; subst; reflexivity).
    apply Ef. apply forEach_ext_in. intros x Hx. apply In_upto in Hx.
    apply forEach_ext_in. intros y Hy. apply In_upto in Hy.
    unfold drawBox, averageColor.
    rewrite (sumBox_sameBoxes img img' boxSize x y) by
      (try assumption; repeat split; assumption).
    reflexivity. }
  unfold makeDots. rewrite E. reflexivity.
Qed.

(** An image with a dark strip right of its last whole box draws what the
    image without it draws. *)
Lemma remainder_ignored_witness :
  let strip := {| Dx := 110; Dy := 100;
                  At := fun x _ => if x <? 100 then whitePixel else blackPixel |} in
  makeDots {| bt701 := false |} strip 50 1 true false "out.svg" 1 false emptyWorld
  = makeDots {| bt701 := false |} (solid 110 100 whitePixel) 50 1 true false
             "out.svg" 1 false emptyWorld.
Proof.
  refine (remainder_ignored {| bt701 := false |} (solid 110 100 whitePixel)
            _ 50 1 true false "out.svg" 1 false emptyWorld _ _ _ _);
    [| lia | unfold GoInt.two63; cbn; lia | unfold GoInt.two63; cbn; lia].
  split; [reflexivity|]. split; [reflexivity|].
  cbn [Dx Dy At solid]. intros cx cy Hx Hy.
  change (Z.quot 110 50 * 50) with 100 in Hx.
  destruct (Z.ltb_spec cx 100); [reflexivity | lia].
Defined.
(* ===================================================================== *)
(** ** The average colour: its range *)

Lemma u32_range z : 0 <= GoInt.u32 z < 2 ^ 32.
Proof. rewrite u32_mod. apply Z.mod_pos_bound. lia. Qed.

(** The average of 16-bit channels is an 8-bit value, for every box side
    whose square [uint32] holds: a side of 256 at most lets no sum
    overflow, and a longer side divides what is left of a sum by more than
    [2^16]. *)
Lemma averageColor_eightBit img boxSize x y r g b :
  sixteenBit img -> 1 <= boxSize <= 65535 ->
  0 <= x /\ (x + 1) * boxSize < GoInt.two63 ->
  0 <= y /\ (y + 1) * boxSize < GoInt.two63 ->
  averageColor img boxSize (GoInt.mul boxSize boxSize) x y = Some (r, g, b) ->
  0 <= r <= 255 /\ 0 <= g <= 255 /\ 0 <= b <= 255.
Proof.
  intros H16 Hb Hx Hy. unfold averageColor.
  rewrite (sumBox_mod img boxSize x y) by lia.
  assert (Hsq : GoInt.u32 (GoInt.mul boxSize boxSize) = boxSize * boxSize).
  { unfold GoInt.mul. rewrite wrap64_id by (unfold isInt, GoInt.two63; nia).
    rewrite u32_mod. apply Z.mod_small. nia. }
  rewrite Hsq. unfold GoInt.u32quo.
  destruct (Z.eqb_spec (boxSize * boxSize) 0) as [E|_]; [nia|].
  assert (Hch : forall ch,
            (forall c r, 0 <= ch (At img c r) <= 65535) ->
            0 <= GoInt.u32 (channelSum ch img boxSize x y)
                   / (boxSize * boxSize) / 257 <= 255).
  { intros ch Hc.
    pose proof (u32_range (channelSum ch img boxSize x y)) as Hu.
    assert (Hq : 0 <= GoInt.u32 (channelSum ch img boxSize x y)
                      / (boxSize * boxSize) <= 65535).
    { split; [apply Z.div_pos; nia|].
      destruct (Z_le_gt_dec boxSize 256) as [Hs|Hl].
      - pose proof (channelSum_bounds ch img boxSize x y Hc ltac:(lia)) as Hs'.
        rewrite u32_mod, Z.mod_small by nia.
        apply Z.div_le_upper_bound; nia.
      - apply Z.div_le_upper_bound; nia. }
    split; [apply Z.div_pos; lia|].
    apply Z.div_le_upper_bound; lia. }
  intros E. injection E as <- <- <-.
  repeat split; apply Hch; intros c r; apply (H16 c r).
Qed.

(* ===================================================================== *)
(** ** The fill colour *)

Lemma fmt02x_eightBit v :
  0 <= v <= 255 ->
  String.length (fmt02x v) = 2%nat
  /\ forallb isHexDigit (list_ascii_of_string (fmt02x v)) = true.
Proof.
  intros H.
  pose proof (allFrom_spec 256 0
                (fun v => (String.length (fmt02x v) =? 2)%nat
                          && forallb isHexDigit
                                     (list_ascii_of_string (fmt02x v)))
                ltac:(vm_compute; reflexivity) v ltac:(lia)) as E.
  cbv beta in E. apply andb_prop in E as [E1 E2].
  apply Nat.eqb_eq in E1. split; assumption.
Qed.

Lemma length_append (s t : string) :
  String.length (s ++ t) = (String.length s + String.length t)%nat.
Proof. induction s as [|c s IH]; cbn; [reflexivity | rewrite IH; reflexivity]. Qed.

Lemma append_assoc (s t u : string) : ((s ++ t) ++ u = s ++ (t ++ u))%string.
Proof. induction s as [|c s IH]; cbn; [reflexivity | rewrite IH; reflexivity]. Qed.

Lemma list_ascii_append (s t : string) :
  list_ascii_of_string (s ++ t)
  = (list_ascii_of_string s ++ list_ascii_of_string t)%list.
Proof. induction s as [|c s IH]; cbn; [reflexivity | rewrite IH; reflexivity]. Qed.

(** X6: the colour of a dot.  On an image of 16-bit channels, as [RGBA]
    gives them, and for a box size from 1 to 65535, the three averages of
    every dot are 8-bit values, so that in colour mode its style is
    [fill:#] followed by exactly six lower-case hexadecimal digits and
    [;stroke:none]; in monochrome mode it is [fill:black;stroke:none]. *)
Theorem dots_fill G img boxSize thr (color bt709 : bool) scale lumaArea :
  sixteenBit img -> 1 <= boxSize <= 65535 ->
  0 <= Dx img < GoInt.two63 -> 0 <= Dy img < GoInt.two63 ->
  Forall (fun c =>
            if color
            then exists r g b,
                   0 <= r <= 255 /\ 0 <= g <= 255 /\ 0 <= b <= 255
                   /\ circleStyle c = fillColor r g b
                   /\ exists digits,
                        circleStyle c
                        = ("fill:#" ++ digits ++ ";stroke:none")%string
                        /\ String.length digits = 6%nat
                        /\ forallb isHexDigit (list_ascii_of_string digits)
                           = true
            else circleStyle c = "fill:black;stroke:none"%string)
         (circles (canvasOf (drawGrid G img boxSize thr color bt709 scale
                                      lumaArea))).
Proof.
  intros H16 Hb Hdx Hdy. rewrite circles_tl.
  match goal with |- Forall ?P _ =>
    destruct (drawGrid_output P G img boxSize thr color bt709 scale lumaArea)
      as (cs & E & Hcs) end.
  - intros x y r g b Hx Hy Ea luma _.
    unfold boxCircle, circleStyle. destruct color; [|reflexivity].
    destruct (grid_extent (Dx img) boxSize x ltac:(lia) Hdx) as [_ Gx].
    destruct (grid_extent (Dy img) boxSize y ltac:(lia) Hdy) as [_ Gy].
    specialize (Gx Hx). specialize (Gy Hy).
    destruct (averageColor_eightBit img boxSize x y r g b H16 Hb
                ltac:(unfold GoInt.two63 in *; lia)
                ltac:(unfold GoInt.two63 in *; lia) Ea) as (Hr & Hg & Hbl).
    exists r, g, b. repeat (split; [assumption|]).
    split; [reflexivity|].
    exists (fmt02x r ++ fmt02x g ++ fmt02x b)%string.
    destruct (fmt02x_eightBit r Hr) as [Lr Xr].
    destruct (fmt02x_eightBit g Hg) as [Lg Xg].
    destruct (fmt02x_eightBit b Hbl) as [Lb Xb].
    split; [|split].
    + unfold fillColor.
      rewrite !append_assoc. reflexivity.
    + rewrite !length_append, Lr, Lg, Lb. reflexivity.
    + rewrite !list_ascii_append, !forallb_app, Xr, Xg, Xb. reflexivity.
  - rewrite E. exact Hcs.
Qed.

Lemma dots_fill_witness :
  Forall (fun c =>
            exists r g b,
              0 <= r <= 255 /\ 0 <= g <= 255 /\ 0 <= b <= 255
              /\ circleStyle c = fillColor r g b
              /\ exists digits,
                   circleStyle c = ("fill:#" ++ digits ++ ";stroke:none")%string
                   /\ String.length digits = 6%nat
                   /\ forallb isHexDigit (list_ascii_of_string digits) = true)
         (circles (canvasOf (drawGrid {| bt701 := false |}
                                      (solid 640 480 (4660, 22136, 39612)) 300
                                      1 true false 1 false))).
Proof.
  refine (dots_fill {| bt701 := false |} (solid 640 480 (4660, 22136, 39612))
            300 1 true false 1 false _ _ _ _);
    [| lia | unfold GoInt.two63; cbn; lia | unfold GoInt.two63; cbn; lia].
  intros x y. cbn. lia.
Defined.
(* ===================================================================== *)
(** ** Images of one colour *)

Lemma fold_left_const (c : Z) (l : list Z) :
  forall acc, fold_left (fun acc _ => acc + c) l acc
              = acc + c * Z.of_nat (List.length l).
Proof.
  induction l as [|j l IH]; intros acc; cbn [fold_left List.length]; [lia|].
  rewrite IH. lia.
Qed.

Lemma channelSum_solid ch w h c boxSize x y :
  0 <= boxSize ->
  channelSum ch (solid w h c) boxSize x y = boxSize * boxSize * ch c.
Proof.
  intros Hb. unfold channelSum, addChannel, solid. cbn [At].
  assert (E : forall (l : list Z) acc,
            fold_left (fun acc0 _ =>
                         fold_left (fun acc1 _ => acc1 + ch c) (upto boxSize) acc0)
                      l acc
            = acc + boxSize * ch c * Z.of_nat (List.length l)).
  { induction l as [|i l IH]; intros acc; cbn [fold_left List.length]; [lia|].
    rewrite IH, fold_left_const, length_upto by assumption. lia. }
  rewrite E, length_upto by assumption. lia.
Qed.

Lemma sumBox_solid w h c boxSize x y :
  sumBox (solid w h c) boxSize x y = sumBox (solid w h c) boxSize 0 0.
Proof.
  unfold sumBox. apply fold_left_ext_in. intros acc i _.
  apply fold_left_ext_in. intros [[ar ag] ab] j _. reflexivity.
Qed.

(** The average colour of a box of a one-coloured image is the colour, each
    16-bit channel brought to 8 bits by the division by [0x101]. *)
Lemma averageColor_solid w h r g b boxSize x y :
  0 <= r <= 65535 -> 0 <= g <= 65535 -> 0 <= b <= 65535 ->
  1 <= boxSize <= 256 ->
  averageColor (solid w h (r, g, b)) boxSize (GoInt.mul boxSize boxSize) x y
  = Some (r / 257, g / 257, b / 257).
Proof.
  intros Hr Hg Hbl Hb. unfold averageColor.
  rewrite sumBox_solid.
  rewrite (sumBox_mod _ boxSize 0 0) by (unfold GoInt.two63; lia).
  rewrite !channelSum_solid by lia. cbn [red green blue fst snd].
  assert (Hsq : GoInt.u32 (GoInt.mul boxSize boxSize) = boxSize * boxSize).
  { unfold GoInt.mul. rewrite wrap64_id by (unfold isInt, GoInt.two63; nia).
    rewrite u32_mod. apply Z.mod_small. nia. }
  rewrite Hsq. unfold GoInt.u32quo.
  destruct (Z.eqb_spec (boxSize * boxSize) 0) as [E|_]; [nia|].
  assert (Hch : forall c, 0 <= c <= 65535 ->
            GoInt.u32 (boxSize * boxSize * c) / (boxSize * boxSize) = c).
  { intros c Hc. rewrite u32_mod, Z.mod_small by nia.
    rewrite Z.mul_comm. apply Z.div_mul. nia. }
  rewrite !Hch by assumption. reflexivity.
Qed.

(** X7: an image of one colour.  For 16-bit channels [(r, g, b)] and a box
    size from 1 to 256, every dot carries the colour of the image brought
    to 8 bits, [(r / 257, g / 257, b / 257)]: an 8-bit colour, which [RGBA]
    multiplies by 257, comes back as it was.  All dots have the same radius
    and the same style, and either every box of the grid has its dot or none
    has. *)
Theorem uniform_image G w h r g b boxSize thr (color bt709 : bool) scale
        (lumaArea : bool) :
  0 <= r <= 65535 -> 0 <= g <= 65535 -> 0 <= b <= 65535 ->
  1 <= boxSize <= 256 ->
  let luma := (if bt701 G then lumaBT709 else lumaBT601)
                (r / 257) (g / 257) (b / 257) in
  let dots := circles (canvasOf (drawGrid G (solid w h (r, g, b)) boxSize thr
                                          color bt709 scale lumaArea)) in
  Forall (fun c =>
            circleRadius c
            = Float64.to_int (dotRadius lumaArea luma (GoInt.quot boxSize 2) scale)
            /\ circleStyle c
               = if color then fillColor (r / 257) (g / 257) (b / 257)
                 else fillBlack) dots
  /\ List.length dots
     = if Float64.geb luma thr then 0%nat
       else (Z.to_nat (GoInt.quot w boxSize) * Z.to_nat (GoInt.quot h boxSize))%nat.
Proof.
  intros Hr Hg Hbl Hb luma dots. subst dots. split.
  - rewrite circles_tl.
    match goal with |- Forall ?P _ =>
      destruct (drawGrid_output P G (solid w h (r, g, b)) boxSize thr color
                  bt709 scale lumaArea) as (cs & E & Hcs) end.
    + intros x y r' g' b' _ _ Ea luma' _. subst luma'.
      rewrite averageColor_solid in Ea by assumption.
      injection Ea as <- <- <-.
      unfold boxCircle, circleRadius, circleStyle. split; reflexivity.
    + rewrite E. exact Hcs.
  - rewrite circles_tl.
    rewrite drawGrid_boxes by (try apply square_u32; lia).
    cbn [snd tl Dx Dy solid]. rewrite <- !length_upto_nat.
    assert (Hbox : forall x y,
              snd (drawBox (if bt701 G then lumaBT709 else lumaBT601)
                           (solid w h (r, g, b)) boxSize (GoInt.quot boxSize 2)
                           (GoInt.mul boxSize boxSize) thr color scale
                           lumaArea x y)
              = if Float64.geb luma thr then []
                else [boxCircle luma (r / 257) (g / 257) (b / 257) boxSize
                                (GoInt.quot boxSize 2) color scale lumaArea
                                x y]).
    { intros x y.
      rewrite (drawBox_average _ _ _ _ _ _ _ _ _ _ _ _ _ _
                 (averageColor_solid w h r g b boxSize x y Hr Hg Hbl Hb)).
      fold luma. destruct (Float64.geb luma thr); reflexivity. }
    destruct (Float64.geb luma thr) eqn:T.
    + erewrite (flat_map_length_const _ _ 0%nat); [lia|]. intros x.
      erewrite (flat_map_length_const _ _ 0%nat); [lia|]. intros y.
      rewrite Hbox. reflexivity.
    + apply flat_map_length_const. intros x.
      transitivity (List.length (upto (GoInt.quot h boxSize)) * 1)%nat; [|lia].
      apply flat_map_length_const. intros y. rewrite Hbox. reflexivity.
Qed.

(** An image of the 8-bit colour [#336699], which [RGBA] gives as
    [(0x3333, 0x6666, 0x9999)]. *)
Lemma uniform_image_witness :
  Forall (fun c => circleStyle c = "fill:#336699;stroke:none"%string)
         (circles (canvasOf (drawGrid {| bt701 := true |}
                                      (solid 640 480 (13107, 26214, 39321))
                                      64 1 true false 1 false))).
Proof.
  refine (Forall_impl _ _
            (proj1 (uniform_image {| bt701 := true |} 640 480 13107 26214
                      39321 64 1 true false 1 false _ _ _ _)));
    try lia.
  intros c [_ E]. exact E.
Defined.
(* ===================================================================== *)
(** ** Strings *)

Lemma append_nil_r (s : string) : (s ++ "")%string = s.
Proof. induction s as [|c s IH]; cbn; [reflexivity | rewrite IH; reflexivity]. Qed.

Lemma append_inj_l (s t u : string) : (s ++ t = s ++ u)%string -> t = u.
Proof.
  induction s as [|c s IH]; cbn; intros H; [assumption|].
  injection H as H. apply IH. assumption.
Qed.

Lemma string_of_app (l l' : list ascii) :
  string_of_list_ascii (l ++ l')
  = (string_of_list_ascii l ++ string_of_list_ascii l')%string.
Proof. induction l as [|c l IH]; cbn; [reflexivity | rewrite IH; reflexivity]. Qed.

Lemma substring_prefix (s t : string) :
  substring 0 (String.length s) (s ++ t) = s.
Proof. induction s as [|c s IH]; cbn; [destruct t|rewrite IH]; reflexivity. Qed.

Lemma substring_suffix (s t : string) :
  substring (String.length s) (String.length t) (s ++ t) = t.
Proof.
  induction s as [|c s IH]; cbn; [|assumption].
  rewrite <- (append_nil_r t) at 2. rewrite substring_prefix. reflexivity.
Qed.

Lemma TrimSuffix_append (s t : string) : GoString.TrimSuffix (s ++ t) t = s.
Proof.
  unfold GoString.TrimSuffix, GoString.HasSuffix.
  rewrite length_append.
  replace (String.length s + String.length t - String.length t)%nat
    with (String.length s) by lia.
  rewrite substring_suffix, String.eqb_refl, substring_prefix.
  destruct (Nat.leb_spec (String.length t) (String.length s + String.length t));
    [reflexivity | lia].
Qed.

(* ===================================================================== *)
(** ** The extension of a file name *)

(** The scan returns a suffix of the path. *)
Lemma scanExt_suffix before : forall after,
  exists stem,
    (string_of_list_ascii (rev before) ++ after)%string
    = (stem ++ GoString.scanExt before after)%string.
Proof.
  induction before as [|c before IH]; intros after; cbn [GoString.scanExt rev].
  - exists after. cbn. rewrite append_nil_r. reflexivity.
  - destruct (Ascii.eqb c "/").
    + eexists. rewrite append_nil_r. reflexivity.
    + rewrite string_of_app, append_assoc. cbn [string_of_list_ascii append].
      destruct (Ascii.eqb c ".").
      * eexists. reflexivity.
      * apply IH.
Qed.

Lemma Ext_suffix path :
  exists stem, path = (stem ++ GoString.Ext path)%string.
Proof.
  destruct (scanExt_suffix (rev (list_ascii_of_string path)) "") as [stem E].
  exists stem. unfold GoString.Ext. rewrite <- E.
  rewrite rev_involutive, string_of_list_ascii_of_string, append_nil_r.
  reflexivity.
Qed.

(** The scan passes what holds no dot and no separator. *)
Lemma scanExt_plain (l rest : list ascii) : forall after,
  (forall c, In c l -> c <> "."%char /\ c <> "/"%char) ->
  GoString.scanExt (l ++ rest) after
  = GoString.scanExt rest (string_of_list_ascii (rev l) ++ after)%string.
Proof.
  induction l as [|c l IH]; intros after H; [reflexivity|].
  cbn [app GoString.scanExt rev].
  destruct (H c (or_introl eq_refl)) as [Hd Hs].
  apply Ascii.eqb_neq in Hd, Hs. rewrite Hd, Hs.
  rewrite IH by (intros; apply H; right; assumption).
  rewrite string_of_app, append_assoc. reflexivity.
Qed.

Lemma list_ascii_app (s t : string) :
  list_ascii_of_string (s ++ t)
  = (list_ascii_of_string s ++ list_ascii_of_string t)%list.
Proof. induction s as [|c s IH]; cbn; [reflexivity | rewrite IH; reflexivity]. Qed.

Lemma Ext_shape (front : string) (c : ascii) (back : string) :
  plain back ->
  GoString.Ext (front ++ String c back)
  = GoString.scanExt (c :: rev (list_ascii_of_string front)) back.
Proof.
  intros H. unfold GoString.Ext.
  rewrite list_ascii_app. cbn [list_ascii_of_string].
  rewrite rev_app_distr. cbn [rev]. rewrite <- app_assoc. cbn [app].
  rewrite scanExt_plain
    by (intros a Ha; apply H; apply in_rev; assumption).
  rewrite rev_involutive, string_of_list_ascii_of_string, append_nil_r.
  reflexivity.
Qed.

Lemma Ext_dot stem body :
  plain body -> GoString.Ext (stem ++ "." ++ body) = ("." ++ body)%string.
Proof. intros H. cbn [append]. rewrite Ext_shape by assumption. reflexivity. Qed.

Lemma Ext_separator dir base :
  plain base -> GoString.Ext (dir ++ "/" ++ base) = ""%string.
Proof. intros H. cbn [append]. rewrite Ext_shape by assumption. reflexivity. Qed.

Lemma Ext_plain path : plain path -> GoString.Ext path = ""%string.
Proof.
  intros H. unfold GoString.Ext.
  rewrite <- (app_nil_r (rev (list_ascii_of_string path))).
  rewrite scanExt_plain
    by (intros a Ha; apply H; apply in_rev; assumption).
  reflexivity.
Qed.

(** X8: the name of the output where the flag [-o] is empty.  The
    extension of the input, from the last dot of its last element on, is
    replaced by [.svg]; where the last element holds no dot, [.svg] is added
    to the whole name.  The name is that of the input itself exactly when
    the extension of the input is [.svg]. *)
Theorem default_output_name :
  (forall stem body,
     plain body -> defaultOutput (stem ++ "." ++ body) = (stem ++ ".svg")%string)
  /\ (forall dir base,
        plain base ->
        defaultOutput (dir ++ "/" ++ base) = (dir ++ "/" ++ base ++ ".svg")%string)
  /\ (forall path, plain path -> defaultOutput path = (path ++ ".svg")%string)
  /\ (forall path,
        (exists stem, path = (stem ++ GoString.Ext path)%string
                      /\ defaultOutput path = (stem ++ ".svg")%string)
        /\ (defaultOutput path = path <-> GoString.Ext path = ".svg"%string)).
Proof.
  split; [|split; [|split]].
  - intros stem body H. unfold defaultOutput.
    rewrite Ext_dot by assumption. rewrite TrimSuffix_append. reflexivity.
  - intros dir base H. unfold defaultOutput.
    rewrite Ext_separator by assumption.
    rewrite <- (append_nil_r (dir ++ "/" ++ base)) at 1.
    rewrite TrimSuffix_append, !append_assoc. reflexivity.
  - intros path H. unfold defaultOutput. rewrite Ext_plain by assumption.
    rewrite <- (append_nil_r path) at 1. rewrite TrimSuffix_append.
    reflexivity.
  - intros path. destruct (Ext_suffix path) as [stem E].
    assert (D : defaultOutput path = (stem ++ ".svg")%string).
    { unfold defaultOutput. rewrite E at 1. rewrite TrimSuffix_append.
      reflexivity. }
    split; [exists stem; split; assumption|].
    rewrite D. split.
    + intros H. pose proof (eq_trans H E) as H'. apply append_inj_l in H'.
      symmetry. exact H'.
    + intros H. transitivity (stem ++ GoString.Ext path)%string;
        [rewrite H; reflexivity | symmetry; exact E].
Qed.
(* ===================================================================== *)
(** ** main *)

(** X10: what [main] draws.  With an input name, a threshold that is
    neither below 0.0 nor above 1.0 (a threshold that is not a number is
    such a one) and an input that is read, [main] ends as [makeDots] ends,
    called with the flags and with the output name of the flag [-o] or,
    where that is empty, the default name.  Where that file can be created
    it holds the canvas, [CanvasStart], circles, [CanvasEnd], and no other
    file is changed; with a box size from 1 to 65535 the run returns. *)
Theorem main_draws (f : Flag.Values) (s : Store) (w : World) img :
  Flag.inputFile f <> ""%string ->
  (Flag.lumaThreshold f <? 0)%float = false ->
  (1 <? Flag.lumaThreshold f)%float = false ->
  readImage s (Flag.inputFile f) = inl img ->
  let out := if String.eqb (Flag.outputFile f) ""
             then defaultOutput (Flag.inputFile f) else Flag.outputFile f in
  let drawn := makeDots {| bt701 := Flag.bt701 f |} img (Flag.boxSize f)
                        (Flag.lumaThreshold f) (Flag.color f) (Flag.bt701 f)
                        out (Flag.scale f) (Flag.lumaArea f) w in
  main f s w = (Drawn (fst drawn), snd drawn)
  /\ (denied w out = true -> main f s w = (Drawn Fatal, w))
  /\ (denied w out = false ->
      (exists cs,
         files (snd (main f s w)) out
         = Some (CanvasStart (GoInt.mul (Dx img) (Flag.scale f))
                             (GoInt.mul (Dy img) (Flag.scale f))
                   :: cs ++ [CanvasEnd])
         /\ forallb isCircle cs = true)
      /\ (forall other, other <> out ->
            files (snd (main f s w)) other = files w other)
      /\ (1 <= Flag.boxSize f <= 65535 -> fst (main f s w) = Drawn Returned)).
Proof.
  intros Hi H0 H1 Hr out drawn.
  assert (E : main f s w = (Drawn (fst drawn), snd drawn)).
  { unfold main. apply String.eqb_neq in Hi. rewrite Hi.
    change 0.0%float with 0%float. change 1.0%float with 1%float.
    rewrite H0, H1, Hr. cbn [orb]. fold out. fold drawn.
    destruct drawn; reflexivity. }
  split; [exact E|]. rewrite E. subst drawn. unfold makeDots. split.
  - intros ->. reflexivity.
  - intros ->. cbn [fst snd writeFile files]. split; [|split].
    + rewrite String.eqb_refl.
      destruct (drawGrid_output (fun c => isCircle c = true)
                  {| bt701 := Flag.bt701 f |} img (Flag.boxSize f)
                  (Flag.lumaThreshold f) (Flag.color f) (Flag.bt701 f)
                  (Flag.scale f) (Flag.lumaArea f)) as (cs & Ec & Hcs).
      { intros. reflexivity. }
      exists cs. unfold canvasOf. rewrite Ec. split; [reflexivity|].
      apply forallb_forall. apply Forall_forall. exact Hcs.
    + intros other Ho. apply String.eqb_neq in Ho. rewrite Ho. reflexivity.
    + intros Hb. unfold exitOf. rewrite drawGrid_exit.
      destruct (Z.eqb_spec (Flag.boxSize f) 0) as [?|_]; [lia|].
      destruct (Z.eqb_spec (GoInt.u32 (GoInt.mul (Flag.boxSize f)
                                                 (Flag.boxSize f))) 0)
        as [Hs|_]; [|reflexivity].
      exfalso. exact (square_u32 _ Hb Hs).
Qed.

(** The command run as [points -f photo.png -t NaN]: the threshold passes
    the check, and the dots go to [photo.svg]. *)
Lemma main_draws_witness :
  let f := {| Flag.inputFile := "photo.png"; Flag.outputFile := "";
              Flag.boxSize := 50; Flag.scale := 1; Flag.lumaThreshold := nan;
              Flag.color := true; Flag.bt701 := false;
              Flag.lumaArea := false |} in
  let s := {| opened := fun _ => Some "bytes"%string;
              decoded := fun _ => Some (solid 100 100 blackPixel) |} in
  fst (main f s emptyWorld) = Drawn Returned
  /\ exists cs,
       files (snd (main f s emptyWorld)) "photo.svg"
       = Some (CanvasStart 100 100 :: cs ++ [CanvasEnd])
       /\ forallb isCircle cs = true.
Proof.
  intros f s.
  pose proof (main_draws f s emptyWorld (solid 100 100 blackPixel)
                ltac:(discriminate) eq_refl eq_refl eq_refl) as H.
  cbv zeta in H. destruct H as (_ & _ & H).
  specialize (H eq_refl). destruct H as (Hc & _ & Hr).
  split; [apply Hr; cbn; lia | exact Hc].
Defined.
(* ===================================================================== *)
(** ** binary64: the integer a float is cut to *)

Module Bounds.

Import SF SFRound SFExact SFTrunc SFReal SFPos SFOps SFOps2 Scaling
       Coefficients.
Local Open Scope R_scope.

(** [int(x)] for a positive float below [2^63]: not negative, and not above
    the float. *)
Lemma to_int_floor (x : float) m e :
  Prim2SF x = S754_finite false m e ->
  toR (Prim2SF x) < IZR (2 ^ 63) ->
  (0 <= Float64.to_int x)%Z /\ IZR (Float64.to_int x) <= toR (Prim2SF x).
Proof.
  intros E H. unfold Float64.to_int. rewrite E in *.
  unfold toR in *. rewrite Rmult_1_l in *.
  set (a := Z.shiftl (Z.pos m) e).
  assert (Ha : (0 <= a)%Z /\ IZR a <= IZR (Z.pos m) * p2 e).
  { subst a. destruct (Z_le_gt_dec 0 e) as [He|He].
    - rewrite Z.shiftl_mul_pow2 by lia. split.
      + apply Z.mul_nonneg_nonneg; [lia|]. apply Z.pow_nonneg. lia.
      + rewrite mult_IZR, <- p2_IZR by lia. lra.
    - rewrite Z.shiftl_div_pow2 by lia.
      assert (HP : (0 < 2 ^ (- e))%Z) by (apply Z.pow_pos_nonneg; lia).
      split; [apply Z.div_pos; lia|].
      replace e with (- (- e))%Z at 2 by lia. rewrite p2_neg by lia.
      pose proof (Z.mul_div_le (Z.pos m) (2 ^ (- e)) HP) as Hd.
      apply IZR_le in Hd. rewrite mult_IZR in Hd.
      assert (HP' : 0 < IZR (2 ^ (- e))) by (apply IZR_lt; lia).
      apply Rmult_le_reg_r with (IZR (2 ^ (- e))); [assumption|].
      rewrite Rmult_assoc, Rinv_l by lra. lra. }
  destruct Ha as [Ha0 Ha1].
  assert (Hlt : (a < 2 ^ 63)%Z) by (apply lt_IZR; lra).
  change GoInt.two63 with (2 ^ 63)%Z.
  destruct (Z.leb_spec (- 2 ^ 63) a) as [_|?]; [|lia].
  destruct (Z.ltb_spec a (2 ^ 63)) as [_|?]; [|lia].
  cbn [andb]. split; assumption.
Qed.

(** A luma from [0.0] up to, but not at, [1.0] leaves at least [2^-53]. *)
Lemma unit_gap (luma : float) :
  (0 <=? luma)%float = true -> (luma <? 1)%float = true ->
  p2 (-53) <= 1 - toR (Prim2SF luma).
Proof.
  intros H0 H1.
  destruct (sub_one_rel luma H0 H1) as (_ & _ & _ & Hl & _ & Hx).
  pose proof (p2_le (-53) (-1) ltac:(lia)) as P1.
  assert (Hh : p2 (-1) * 2 = 1).
  { change 2 with (IZR (2 ^ 1)). rewrite <- (p2_IZR 1), <- p2_add by lia.
    reflexivity. }
  pose proof (p2_pos (-1)) as Ph.
  destruct (Rle_lt_dec (toR (Prim2SF luma)) (p2 (-1))) as [Hs|Hb]; [lra|].
  destruct (Prim2SF luma) as [s|s| |s m e] eqn:E;
    try (cbn [toR] in Hb; lra).
  destruct s; [unfold toR in Hl;
               assert (0 < IZR (Z.pos m)) by (apply IZR_lt; lia);
               pose proof (p2_pos e); nra|].
  assert (R : p2 (-1) <= toR (Prim2SF luma) <= p2 0)
    by (rewrite E; change (p2 0) with 1; lra).
  destruct (exponent_range luma m e (-1) 0 E ltac:(lia) R) as [_ X].
  pose proof (p2_le (-53) e ltac:(lia)).
  specialize (Hx m e eq_refl). lra.
Qed.

(** The radius of a dot is between nothing and the half of a box, scaled. *)
Lemma radius_bounds (lumaArea : bool) (luma : float) k :
  (0 <=? luma)%float = true -> (luma <? 1)%float = true ->
  (0 <= k < 2 ^ 51)%Z ->
  let c := if lumaArea
           then (PrimFloat.sqrt ((1 - luma) / Float64.Pi) * 1.7)%float
           else (1 - luma)%float in
  (0 <= Float64.to_int (c * Float64.of_int k) <= k)%Z.
Proof.
  intros H0 H1 Hk c.
  destruct (coefficient_chain luma (-53) H0 H1 ltac:(lia) (unit_gap luma H0 H1))
    as (mL & eL & mA & eA & Q & EL & EA & Hl & HL & HQ & HA & RL & RA).
  pose proof eps_value as Heps. rewrite Heps in *.
  rewrite toR_Pi, toR_weight in *.
  set (l := toR (Prim2SF luma)) in *.
  set (L := toR (Prim2SF (1 - luma)%float)) in *.
  set (A := toR (Prim2SF (PrimFloat.sqrt ((1 - luma) / Float64.Pi) * 1.7)%float))
    in *.
  set (eps := / 4503599627370496) in *.
  assert (Heps' : 0 < eps <= / 1000000000000000) by (subst eps; lra).
  (* the coefficient: positive, normal, at most [1 + eps] *)
  assert (Hc : exists mc ec,
             Prim2SF c = S754_finite false mc ec
             /\ p2 (-64) <= toR (Prim2SF c) <= 1 + eps
             /\ (lumaArea = true -> toR (Prim2SF c) <= 96 / 100)).
  { subst c. destruct lumaArea.
    - exists mA, eA. split; [exact EA|]. fold A.
      assert (HA96 : A <= 96 / 100).
      { apply Rle_trans with (95999 / 100000 * ((1 + eps) * (1 + eps)));
          [|nra].
        apply Rle_trans
          with (R_sqrt.sqrt Q * (7656119366529843 / 4503599627370496)
                * ((1 + eps) * (1 + eps))); [apply HA|].
        apply Rmult_le_compat_r; [nra|].
        assert (HL1 : L <= 1 + eps).
        { apply Rle_trans with ((1 - l) * (1 + eps)); [apply HL|].
          apply Rle_trans with (1 * (1 + eps));
            [apply Rmult_le_compat_r; lra | lra]. }
        assert (HQ1 : 0 <= Q <= 3184 / 10000).
        { split.
          - apply Rle_trans
              with (L / (7074237752028440 / 2251799813685248) * (1 - eps));
              [|apply HQ].
            apply Rmult_le_pos; [|lra].
            apply Rmult_le_pos; [pose proof (p2_pos (-64)); lra|].
            apply Rlt_le, Rinv_0_lt_compat. lra.
          - apply Rle_trans
              with (L / (7074237752028440 / 2251799813685248) * (1 + eps));
              [apply HQ|].
            assert (L / (7074237752028440 / 2251799813685248) <= 31831 / 100000)
              by (apply div_le; lra).
            apply Rle_trans with (31831 / 100000 * (1 + eps));
              [apply Rmult_le_compat_r; lra | lra]. }
        apply Rlt_le. apply sqrt_scale_gt; lra. }
      split; [split; [apply RA | lra]|]. intros _. exact HA96.
    - exists mL, eL. split; [exact EL|]. fold L.
      split; [split; [apply RL | nra]|]. discriminate. }
  destruct Hc as (mc & ec & Ec & Rc & Hc96).
  destruct (Z.eq_dec k 0) as [->|Hk0].
  - (* a box of one pixel, or a scale of zero: the product is zero *)
    assert (E0 : Prim2SF (c * Float64.of_int 0) = S754_zero false).
    { rewrite mul_spec, Ec. reflexivity. }
    unfold Float64.to_int. rewrite E0. lia.
  - destruct (toR_of_int k ltac:(lia)) as (Mk & ek & Ek & Dk & Xk & Rk).
    assert (Rc' : p2 (-64) <= toR (Prim2SF c) <= p2 1).
    { rewrite (p2_IZR 1) by lia. change (IZR (2 ^ 1)) with 2. lra. }
    destruct (exponent_range c mc ec (-64) 1 Ec ltac:(lia) Rc') as [Dc Xc].
    destruct (mul_rel c (Float64.of_int k) mc ec Mk ek Ec Ek Dc Dk
                ltac:(lia) ltac:(lia)) as (m & e & E & HR).
    rewrite Heps, Rk in HR. fold eps in HR.
    set (C := toR (Prim2SF c)) in *.
    set (P := toR (Prim2SF (c * Float64.of_int k))) in *.
    assert (Hk1 : 1 <= IZR k <= 2251799813685247).
    { split; [apply IZR_le; lia|].
      change 2251799813685247 with (IZR (2 ^ 51 - 1)). apply IZR_le. lia. }
    assert (HP : P < IZR k + 1).
    { apply Rle_lt_trans with (C * IZR k * (1 + eps)); [apply HR|].
      destruct lumaArea.
      - specialize (Hc96 eq_refl).
        assert (C * IZR k <= 96 / 100 * IZR k)
          by (apply Rmult_le_compat_r; lra).
        assert (Hu : IZR k * eps <= 2251799813685247 * eps)
          by (apply Rmult_le_compat_r; lra).
        assert (Hu' : 2251799813685247 * eps < / 2) by (subst eps; lra).
        apply Rle_lt_trans with (96 / 100 * IZR k * (1 + eps));
          [apply Rmult_le_compat_r; lra|].
        replace (96 / 100 * IZR k * (1 + eps))
          with (96 / 100 * IZR k + 96 / 100 * (IZR k * eps)) by ring.
        lra.
      - assert (C * IZR k <= (1 + eps) * IZR k)
          by (apply Rmult_le_compat_r; lra).
        assert (Hu : IZR k * eps <= 2251799813685247 * eps)
          by (apply Rmult_le_compat_r; lra).
        assert (Hu' : 2251799813685247 * eps < / 2) by (subst eps; lra).
        assert (0 <= C * IZR k)
          by (apply Rmult_le_pos; [pose proof (p2_pos (-64)); lra | lra]).
        apply Rle_lt_trans with ((1 + eps) * IZR k * (1 + eps)).
        + apply Rmult_le_compat_r; lra.
        + replace ((1 + eps) * IZR k * (1 + eps))
            with (IZR k + 2 * (IZR k * eps) + (IZR k * eps) * eps) by ring.
          assert (IZR k * eps * eps <= / 2 * eps)
            by (apply Rmult_le_compat_r; lra).
          assert (2 * (2251799813685247 * eps) + / 2 * eps < 1)
            by (subst eps; lra).
          lra. }
    assert (HP63 : P < IZR (2 ^ 63)).
    { apply Rlt_le_trans with (IZR k + 1); [assumption|].
      change (IZR (2 ^ 63)) with 9223372036854775808. lra. }
    destruct (to_int_floor _ m e E HP63) as [T0 T1]. fold P in T1.
    split; [exact T0|].
    assert (IZR (Float64.to_int (c * Float64.of_int k)) < IZR (k + 1))
      by (rewrite plus_IZR; lra).
    apply lt_IZR in H. lia.
Qed.

(** A luma that is not at or above a threshold of [1.0] at most is below
    [1.0]. *)
Lemma below_one (x t : float) :
  nonneg (Prim2SF x) = true ->
  (t <=? x)%float = false -> (t <=? 1)%float = true ->
  (x <? 1)%float = true.
Proof.
  intros Hx Ht H1.
  pose proof Ht as Ht'. pose proof H1 as H1'.
  rewrite leb_spec in Ht', H1'. rewrite ltb_spec.
  change (Prim2SF 1) with (S754_finite false 4503599627370496 (-52)) in *.
  destruct (Prim2SF x) as [s|s| |s m e] eqn:Ex; try discriminate.
  - destruct s; reflexivity.
  - destruct s; [discriminate|].
    destruct (Prim2SF t) as [[]|[]| |[] mt et]; discriminate.
  - destruct s; [discriminate|].
    destruct (Prim2SF t) as [st|st| |st mt et] eqn:Et;
      try (destruct st; discriminate); try discriminate.
    destruct st; [discriminate|].
    rewrite <- Ex.
    change (S754_finite false 4503599627370496 (-52)) with (Prim2SF 1).
    rewrite <- ltb_spec.
    apply (proj2 (ltb_pos x 1 m e 4503599627370496 (-52) Ex eq_refl)).
    assert (HT : toR (Prim2SF t) <= toR (Prim2SF 1))
      by (apply (proj1 (leb_pos t 1 mt et 4503599627370496 (-52) Et eq_refl));
          exact H1).
    assert (HX : ~ toR (Prim2SF t) <= toR (Prim2SF x)).
    { intros H. apply (proj2 (leb_pos t x mt et m e Et Ex)) in H. congruence. }
    lra.
Qed.

End Bounds.
(* ===================================================================== *)
(** ** The size of the dots *)

Lemma StronglySorted_nth {A} (R : A -> A -> Prop) (l : list A) :
  StronglySorted R l ->
  forall i j a b, (i < j)%nat ->
    nth_error l i = Some a -> nth_error l j = Some b -> R a b.
Proof.
  induction 1 as [|c l Hl IH Hc]; intros i j a b Hij Ha Hb.
  - destruct i; discriminate.
  - destruct j as [|j]; [lia|]. cbn [nth_error] in Hb.
    destruct i as [|i]; cbn [nth_error] in Ha.
    + injection Ha as <-. rewrite Forall_forall in Hc.
      apply Hc. eapply nth_error_In. exact Hb.
    + apply (IH i j); [lia | assumption | assumption].
Qed.

(** The half of a box and its scaled length, where [int] holds them. *)
Lemma half_box boxSize scale :
  1 <= boxSize < GoInt.two63 -> 0 <= scale -> boxSize / 2 * scale < 2 ^ 51 ->
  GoInt.quot boxSize 2 = boxSize / 2
  /\ GoInt.mul (boxSize / 2) scale = boxSize / 2 * scale
  /\ 0 <= boxSize / 2 * scale.
Proof.
  intros Hb Hs Hk. unfold GoInt.two63 in *.
  assert (H2 : 0 <= boxSize / 2 <= boxSize).
  { split; [apply Z.div_pos; lia|].
    apply Z.div_le_upper_bound; lia. }
  split; [|split].
  - unfold GoInt.quot. rewrite Z.quot_div_nonneg by lia.
    apply wrap64_id. unfold isInt, GoInt.two63. lia.
  - unfold GoInt.mul. apply wrap64_id. unfold isInt, GoInt.two63. nia.
  - nia.
Qed.

(** The radius of every circle of a run whose threshold is [1.0] at
    most. *)
Lemma grid_radii G img boxSize thr color bt709 scale lumaArea :
  (thr <=? 1)%float = true ->
  1 <= boxSize < GoInt.two63 -> 0 <= scale -> boxSize / 2 * scale < 2 ^ 51 ->
  Forall (fun c => 0 <= circleRadius c <= boxSize / 2 * scale)
         (circles (canvasOf (drawGrid G img boxSize thr color bt709 scale
                                      lumaArea))).
Proof.
  intros Ht Hb Hs Hk. rewrite circles_tl.
  destruct (half_box boxSize scale Hb Hs Hk) as (Eh & Em & Hk0).
  match goal with |- Forall ?P _ =>
    destruct (drawGrid_output P G img boxSize thr color bt709 scale lumaArea)
      as (cs & E & Hcs) end.
  - intros x y r g b _ _ _ luma Hl.
    unfold boxCircle, circleRadius, dotRadius. rewrite Eh, Em.
    assert (H0 : (0 <=? luma)%float = true)
      by (apply (luma_geb_zero (bt701 G))).
    assert (H1 : (luma <? 1)%float = true).
    { apply (Bounds.below_one luma thr);
        [apply (luma_nonneg (bt701 G)) | exact Hl | exact Ht]. }
    pose proof (Bounds.radius_bounds lumaArea luma (boxSize / 2 * scale)
                  H0 H1 ltac:(lia)) as HR.
    cbv zeta in HR. destruct lumaArea; exact HR.
  - rewrite E. exact Hcs.
Qed.

(** X11: the size of the dots.  With a threshold of 1.0 at most, as [main]
    asks, a box size of 1 at least and a scale that is not negative, the
    radius of every circle is between 0 and the half of a box, scaled,
    [(boxSize / 2) * scale], under both policies of sizing and both luma
    functions (the scaled half box is taken below [2^51]). *)
Theorem dots_radii G img boxSize thr color bt709 scale lumaArea :
  (thr <=? 1)%float = true ->
  1 <= boxSize < GoInt.two63 -> 0 <= scale -> boxSize / 2 * scale < 2 ^ 51 ->
  Forall (fun c => 0 <= circleRadius c <= boxSize / 2 * scale)
         (circles (canvasOf (drawGrid G img boxSize thr color bt709 scale
                                      lumaArea))).
Proof. exact (grid_radii G img boxSize thr color bt709 scale lumaArea). Qed.

Lemma dots_radii_witness :
  Forall (fun c => 0 <= circleRadius c <= 75)
         (circles (canvasOf (drawGrid {| bt701 := false |}
                                      (solid 640 480 (4660, 22136, 39612)) 50
                                      0.5 true false 3 true))).
Proof.
  refine (dots_radii {| bt701 := false |} (solid 640 480 (4660, 22136, 39612))
            50 0.5 true false 3 true _ _ _ _);
    [reflexivity | unfold GoInt.two63; lia | lia | cbn; lia].
Defined.

(** X12: no two dots overlap.  With a threshold of 1.0 at most, a positive
    box size and scale, a scaled half box [(boxSize / 2) * scale] below
    [2^51], and an image whose scaled extent [int] holds, the centres of two
    circles of a run are apart, along the columns or along the rows, by the
    sum of the two radii at least: the circles touch at most.  (Without the
    bound on the scaled half box float64 rounds it, and the radii can
    exceed it.) *)
Theorem dots_disjoint G img boxSize thr color bt709 scale lumaArea :
  (thr <=? 1)%float = true ->
  0 < boxSize -> 0 < scale -> 0 <= Dx img -> 0 <= Dy img ->
  Dx img * scale < GoInt.two63 -> Dy img * scale < GoInt.two63 ->
  boxSize / 2 * scale < 2 ^ 51 ->
  let dots := circles (canvasOf (drawGrid G img boxSize thr color bt709 scale
                                          lumaArea)) in
  forall i j c c',
    i <> j -> nth_error dots i = Some c -> nth_error dots j = Some c' ->
    0 <= circleRadius c /\ 0 <= circleRadius c'
    /\ (circleRadius c + circleRadius c'
          <= Z.abs (fst (circleCentre c) - fst (circleCentre c'))
        \/ circleRadius c + circleRadius c'
             <= Z.abs (snd (circleCentre c) - snd (circleCentre c'))).
Proof.
  intros Ht Hb Hs Hx0 Hy0 Hxs Hys Hk dots.
  assert (Hlim : boxSize < 2 ^ 53).
  { assert (boxSize / 2 < 2 ^ 51) by nia.
    pose proof (Z.div_mod boxSize 2 ltac:(lia)).
    pose proof (Z.mod_pos_bound boxSize 2 ltac:(lia)). lia. }
  destruct (Z_lt_le_dec (Dx img) boxSize) as [Hsmall|Hbig].
  { (* no column: no dot *)
    intros i j c c' _ Hc _. exfalso.
    assert (E : dots = []).
    { subst dots. rewrite circles_tl.
      rewrite drawGrid_steps by lia. cbv zeta. cbn [snd tl].
      assert (Hq : GoInt.quot (Dx img) boxSize <= 0).
      { apply quot_small_dims; unfold isInt, GoInt.two63 in *;
          [nia | lia | lia | right; assumption]. }
      rewrite (upto_nonpos _ Hq). reflexivity. }
    rewrite E in Hc. destruct i; discriminate. }
  assert (Hbi : 1 <= boxSize < GoInt.two63)
    by (unfold GoInt.two63 in *; lia).
  pose proof (grid_radii G img boxSize thr color bt709 scale lumaArea Ht Hbi
                ltac:(lia) Hk) as HR.
  destruct (grid_centres G img boxSize thr color bt709 scale lumaArea
              Hb Hs Hx0 Hy0 Hxs Hys) as [HC HS].
  fold dots in HR, HC, HS.
  rewrite Forall_forall in HR, HC.
  assert (Hh : 0 <= boxSize / 2 /\ 2 * (boxSize / 2) <= boxSize).
  { split; [apply Z.div_pos; lia|]. apply Z.mul_div_le. lia. }
  assert (Hpair : forall i j c c',
            (i < j)%nat ->
            nth_error dots i = Some c -> nth_error dots j = Some c' ->
            circleRadius c + circleRadius c'
              <= Z.abs (fst (circleCentre c) - fst (circleCentre c'))
            \/ circleRadius c + circleRadius c'
                 <= Z.abs (snd (circleCentre c) - snd (circleCentre c'))).
  { intros i j c c' Hij Hc Hc'.
    pose proof (HR c (nth_error_In _ _ Hc)) as Rc.
    pose proof (HR c' (nth_error_In _ _ Hc')) as Rc'.
    destruct (HC c (nth_error_In _ _ Hc)) as (x & y & _ & _ & _ & _ & Ec).
    destruct (HC c' (nth_error_In _ _ Hc')) as (x' & y' & _ & _ & _ & _ & Ec').
    pose proof (StronglySorted_nth _ _ HS i j (circleCentre c) (circleCentre c')
                  Hij (map_nth_error circleCentre i dots Hc)
                  (map_nth_error circleCentre j dots Hc')) as Hord.
    unfold columnsFirst in Hord. rewrite Ec, Ec' in *. cbn [fst snd] in *.
    set (h := boxSize / 2) in *.
    assert (Hstep : forall v v',
              (v * boxSize + h) * scale < (v' * boxSize + h) * scale ->
              boxSize * scale
              <= (v' * boxSize + h) * scale - (v * boxSize + h) * scale).
    { intros v v' Hlt.
      apply Z.mul_lt_mono_pos_r in Hlt; [|lia].
      assert (Hv : v * boxSize < v' * boxSize) by lia.
      apply Z.mul_lt_mono_pos_r in Hv; [|lia].
      replace ((v' * boxSize + h) * scale - (v * boxSize + h) * scale)
        with ((v' - v) * (boxSize * scale)) by ring.
      assert (0 < boxSize * scale) by (apply Z.mul_pos_pos; lia).
      apply Z.le_trans with (1 * (boxSize * scale)); [lia|].
      apply Z.mul_le_mono_nonneg_r; lia. }
    assert (Hsum : circleRadius c + circleRadius c' <= boxSize * scale).
    { assert (2 * h * scale <= boxSize * scale)
        by (apply Z.mul_le_mono_nonneg_r; lia).
      lia. }
    destruct Hord as [Hlt|[_ Hlt]]; [left|right];
      pose proof (Hstep _ _ Hlt); lia. }
  intros i j c c' Hij Hc Hc'.
  split; [apply (HR c (nth_error_In _ _ Hc))|].
  split; [apply (HR c' (nth_error_In _ _ Hc'))|].
  destruct (Nat.lt_total i j) as [Hlt|[Heq|Hgt]]; [|contradiction|].
  - exact (Hpair i j c c' Hlt Hc Hc').
  - destruct (Hpair j i c' c Hgt Hc' Hc) as [H|H]; [left|right]; lia.
Qed.

(** Two neighbours in the first column of a black image, drawn at scale 2:
    the circles have radius 50 and their centres are 100 apart. *)
Lemma dots_disjoint_witness :
  let c := CanvasCircle 50 50 50 "fill:#000000;stroke:none" in
  let c' := CanvasCircle 50 150 50 "fill:#000000;stroke:none" in
  0 <= circleRadius c /\ 0 <= circleRadius c'
  /\ (circleRadius c + circleRadius c'
        <= Z.abs (fst (circleCentre c) - fst (circleCentre c'))
      \/ circleRadius c + circleRadius c'
           <= Z.abs (snd (circleCentre c) - snd (circleCentre c'))).
Proof.
  refine (dots_disjoint {| bt701 := false |} (solid 100 100 blackPixel) 50 1
            true false 2 false _ _ _ _ _ _ _ _ 0%nat 1%nat _ _ _ _ _);
    try reflexivity; try (unfold GoInt.two63; cbn; lia);
    try discriminate; vm_compute; reflexivity.
Defined.
(* ===================================================================== *)
(** ** binary64: sums of positive floats *)

Module SFSum.

Import SF SFRound SFExact SFTrunc SFReal SFPos SFOps SFOps2 Scaling
       Coefficients.
Local Open Scope R_scope.

Lemma add_rel (x y : float) mx ex my ey :
  Prim2SF x = S754_finite false mx ex ->
  Prim2SF y = S754_finite false my ey ->
  Z.pos (digits2_pos mx) = 53%Z -> Z.pos (digits2_pos my) = 53%Z ->
  (-1000 <= ex <= 900)%Z -> (-1000 <= ey <= 900)%Z ->
  exists m e,
    Prim2SF (x + y)%float = S754_finite false m e
    /\ (toR (Prim2SF x) + toR (Prim2SF y)) * (1 - p2 (-52))
       <= toR (Prim2SF (x + y)%float)
       <= (toR (Prim2SF x) + toR (Prim2SF y)) * (1 + p2 (-52)).
Proof.
  intros Ex Ey Dx Dy Hx Hy. rewrite add_spec, Ex, Ey.
  unfold SF64add, SFadd. cbn [cond_Zopp].
  change IntDef.Z.min with Z.min.
  set (ez := Z.min ex ey).
  assert (Hz : (ez <= ex /\ ez <= ey /\ -1000 <= ez)%Z) by (subst ez; lia).
  rewrite !shl_align_value by lia.
  pose proof (digits2_pos_bounds mx) as [Bxl Bxu].
  pose proof (digits2_pos_bounds my) as [Byl Byu].
  rewrite Dx in Bxl, Bxu. rewrite Dy in Byl, Byu.
  assert (Px : (0 < 2 ^ (ex - ez))%Z) by (apply Z.pow_pos_nonneg; lia).
  assert (Py : (0 < 2 ^ (ey - ez))%Z) by (apply Z.pow_pos_nonneg; lia).
  destruct (Z.pos mx * 2 ^ (ex - ez) + Z.pos my * 2 ^ (ey - ez))%Z
    as [|p|p] eqn:Es; try lia.
  cbn [binary_normalize].
  pose proof (digits2_pos_bounds p) as [Bl Bu].
  set (d := Z.pos (digits2_pos p)) in *.
  assert (Hd1 : (1 <= d)%Z) by (subst d; lia).
  set (top := Z.max ex ey).
  assert (Hlow : (2 ^ (52 + (top - ez)) <= Z.pos p)%Z).
  { rewrite <- Es, Z.pow_add_r by lia.
    destruct (Z.max_spec ex ey) as [[_ E]|[_ E]]; fold top in E; rewrite E;
      nia. }
  assert (Hhigh : (Z.pos p < 2 ^ (54 + (top - ez)))%Z).
  { rewrite <- Es. replace (54 + (top - ez))%Z with (1 + (53 + (top - ez)))%Z
      by lia.
    rewrite (Z.pow_add_r 2 1) by lia. change (2 ^ 1)%Z with 2%Z.
    rewrite Z.pow_add_r by lia.
    assert (2 ^ (ex - ez) <= 2 ^ (top - ez))%Z
      by (apply Z.pow_le_mono_r; lia).
    assert (2 ^ (ey - ez) <= 2 ^ (top - ez))%Z
      by (apply Z.pow_le_mono_r; lia).
    nia. }
  assert (Hdl : (52 + (top - ez) < d)%Z).
  { apply (Z.pow_lt_mono_r_iff 2); lia. }
  assert (Hdu : (d - 1 < 54 + (top - ez))%Z).
  { apply (Z.pow_lt_mono_r_iff 2); lia. }
  destruct (binary_round_rel p ez ltac:(fold d; lia) ltac:(fold d; lia))
    as (m & e & Er & HV).
  exists m, e. rewrite Er. split; [reflexivity|].
  unfold toR. rewrite !Rmult_1_l.
  assert (Ev : IZR (Z.pos p) * p2 ez
               = IZR (Z.pos mx) * p2 ex + IZR (Z.pos my) * p2 ey).
  { rewrite <- Es, plus_IZR, !mult_IZR, <- !p2_IZR by lia.
    rewrite Rmult_plus_distr_r, !Rmult_assoc, <- !p2_add.
    replace (ex - ez + ez)%Z with ex by lia.
    replace (ey - ez + ez)%Z with ey by lia. reflexivity. }
  rewrite <- Ev. exact HV.
Qed.

End SFSum.

(* ===================================================================== *)
(** ** Luma of 8-bit colours: the range *)

Module Luma8.

Import SF SFRound SFExact SFTrunc SFReal SFPos SFOps SFOps2 Scaling
       Coefficients SFSum.
Local Open Scope R_scope.

Lemma p2_values :
  p2 (-5) = / 32 /\ p2 (-4) = / 16 /\ p2 9 = 512 /\ p2 (-52) = / 4503599627370496.
Proof.
  split; [exact (p2_neg 5 ltac:(lia))|].
  split; [exact (p2_neg 4 ltac:(lia))|].
  split; [rewrite (p2_IZR 9) by lia; reflexivity | exact eps_value].
Qed.

(** [float64(v)] for a channel [v] from 1 to 255. *)
Lemma channel_float v :
  (0 < v <= 255)%Z ->
  exists M e,
    Prim2SF (Float64.of_uint32 v) = S754_finite false M e
    /\ Z.pos (digits2_pos M) = 53%Z /\ (-52 <= e <= 0)%Z
    /\ toR (Prim2SF (Float64.of_uint32 v)) = IZR v.
Proof.
  intros Hv.
  assert (E : Float64.of_uint32 v = Float64.of_int v).
  { unfold Float64.of_uint32, Float64.of_int.
    rewrite Z.abs_eq by lia. change GoInt.two63 with (2 ^ 63)%Z.
    destruct (Z.ltb_spec v (2 ^ 63)); [|lia].
    destruct (Z.ltb_spec v 0); [lia|]. reflexivity. }
  rewrite E. apply toR_of_int. lia.
Qed.

(** A channel times its weight. *)
Lemma weighted_channel (w : float) mw ew v :
  Prim2SF w = S754_finite false mw ew ->
  p2 (-4) <= toR (Prim2SF w) <= 1 ->
  (0 <= v <= 255)%Z ->
  upTo (w * Float64.of_uint32 v) (toR (Prim2SF w) * IZR v * (1 + p2 (-52))).
Proof.
  intros Ew Rw Hv.
  destruct p2_values as (P5 & P4 & P9 & Pe). rewrite Pe, P4 in *.
  assert (Hv' : 0 <= IZR v <= 255) by (split; apply IZR_le; lia).
  split.
  { apply Rmult_le_pos; [apply Rmult_le_pos; lra | lra]. }
  destruct (Z.eq_dec v 0) as [->|Hv0].
  - left. rewrite mul_spec, Ew. reflexivity.
  - right.
    destruct (channel_float v ltac:(lia)) as (M & e & E & D & X & R).
    assert (Rw' : p2 (-4) <= toR (Prim2SF w) <= p2 0)
      by (rewrite P4; change (p2 0) with 1; lra).
    destruct (exponent_range w mw ew (-4) 0 Ew ltac:(lia) Rw') as [Dw Xw].
    destruct (mul_rel w (Float64.of_uint32 v) mw ew M e Ew E Dw D
                ltac:(lia) ltac:(lia)) as (m & e' & Em & HR).
    exists m, e'. split; [exact Em|]. rewrite R, Pe in HR. rewrite P5.
    split; [|apply HR].
    apply Rle_trans with (toR (Prim2SF w) * IZR v * (1 - / 4503599627370496));
      [|apply HR].
    assert (1 <= IZR v) by (apply IZR_le; lia).
    apply Rle_trans with (/ 16 * 1 * (1 - / 4503599627370496)); [lra|].
    apply Rmult_le_compat_r; [lra|].
    apply Rmult_le_compat; lra.
Qed.

(** The sum of two such floats. *)
Lemma upTo_add (x y : float) bx by_ :
  upTo x bx -> upTo y by_ -> bx + by_ <= 511 ->
  upTo (x + y) ((bx + by_) * (1 + p2 (-52))).
Proof.
  intros [Hbx Hx] [Hby Hy] Hb. unfold upTo.
  destruct p2_values as (P5 & P4 & P9 & Pe). rewrite Pe, P5 in *.
  split; [apply Rmult_le_pos; lra|].
  destruct Hx as [Ex|(mx & ex & Ex & Rx)], Hy as [Ey|(my & ey & Ey & Ry)].
  - left. rewrite add_spec, Ex, Ey. reflexivity.
  - right. exists my, ey.
    assert (E : Prim2SF (x + y) = Prim2SF y)
      by (rewrite add_spec, Ex, Ey; reflexivity).
    rewrite E. split; [exact Ey|]. split; [apply Ry|].
    apply Rle_trans with (by_ * 1); [lra|].
    apply Rmult_le_compat; lra.
  - right. exists mx, ex.
    assert (E : Prim2SF (x + y) = Prim2SF x)
      by (rewrite add_spec, Ex, Ey; reflexivity).
    rewrite E. split; [exact Ex|]. split; [apply Rx|].
    apply Rle_trans with (bx * 1); [lra|].
    apply Rmult_le_compat; lra.
  - right.
    assert (Rx' : p2 (-5) <= toR (Prim2SF x) <= p2 9) by (rewrite P5, P9; lra).
    assert (Ry' : p2 (-5) <= toR (Prim2SF y) <= p2 9) by (rewrite P5, P9; lra).
    destruct (exponent_range x mx ex (-5) 9 Ex ltac:(lia) Rx') as [Dx Xx].
    destruct (exponent_range y my ey (-5) 9 Ey ltac:(lia) Ry') as [Dy Xy].
    destruct (add_rel x y mx ex my ey Ex Ey Dx Dy ltac:(lia) ltac:(lia))
      as (m & e & E & HR).
    exists m, e. split; [exact E|]. rewrite Pe in HR. split.
    + apply Rle_trans
        with ((toR (Prim2SF x) + toR (Prim2SF y)) * (1 - / 4503599627370496));
        [|apply HR].
      apply Rle_trans with ((/ 32 + / 32) * (1 - / 4503599627370496)); [lra|].
      apply Rmult_le_compat_r; lra.
    + apply Rle_trans
        with ((toR (Prim2SF x) + toR (Prim2SF y)) * (1 + / 4503599627370496));
        [apply HR|].
      apply Rmult_le_compat_r; lra.
Qed.

(** The quotient by [255.0]. *)
Lemma upTo_div (x : float) b :
  upTo x b -> b <= 512 ->
  Prim2SF (x / 255.0)%float = S754_zero false
  \/ exists m e,
       Prim2SF (x / 255.0)%float = S754_finite false m e
       /\ toR (Prim2SF (x / 255.0)%float) <= b / 255 * (1 + p2 (-52)).
Proof.
  intros [Hb0 Hx] Hb.
  destruct p2_values as (P5 & P4 & P9 & Pe). rewrite Pe, P5 in *.
  destruct Hx as [Ex|(mx & ex & Ex & Rx)].
  - left. rewrite div_spec, Ex. reflexivity.
  - right.
    assert (Rx' : p2 (-5) <= toR (Prim2SF x) <= p2 9) by (rewrite P5, P9; lra).
    destruct (exponent_range x mx ex (-5) 9 Ex ltac:(lia) Rx') as [Dx Xx].
    destruct (div_rel x 255.0 mx ex 8972014882652160 (-45) Ex eq_refl Dx
                eq_refl ltac:(lia) ltac:(lia)) as (m & e & E & HR).
    exists m, e. split; [exact E|]. rewrite Pe in HR.
    assert (T : toR (Prim2SF 255.0) = 255).
    { change (Prim2SF 255.0) with (S754_finite false 8972014882652160 (-45)).
      unfold toR.
      replace (p2 (-45)) with (/ 35184372088832)
        by (symmetry; exact (p2_neg 45 ltac:(lia))).
      lra. }
    rewrite T in HR.
    apply Rle_trans with (toR (Prim2SF x) / 255 * (1 + / 4503599627370496));
      [apply HR|].
    apply Rmult_le_compat_r; [lra|].
    unfold Rdiv. apply Rmult_le_compat_r; lra.
Qed.

(** The luma of an 8-bit colour, for weights between [1/16] and [1]: zero,
    or a positive float within four roundings of the weighted mean. *)
Lemma weightedLuma_bound (wr wg wb : float) mr er mg eg mb eb r g b :
  Prim2SF wr = S754_finite false mr er ->
  Prim2SF wg = S754_finite false mg eg ->
  Prim2SF wb = S754_finite false mb eb ->
  p2 (-4) <= toR (Prim2SF wr) <= 1 ->
  p2 (-4) <= toR (Prim2SF wg) <= 1 ->
  p2 (-4) <= toR (Prim2SF wb) <= 1 ->
  toR (Prim2SF wr) + toR (Prim2SF wg) + toR (Prim2SF wb) <= 2 ->
  (0 <= r <= 255)%Z -> (0 <= g <= 255)%Z -> (0 <= b <= 255)%Z ->
  let eps := / 4503599627370496 in
  let mean := ((toR (Prim2SF wr) * IZR r * (1 + eps)
                + toR (Prim2SF wg) * IZR g * (1 + eps)) * (1 + eps)
               + toR (Prim2SF wb) * IZR b * (1 + eps)) * (1 + eps) in
  Prim2SF (weightedLuma wr wg wb r g b) = S754_zero false
  \/ exists m e,
       Prim2SF (weightedLuma wr wg wb r g b) = S754_finite false m e
       /\ toR (Prim2SF (weightedLuma wr wg wb r g b))
          <= mean / 255 * (1 + eps).
Proof.
  intros Er Eg Eb Rr Rg Rb Hsum Hr Hg Hb eps mean. subst mean.
  destruct p2_values as (P5 & P4 & P9 & Pe).
  pose proof (weighted_channel wr mr er r Er Rr Hr) as Ur.
  pose proof (weighted_channel wg mg eg g Eg Rg Hg) as Ug.
  pose proof (weighted_channel wb mb eb b Eb Rb Hb) as Ub.
  rewrite Pe, P4 in *. fold eps in Ur, Ug, Ub.
  assert (Heps : 0 < eps <= / 1000000000000000) by (subst eps; lra).
  assert (Hr' : 0 <= IZR r <= 255) by (split; apply IZR_le; lia).
  assert (Hg' : 0 <= IZR g <= 255) by (split; apply IZR_le; lia).
  assert (Hb' : 0 <= IZR b <= 255) by (split; apply IZR_le; lia).
  set (Wr := toR (Prim2SF wr)) in *. set (Wg := toR (Prim2SF wg)) in *.
  set (Wb := toR (Prim2SF wb)) in *.
  assert (Br : 0 <= Wr * IZR r <= Wr * 255)
    by (split; [apply Rmult_le_pos | apply Rmult_le_compat_l]; lra).
  assert (Bg : 0 <= Wg * IZR g <= Wg * 255)
    by (split; [apply Rmult_le_pos | apply Rmult_le_compat_l]; lra).
  assert (Bb : 0 <= Wb * IZR b <= Wb * 255)
    by (split; [apply Rmult_le_pos | apply Rmult_le_compat_l]; lra).
  assert (Cr : Wr * IZR r * (1 + eps) <= Wr * IZR r + 255 * eps).
  { replace (Wr * IZR r * (1 + eps)) with (Wr * IZR r + Wr * IZR r * eps)
      by ring.
    assert (Wr * IZR r * eps <= 255 * eps)
      by (apply Rmult_le_compat_r; lra). lra. }
  assert (Cg : Wg * IZR g * (1 + eps) <= Wg * IZR g + 255 * eps).
  { replace (Wg * IZR g * (1 + eps)) with (Wg * IZR g + Wg * IZR g * eps)
      by ring.
    assert (Wg * IZR g * eps <= 255 * eps)
      by (apply Rmult_le_compat_r; lra). lra. }
  assert (Cb : Wb * IZR b * (1 + eps) <= Wb * IZR b + 255 * eps).
  { replace (Wb * IZR b * (1 + eps)) with (Wb * IZR b + Wb * IZR b * eps)
      by ring.
    assert (Wb * IZR b * eps <= 255 * eps)
      by (apply Rmult_le_compat_r; lra). lra. }
  pose proof (upTo_add _ _ _ _ Ur Ug ltac:(lra)) as U2.
  rewrite Pe in U2. fold eps in U2.
  assert (C2 : (Wr * IZR r * (1 + eps) + Wg * IZR g * (1 + eps)) * (1 + eps)
               <= 511).
  { apply Rle_trans with (510.1 * (1 + eps)); [|lra].
    apply Rmult_le_compat_r; lra. }
  assert (U3 := upTo_add _ _ _ _ U2 Ub).
  rewrite Pe in U3. fold eps in U3.
  assert (C3 : (Wr * IZR r * (1 + eps) + Wg * IZR g * (1 + eps)) * (1 + eps)
               + Wb * IZR b * (1 + eps) <= 511).
  { assert ((Wr * IZR r * (1 + eps) + Wg * IZR g * (1 + eps)) * (1 + eps)
            <= (Wr * IZR r + Wg * IZR g + 510 * eps) * (1 + eps))
      by (apply Rmult_le_compat_r; lra).
    assert ((Wr * IZR r + Wg * IZR g + 510 * eps) * (1 + eps)
            <= Wr * IZR r + Wg * IZR g + 0.01).
    { replace ((Wr * IZR r + Wg * IZR g + 510 * eps) * (1 + eps))
        with (Wr * IZR r + Wg * IZR g + 510 * eps
              + (Wr * IZR r + Wg * IZR g + 510 * eps) * eps) by ring.
      assert ((Wr * IZR r + Wg * IZR g + 510 * eps) * eps <= 1000 * eps)
        by (apply Rmult_le_compat_r; lra).
      lra. }
    lra. }
  specialize (U3 C3).
  assert (C4 : ((Wr * IZR r * (1 + eps) + Wg * IZR g * (1 + eps)) * (1 + eps)
                + Wb * IZR b * (1 + eps)) * (1 + eps) <= 512).
  { apply Rle_trans with (511 * (1 + eps)); [|lra].
    apply Rmult_le_compat_r; lra. }
  destruct (upTo_div _ _ U3 C4) as [Z|(m & e & E & HR)].
  - left. exact Z.
  - right. exists m, e. split; [exact E|]. rewrite Pe in HR. exact HR.
Qed.

End Luma8.
(* ===================================================================== *)
(** ** Luma of 8-bit colours: the two functions *)

Module LumaRange.

Import SF SFRound SFExact SFTrunc SFReal SFPos SFOps SFOps2 Scaling
       Coefficients SFSum Luma8.
Local Open Scope R_scope.

Lemma toR_const (f : float) (m : positive) (n : Z) :
  Prim2SF f = S754_finite false m (- n) -> (0 <= n)%Z ->
  toR (Prim2SF f) = IZR (Z.pos m) / IZR (2 ^ n).
Proof.
  intros E Hn. rewrite E. unfold toR. rewrite p2_neg by assumption.
  unfold Rdiv. ring.
Qed.

Lemma not_white r g b :
  (0 <= r <= 255)%Z -> (0 <= g <= 255)%Z -> (0 <= b <= 255)%Z ->
  (r = 255 /\ g = 255 /\ b = 255)%Z
  \/ ((0 <= IZR r <= 255 /\ 0 <= IZR g <= 255 /\ 0 <= IZR b <= 255)
      /\ (IZR r <= 254 \/ IZR g <= 254 \/ IZR b <= 254)).
Proof.
  intros Hr Hg Hb.
  destruct (Z.eq_dec r 255) as [Er|Nr], (Z.eq_dec g 255) as [Eg|Ng],
           (Z.eq_dec b 255) as [Eb|Nb];
    try (left; repeat split; assumption);
    right; (split; [repeat split; apply IZR_le; lia|]).
  all: try (left; apply IZR_le; lia).
  all: try (right; left; apply IZR_le; lia).
  all: right; right; apply IZR_le; lia.
Qed.

Lemma lumaBT709_le_one r g b :
  (0 <= r <= 255)%Z -> (0 <= g <= 255)%Z -> (0 <= b <= 255)%Z ->
  (lumaBT709 r g b <=? 1)%float = true.
Proof.
  intros Hr Hg Hb.
  destruct (not_white r g b Hr Hg Hb) as [(-> & -> & ->)|[Hc Hn]];
    [vm_compute; reflexivity|].
  pose proof (toR_const 0.2126 7659722246231740 55 eq_refl ltac:(lia)) as Wr.
  pose proof (toR_const 0.7152 6441948906990757 53 eq_refl ltac:(lia)) as Wg.
  pose proof (toR_const 0.0722 5202558289538397 56 eq_refl ltac:(lia)) as Wb.
  change (IZR (2 ^ 55)) with 36028797018963968 in Wr.
  change (IZR (2 ^ 53)) with 9007199254740992 in Wg.
  change (IZR (2 ^ 56)) with 72057594037927936 in Wb.
  destruct p2_values as (_ & P4 & _ & _).
  destruct (weightedLuma_bound 0.2126 0.7152 0.0722 _ _ _ _ _ _ r g b
              eq_refl eq_refl eq_refl
              ltac:(rewrite P4, Wr; lra) ltac:(rewrite P4, Wg; lra)
              ltac:(rewrite P4, Wb; lra) ltac:(rewrite Wr, Wg, Wb; lra)
              Hr Hg Hb) as [Z|(m & e & E & HR)];
    change (weightedLuma 0.2126 0.7152 0.0722 r g b) with (lumaBT709 r g b)
      in *.
  - rewrite leb_spec, Z. reflexivity.
  - apply (proj2 (leb_pos _ 1 m e 4503599627370496 (-52) E eq_refl)).
    change (Prim2SF 1) with (S754_finite false 4503599627370496 (-52)).
    rewrite toR_one.
    apply Rle_trans with (1 := HR). rewrite Wr, Wg, Wb.
    destruct Hc as (Cr & Cg & Cb). destruct Hn as [H|[H|H]]; lra.
Qed.

Lemma lumaBT601_le r g b :
  (0 <= r <= 255)%Z -> (0 <= g <= 255)%Z -> (0 <= b <= 255)%Z ->
  (lumaBT601 r g b <=? 1.03)%float = true.
Proof.
  intros Hr Hg Hb.
  destruct (not_white r g b Hr Hg Hb) as [(-> & -> & ->)|[Hc Hn]];
    [vm_compute; reflexivity|].
  pose proof (toR_const 0.299 5386305154335113 54 eq_refl ltac:(lia)) as Wr.
  pose proof (toR_const 0.587 5287225962532962 53 eq_refl ltac:(lia)) as Wg.
  pose proof (toR_const 0.144 5188146770730811 55 eq_refl ltac:(lia)) as Wb.
  pose proof (toR_const 1.03 4638707616191611 52 eq_refl ltac:(lia)) as Wt.
  change (IZR (2 ^ 54)) with 18014398509481984 in Wr.
  change (IZR (2 ^ 53)) with 9007199254740992 in Wg.
  change (IZR (2 ^ 55)) with 36028797018963968 in Wb.
  change (IZR (2 ^ 52)) with 4503599627370496 in Wt.
  destruct p2_values as (_ & P4 & _ & _).
  destruct (weightedLuma_bound 0.299 0.587 0.144 _ _ _ _ _ _ r g b
              eq_refl eq_refl eq_refl
              ltac:(rewrite P4, Wr; lra) ltac:(rewrite P4, Wg; lra)
              ltac:(rewrite P4, Wb; lra) ltac:(rewrite Wr, Wg, Wb; lra)
              Hr Hg Hb) as [Z|(m & e & E & HR)];
    change (weightedLuma 0.299 0.587 0.144 r g b) with (lumaBT601 r g b) in *.
  - rewrite leb_spec, Z. reflexivity.
  - apply (proj2 (leb_pos _ 1.03 m e 4638707616191611 (-52) E eq_refl)).
    rewrite Wt.
    apply Rle_trans with (1 := HR). rewrite Wr, Wg, Wb.
    destruct Hc as (Cr & Cg & Cb). destruct Hn as [H|[H|H]]; lra.
Qed.

End LumaRange.

(** X13: the range of the luma of an 8-bit colour.  [lumaBT709] returns a
    value from 0.0 to 1.0, as its comment says; [lumaBT601], whose weights
    add up to 1.03, returns a value from 0.0 to 1.03. *)
Theorem luma_range r g b :
  0 <= r <= 255 -> 0 <= g <= 255 -> 0 <= b <= 255 ->
  inUnit (lumaBT709 r g b) = true
  /\ (0 <=? lumaBT601 r g b)%float = true
  /\ (lumaBT601 r g b <=? 1.03)%float = true.
Proof.
  intros Hr Hg Hb. unfold inUnit.
  pose proof (luma_geb_zero true r g b) as H9.
  pose proof (luma_geb_zero false r g b) as H6.
  unfold Float64.geb in H9, H6. cbv iota in H9, H6.
  rewrite H9, (LumaRange.lumaBT709_le_one r g b Hr Hg Hb).
  split; [reflexivity|]. split; [exact H6|].
  exact (LumaRange.lumaBT601_le r g b Hr Hg Hb).
Qed.

Lemma luma_range_witness :
  inUnit (lumaBT709 12 200 255) = true
  /\ (0 <=? lumaBT601 12 200 255)%float = true
  /\ (lumaBT601 12 200 255 <=? 1.03)%float = true.
Proof. apply luma_range; lia. Defined.
(* ===================================================================== *)
(** ** The earlier makeDots and the later one *)

Lemma wrap64_isInt z : isInt (GoInt.wrap64 z).
Proof.
  unfold isInt. rewrite wrap64_mod. change GoInt.two63 with (2 ^ 63).
  pose proof (Z.mod_pos_bound (z + 2 ^ 63) (2 ^ 64) ltac:(lia)). lia.
Qed.

Lemma mul_one_wrapped z : GoInt.mul (GoInt.wrap64 z) 1 = GoInt.wrap64 z.
Proof.
  unfold GoInt.mul. rewrite Z.mul_1_r. apply wrap64_id, wrap64_isInt.
Qed.

Lemma mul_one_quot a b : GoInt.mul (GoInt.quot a b) 1 = GoInt.quot a b.
Proof. exact (mul_one_wrapped (Z.quot a b)). Qed.

Lemma mul_one_add a b : GoInt.mul (GoInt.add a b) 1 = GoInt.add a b.
Proof. exact (mul_one_wrapped (a + b)). Qed.

Lemma mul_one_int z : isInt z -> GoInt.mul z 1 = z.
Proof. intros H. unfold GoInt.mul. rewrite Z.mul_1_r. apply wrap64_id, H. Qed.

(** X16: the later [makeDots] does what the earlier one did.  Called with
    scale 1 and the linear radius, and with [color] the opposite of the
    earlier [mono], it ends as the earlier version ends and writes the same
    file, for every image whose extent [int] holds. *)
Theorem earlier_makeDots G img boxSize thr (mono bt709 : bool) name w :
  isInt (Dx img) -> isInt (Dy img) ->
  V1.makeDots G img boxSize thr mono bt709 name w
  = makeDots G img boxSize thr (negb mono) bt709 name 1 false w.
Proof.
  intros Hx Hy.
  assert (E : V1.drawGrid G img boxSize thr mono bt709
              = drawGrid G img boxSize thr (negb mono) bt709 1 false).
  { assert (Hfe : forall ws hs,
      Draw.forEach (upto ws) (fun x =>
        Draw.forEach (upto hs) (fun y =>
          V1.drawBox (if bt701 G then lumaBT709 else lumaBT601) img boxSize
                     (GoInt.quot boxSize 2) (GoInt.mul boxSize boxSize) thr
                     mono x y))
      = Draw.forEach (upto ws) (fun x =>
          Draw.forEach (upto hs) (fun y =>
            drawBox (if bt701 G then lumaBT709 else lumaBT601) img boxSize
                    (GoInt.quot boxSize 2) (GoInt.mul boxSize boxSize) thr
                    (negb mono) 1 false x y))).
    { intros ws hs.
      apply forEach_ext_in. intros x _. apply forEach_ext_in. intros y _.
      unfold V1.drawBox, drawBox, dotRadius.
      destruct (averageColor img boxSize (GoInt.mul boxSize boxSize) x y)
        as [[[r g] b]|]; [|reflexivity].
      cbn [Draw.lift Draw.bind Draw.ret].
      destruct (Float64.geb _ thr); [reflexivity|].
      rewrite !mul_one_add, !mul_one_quot.
      destruct mono; reflexivity. }
    unfold V1.drawGrid, drawGrid. cbv zeta.
    rewrite !mul_one_int by assumption.
    destruct (GoInt.quo (Dx img) boxSize) as [ws|]; [|reflexivity].
    destruct (GoInt.quo (Dy img) boxSize) as [hs|]; [|reflexivity].
    cbn [Draw.lift Draw.bind Draw.ret Draw.emit app].
    rewrite Hfe. reflexivity. }
  unfold V1.makeDots, makeDots. rewrite E. reflexivity.
Qed.

Lemma earlier_makeDots_witness :
  V1.makeDots {| bt701 := false |} (solid 100 100 blackPixel) 50 1 false false
              "out.svg" emptyWorld
  = makeDots {| bt701 := false |} (solid 100 100 blackPixel) 50 1 true false
             "out.svg" 1 false emptyWorld.
Proof.
  refine (earlier_makeDots {| bt701 := false |} (solid 100 100 blackPixel) 50 1
            false false "out.svg" emptyWorld _ _);
    unfold isInt, GoInt.two63; cbn; lia.
Defined.
(* ===================================================================== *)
(** ** Raising the threshold *)

Module Threshold.

Import SF SFPos.
Local Open Scope R_scope.

(** The test [luma >= t] carries over to a lower threshold that is not
    negative. *)
Lemma geb_lower (luma t t' : float) :
  (0 <=? t)%float = true -> (t <=? t')%float = true ->
  Float64.geb luma t' = true -> Float64.geb luma t = true.
Proof.
  unfold Float64.geb. intros H0 Ht Hl.
  pose proof H0 as H0'. pose proof Ht as Ht'. pose proof Hl as Hl'.
  rewrite leb_spec in H0', Ht', Hl'. rewrite leb_spec.
  change (Prim2SF 0) with (S754_zero false) in H0'.
  destruct (Prim2SF t) as [s|s| |s m e] eqn:Et; try discriminate.
  - (* the lower threshold is zero *)
    destruct (Prim2SF t') as [s'|s'| |s' m' e'] eqn:Et'; try discriminate;
      destruct (Prim2SF luma) as [sl|sl| |sl ml el] eqn:El; try discriminate;
      try (destruct s'; discriminate);
      try (destruct sl; try reflexivity; destruct s'; discriminate).
  - (* it is infinite *)
    destruct s; [discriminate|].
    destruct (Prim2SF t') as [s'|s'| |s' m' e'] eqn:Et'; try discriminate;
      try (destruct s'; discriminate).
    destruct s'; [discriminate|].
    destruct (Prim2SF luma) as [sl|sl| |sl ml el] eqn:El; try discriminate;
      try (destruct sl; discriminate).
    destruct sl; [discriminate | reflexivity].
  - (* it is positive and finite *)
    destruct s; [discriminate|].
    destruct (Prim2SF t') as [s'|s'| |s' m' e'] eqn:Et'; try discriminate;
      try (destruct s'; discriminate); (destruct s'; [discriminate|]).
    + destruct (Prim2SF luma) as [sl|sl| |sl ml el] eqn:El; try discriminate;
        try (destruct sl; discriminate).
      destruct sl; [discriminate | reflexivity].
    + destruct (Prim2SF luma) as [sl|sl| |sl ml el] eqn:El; try discriminate;
        try (destruct sl; discriminate).
      * destruct sl; [discriminate | reflexivity].
      * destruct sl; [discriminate|].
        rewrite <- Et, <- El, <- leb_spec.
        apply (proj2 (leb_pos t luma m e ml el Et El)).
        pose proof (proj1 (leb_pos t t' m e m' e' Et Et') Ht).
        pose proof (proj1 (leb_pos t' luma m' e' ml el Et' El) Hl).
        lra.
Qed.

End Threshold.

Lemma quot_by_zero d : GoInt.quot d 0 = 0.
Proof. unfold GoInt.quot. rewrite Z.quot_0_r_ext by reflexivity. reflexivity. Qed.

(** The circle of a box that passes the threshold is on the canvas. *)
Lemma drawGrid_draws G img boxSize thr color bt709 scale lumaArea x y r g b :
  0 <= x < GoInt.quot (Dx img) boxSize ->
  0 <= y < GoInt.quot (Dy img) boxSize ->
  averageColor img boxSize (GoInt.mul boxSize boxSize) x y = Some (r, g, b) ->
  let luma := (if bt701 G then lumaBT709 else lumaBT601) r g b in
  Float64.geb luma thr = false ->
  In (boxCircle luma r g b boxSize (GoInt.quot boxSize 2) color scale
                lumaArea x y)
     (circles (canvasOf (drawGrid G img boxSize thr color bt709 scale
                                  lumaArea))).
Proof.
  intros Hx Hy E luma Hthr.
  assert (Hb : boxSize <> 0).
  { intros ->. rewrite quot_by_zero in Hx. lia. }
  rewrite circles_tl.
  rewrite drawGrid_boxes
    by (try assumption; apply (averageColor_divisor _ _ _ _ _ _ E)).
  cbn [snd tl].
  apply in_flat_map. exists x. split; [apply In_upto; assumption|].
  apply in_flat_map. exists y. split; [apply In_upto; assumption|].
  rewrite (drawBox_average _ _ _ _ _ _ _ _ _ _ _ _ _ _ E).
  fold luma. rewrite Hthr. left. reflexivity.
Qed.

(** X17: raising the threshold removes no dot.  For two thresholds
    [0.0 <= t <= t'], every circle of the run with threshold [t] is a circle
    of the run with threshold [t'], with the same centre, radius and style;
    the two runs end in the same way. *)
Theorem threshold_monotone G img boxSize (t t' : float) color bt709 scale
        lumaArea :
  (0 <=? t)%float = true -> (t <=? t')%float = true ->
  incl (circles (canvasOf (drawGrid G img boxSize t color bt709 scale
                                    lumaArea)))
       (circles (canvasOf (drawGrid G img boxSize t' color bt709 scale
                                    lumaArea)))
  /\ fst (drawGrid G img boxSize t color bt709 scale lumaArea)
     = fst (drawGrid G img boxSize t' color bt709 scale lumaArea).
Proof.
  intros H0 Ht. split; [|rewrite !drawGrid_exit; reflexivity].
  set (dots' := circles (canvasOf (drawGrid G img boxSize t' color bt709 scale
                                            lumaArea))).
  rewrite circles_tl.
  destruct (drawGrid_output (fun c => In c dots') G img boxSize t color bt709
              scale lumaArea) as (cs & E & Hcs).
  - intros x y r g b Hx Hy Ea luma Hl.
    apply drawGrid_draws; try assumption.
    destruct (Float64.geb ((if bt701 G then lumaBT709 else lumaBT601) r g b) t')
      eqn:Hl'; [|reflexivity].
    pose proof (Threshold.geb_lower _ t t' H0 Ht Hl') as Hc.
    fold luma in Hc. congruence.
  - rewrite E. cbn [tl]. intros c Hc. rewrite Forall_forall in Hcs.
    exact (Hcs c Hc).
Qed.

(** A black image: the four dots of the run at 0.25 are dots of the run at
    0.75. *)
Lemma threshold_monotone_witness :
  incl (circles (canvasOf (drawGrid {| bt701 := true |}
                                    (solid 100 100 blackPixel) 50
                                    0.25 true false 1 false)))
       (circles (canvasOf (drawGrid {| bt701 := true |}
                                    (solid 100 100 blackPixel) 50
                                    0.75 true false 1 false))).
Proof.
  exact (proj1 (threshold_monotone {| bt701 := true |}
                  (solid 100 100 blackPixel) 50 0.25 0.75 true
                  false 1 false eq_refl eq_refl)).
Defined.

(* ===================================================================== *)
(** ** What the flags for colour and sizing change *)

Lemma forEach_map {A B} (f : SvgCmd -> B) (l : list A)
      (body body' : A -> Draw.M unit) :
  (forall a, fst (body a) = fst (body' a)
             /\ map f (snd (body a)) = map f (snd (body' a))) ->
  fst (Draw.forEach l body) = fst (Draw.forEach l body')
  /\ map f (snd (Draw.forEach l body)) = map f (snd (Draw.forEach l body')).
Proof.
  intros H. induction l as [|a l [IH1 IH2]]; cbn [Draw.forEach];
    [split; reflexivity|].
  destruct (H a) as [H1 H2].
  destruct (body a) as [[[]|e] out], (body' a) as [[[]|e'] out'];
    cbn [fst snd Draw.bind] in *; try discriminate.
  - destruct (Draw.forEach l body) as [r o], (Draw.forEach l body') as [r' o'].
    cbn [fst snd] in *. split; [assumption|].
    rewrite !map_app, H2, IH2. reflexivity.
  - split; assumption.
Qed.

Lemma drawGrid_map {B} (f : SvgCmd -> B) G img boxSize thr bt709 scale
      (color color' lumaArea lumaArea' : bool) :
  (forall luma r g b x y,
     f (boxCircle luma r g b boxSize (GoInt.quot boxSize 2) color scale
                  lumaArea x y)
     = f (boxCircle luma r g b boxSize (GoInt.quot boxSize 2) color' scale
                    lumaArea' x y)) ->
  map f (circles (canvasOf (drawGrid G img boxSize thr color bt709 scale
                                     lumaArea)))
  = map f (circles (canvasOf (drawGrid G img boxSize thr color' bt709 scale
                                       lumaArea'))).
Proof.
  intros Hf. rewrite !circles_tl.
  destruct (Z.eq_dec boxSize 0) as [->|Hb]; [reflexivity|].
  rewrite !drawGrid_steps by assumption. cbv zeta. cbn [snd tl].
  apply forEach_map. intros x. apply forEach_map. intros y.
  destruct (averageColor img boxSize (GoInt.mul boxSize boxSize) x y)
    as [[[r g] b]|] eqn:E.
  - rewrite !(drawBox_average _ _ _ _ _ _ _ _ _ _ _ _ _ _ E).
    destruct (Float64.geb _ thr); [split; reflexivity|].
    cbn [Draw.emit fst snd map]. rewrite Hf. split; reflexivity.
  - unfold drawBox. rewrite E. split; reflexivity.
Qed.

(** X18: what the flags [-c] and [-a] change.  The flag for colour changes
    the style of the circles and nothing else, the flag for the sizing
    policy their radius and nothing else: the centres of the circles, in
    order, are the same for all four settings, the radii do not depend on
    [color], the styles do not depend on [lumaArea], and all four runs end
    in the same way. *)
Theorem colour_and_sizing G img boxSize thr bt709 scale
        (color color' lumaArea lumaArea' : bool) :
  let run c a := drawGrid G img boxSize thr c bt709 scale a in
  let dots c a := circles (canvasOf (run c a)) in
  map circleCentre (dots color lumaArea) = map circleCentre (dots color' lumaArea')
  /\ map circleRadius (dots color lumaArea) = map circleRadius (dots color' lumaArea)
  /\ map circleStyle (dots color lumaArea) = map circleStyle (dots color lumaArea')
  /\ fst (run color lumaArea) = fst (run color' lumaArea').
Proof.
  intros run dots. subst run dots. cbv beta.
  split; [|split; [|split]].
  - apply drawGrid_map. intros. reflexivity.
  - apply drawGrid_map. intros. reflexivity.
  - apply drawGrid_map. intros. reflexivity.
  - rewrite !drawGrid_exit. reflexivity.
Qed.

(* ===================================================================== *)
(** ** Luma: what holds for every colour, and for greys *)

(** X15: the luma is never negative.  For all channel values, 8-bit or
    not, both luma functions return a float that is not below 0.0 and is
    not NaN, so that a threshold of 0.0 leaves no dot. *)
Theorem luma_not_negative (bt : bool) r g b :
  let luma := (if bt then lumaBT709 else lumaBT601) r g b in
  (0 <=? luma)%float = true /\ (luma <? 0)%float = false
  /\ Float64.geb luma 0 = true.
Proof.
  intros luma. pose proof (luma_geb_zero bt r g b) as H. fold luma in H.
  split; [exact H|]. split; [|exact H].
  apply geb_not_ltb. exact H.
Qed.

(** X14: greys under BT.709.  For every 8-bit grey [(v, v, v)] the luma of
    [lumaBT709] is [v / 255.0] to within [2^-52]: its weights add up to
    one. *)
Theorem lumaBT709_grey v :
  0 <= v <= 255 ->
  (abs (lumaBT709 v v v - Float64.of_uint32 v / 255.0) <=? 0x1p-52)%float = true.
Proof. exact (lumaBT709_equal_channels v). Qed.

Lemma lumaBT709_grey_witness :
  (abs (lumaBT709 128 128 128 - Float64.of_uint32 128 / 255.0) <=? 0x1p-52)%float
  = true.
Proof. apply lumaBT709_grey. lia. Defined.

(* ===================================================================== *)
(** ** The average colour of a small box *)

(** X19: the average colour where no sum overflows.  On an image of 16-bit
    channels and for a box side from 1 to 256, each average of a box of the
    grid is the sum of the channel over the pixels of the box, divided by
    the number of pixels times 257, the fraction dropped: dividing by the
    number of pixels first and by 257 second, as the code does, or the other
    way round, gives this same value. *)
Theorem average_of_box img boxSize x y :
  sixteenBit img -> 0 < boxSize <= 256 ->
  0 <= x /\ (x + 1) * boxSize < GoInt.two63 ->
  0 <= y /\ (y + 1) * boxSize < GoInt.two63 ->
  averageColor img boxSize (GoInt.mul boxSize boxSize) x y
  = Some (channelSum red img boxSize x y / (257 * (boxSize * boxSize)),
          channelSum green img boxSize x y / (257 * (boxSize * boxSize)),
          channelSum blue img boxSize x y / (257 * (boxSize * boxSize)))
  /\ averageColor img boxSize (GoInt.mul boxSize boxSize) x y
     = Some (specAverage red img boxSize x y,
             specAverage green img boxSize x y,
             specAverage blue img boxSize x y).
Proof.
  intros H16 Hb Hx Hy.
  pose proof (averageColor_refines img boxSize x y H16 Hb Hx Hy) as E.
  split; [|exact E]. rewrite E. unfold specAverage.
  assert (Hch : forall ch,
            (forall c r, 0 <= ch (At img c r) <= 65535) ->
            Z.quot (Z.quot (channelSum ch img boxSize x y) 257)
                   (boxSize * boxSize)
            = channelSum ch img boxSize x y / (257 * (boxSize * boxSize))).
  { intros ch Hc.
    pose proof (channelSum_bounds ch img boxSize x y Hc ltac:(lia)) as Hs.
    rewrite (Z.quot_div_nonneg (channelSum ch img boxSize x y) 257) by lia.
    rewrite Z.quot_div_nonneg; [|apply Z.div_pos; lia|nia].
    rewrite Z.div_div by nia. reflexivity. }
  rewrite !Hch; [reflexivity| | |]; intros c r; apply (H16 c r).
Qed.

Lemma average_of_box_witness :
  averageColor (solid 100 100 whitePixel) 50 (GoInt.mul 50 50) 1 1
  = Some (specAverage red (solid 100 100 whitePixel) 50 1 1,
          specAverage green (solid 100 100 whitePixel) 50 1 1,
          specAverage blue (solid 100 100 whitePixel) 50 1 1).
Proof.
  refine (proj2 (average_of_box (solid 100 100 whitePixel) 50 1 1 _ _ _ _));
    [intros x y; cbn; lia | lia | unfold GoInt.two63; lia
     | unfold GoInt.two63; lia].
Defined.
(* ===================================================================== *)
(** ** The largest dot *)

(** X20: the dot of a black box.  Under the linear policy and a threshold
    above 0.0, a box of the grid whose average colour is [(0, 0, 0)] is
    drawn with the radius [(boxSize / 2) * scale] exactly, the largest the
    policy gives, as long as float64 holds that product (it is below
    [2^53]); its fill is [#000000] in colour mode. *)
Theorem black_box_radius G img boxSize thr (color bt709 : bool) scale x y :
  0 <= x < GoInt.quot (Dx img) boxSize ->
  0 <= y < GoInt.quot (Dy img) boxSize ->
  averageColor img boxSize (GoInt.mul boxSize boxSize) x y = Some (0, 0, 0) ->
  (0 <? thr)%float = true ->
  let boxHalf := GoInt.quot boxSize 2 in
  0 < boxHalf -> 0 < scale -> boxHalf * scale < 2 ^ 53 ->
  In (CanvasCircle
        (GoInt.mul (GoInt.add (GoInt.mul x boxSize) boxHalf) scale)
        (GoInt.mul (GoInt.add (GoInt.mul y boxSize) boxHalf) scale)
        (boxHalf * scale)
        (if color then "fill:#000000;stroke:none"%string
         else "fill:black;stroke:none"%string))
     (circles (canvasOf (drawGrid G img boxSize thr color bt709 scale false))).
Proof.
  intros Hx Hy E Ht boxHalf Hh Hs Hk.
  pose proof (drawGrid_draws G img boxSize thr color bt709 scale false x y
                0 0 0 Hx Hy E) as H.
  cbv zeta in H. rewrite (black_luma (bt701 G)) in H.
  specialize (H (ltb_not_geb _ _ Ht)).
  unfold boxCircle, dotRadius in H. fold boxHalf in H.
  destruct (box_scale_product boxHalf scale Hh Hs Hk) as [Em Hk'].
  rewrite Em, (black_linear_radius _ Hk') in H.
  destruct color; exact H.
Qed.

Lemma black_box_radius_witness :
  In (CanvasCircle 225 75 75 "fill:#000000;stroke:none")
     (circles (canvasOf (drawGrid {| bt701 := false |}
                                  (solid 100 100 blackPixel) 50 0.5 true false
                                  3 false))).
Proof.
  refine (black_box_radius {| bt701 := false |} (solid 100 100 blackPixel) 50
            0.5 true false 3 1 0 _ _ _ _ _ _ _);
    try (vm_compute; reflexivity); vm_compute; split; congruence.
Defined.
(* ===================================================================== *)
(** ** The radius: float64 and exact *)

Module Truncation.

Import SF SFRound SFExact SFTrunc SFReal SFPos SFOps SFOps2 Scaling
       Coefficients Bounds.
Local Open Scope R_scope.

(** [int(x)] for a positive float below [2^63] is the float with its
    fraction dropped. *)
Lemma to_int_truncates (x : float) m e :
  Prim2SF x = S754_finite false m e ->
  toR (Prim2SF x) < IZR (2 ^ 63) ->
  truncationOf (toR (Prim2SF x)) (Float64.to_int x).
Proof.
  intros E H. unfold truncationOf, Float64.to_int. rewrite E in *.
  unfold toR in *. rewrite Rmult_1_l in *.
  set (a := Z.shiftl (Z.pos m) e).
  assert (Ha0 : (0 <= a)%Z) by (subst a; apply Z.shiftl_nonneg; lia).
  assert (Ha : IZR a <= IZR (Z.pos m) * p2 e < IZR a + 1).
  { subst a. destruct (Z_le_gt_dec 0 e) as [He|He].
    - rewrite Z.shiftl_mul_pow2 by lia.
      rewrite mult_IZR, <- p2_IZR by lia. lra.
    - rewrite Z.shiftl_div_pow2 by lia.
      assert (HP : (0 < 2 ^ (- e))%Z) by (apply Z.pow_pos_nonneg; lia).
      assert (Hp : p2 e = / IZR (2 ^ (- e))).
      { replace e with (- (- e))%Z at 1 by lia. apply p2_neg. lia. }
      rewrite Hp.
      pose proof (Z.mod_pos_bound (Z.pos m) (2 ^ (- e)) HP) as Hm.
      pose proof (Z.div_mod (Z.pos m) (2 ^ (- e)) ltac:(lia)) as Hd.
      set (q := (Z.pos m / 2 ^ (- e))%Z) in *.
      assert (Hle : (q * 2 ^ (- e) <= Z.pos m)%Z) by lia.
      assert (Hlt : (Z.pos m < (q + 1) * 2 ^ (- e))%Z) by lia.
      apply IZR_le in Hle. apply IZR_lt in Hlt.
      rewrite mult_IZR in Hle. rewrite mult_IZR, plus_IZR in Hlt.
      assert (HP' : 0 < IZR (2 ^ (- e))) by (apply IZR_lt; lia).
      split.
      + apply Rmult_le_reg_r with (IZR (2 ^ (- e))); [assumption|].
        rewrite Rmult_assoc, Rinv_l by lra. lra.
      + apply Rmult_lt_reg_r with (IZR (2 ^ (- e))); [assumption|].
        rewrite Rmult_assoc, Rinv_l by lra. lra. }
  assert (Hlt : (a < 2 ^ 63)%Z) by (apply lt_IZR; lra).
  change GoInt.two63 with (2 ^ 63)%Z.
  destruct (Z.leb_spec (- 2 ^ 63) a) as [_|?]; [|lia].
  destruct (Z.ltb_spec a (2 ^ 63)) as [_|?]; [|lia].
  cbn [andb]. split; assumption.
Qed.

Lemma sqrt_scaled x s :
  0 <= x -> 0 <= s -> R_sqrt.sqrt (x * (s * s)) = R_sqrt.sqrt x * s.
Proof.
  intros Hx Hs. rewrite sqrt_mult by nra. rewrite sqrt_square by assumption.
  reflexivity.
Qed.

(** The coefficient of the radius, [1 - luma] or
    [sqrt((1 - luma) / Pi) * 1.7], in float64 against its exact value:
    three roundings at most. *)
Lemma coefficient_value (lumaArea : bool) (luma : float) :
  (0 <=? luma)%float = true -> (luma <? 1)%float = true ->
  let c := if lumaArea
           then (PrimFloat.sqrt ((1 - luma) / Float64.Pi) * 1.7)%float
           else (1 - luma)%float in
  let l := toR (Prim2SF luma) in
  let exact := if lumaArea then R_sqrt.sqrt ((1 - l) / piR) * weightR
               else 1 - l in
  exists mc ec,
    Prim2SF c = S754_finite false mc ec
    /\ p2 (-64) <= toR (Prim2SF c) <= 2
    /\ 0 <= exact
    /\ exact * ((1 - eps) * (1 - eps) * (1 - eps)) <= toR (Prim2SF c)
       <= exact * ((1 + eps) * (1 + eps) * (1 + eps)).
Proof.
  intros H0 H1 c l exact.
  destruct (coefficient_chain luma (-53) H0 H1 ltac:(lia) (unit_gap luma H0 H1))
    as (mL & eL & mA & eA & Q & EL & EA & Hl & HL & HQ & HA & RL & RA).
  pose proof eps_value as Heps. rewrite Heps in *.
  rewrite toR_Pi, toR_weight in *. fold l in Hl, HL.
  fold eps piR weightR in *.
  set (L := toR (Prim2SF (1 - luma)%float)) in *.
  set (A := toR (Prim2SF (PrimFloat.sqrt ((1 - luma) / Float64.Pi) * 1.7)%float))
    in *.
  assert (Heps' : 0 < eps <= / 1000000000000000) by (unfold eps; lra).
  set (d := 1 - eps) in *. set (u := 1 + eps) in *.
  assert (Hd : 0 < d <= 1) by (subst d; lra).
  assert (Hu : 1 <= u) by (subst u; lra).
  assert (Hdd : 0 < d * d <= 1).
  { split; [apply Rmult_lt_0_compat; lra|].
    apply Rle_trans with (1 * 1); [apply Rmult_le_compat; lra | lra]. }
  assert (Huu : 1 <= u * u).
  { apply Rle_trans with (1 * 1); [lra | apply Rmult_le_compat; lra]. }
  assert (HX : 0 <= 1 - l) by lra.
  subst c exact. destruct lumaArea.
  - exists mA, eA. split; [exact EA|]. fold A. split; [exact RA|].
    assert (Hpi : 0 < piR) by (unfold piR; lra).
    assert (Hw : 0 < weightR) by (unfold weightR; lra).
    assert (HXp : 0 <= (1 - l) / piR).
    { apply Rmult_le_pos; [lra|]. apply Rlt_le, Rinv_0_lt_compat. exact Hpi. }
    assert (Hip : 0 <= / piR) by (apply Rlt_le, Rinv_0_lt_compat; exact Hpi).
    assert (HL0 : 0 <= L) by (pose proof (p2_pos (-64)); lra).
    assert (HLp : 0 <= L / piR) by (apply Rmult_le_pos; assumption).
    (* the quotient *)
    assert (HQ' : (1 - l) / piR * (d * d) <= Q <= (1 - l) / piR * (u * u)).
    { split.
      - apply Rle_trans with (L / piR * d); [|apply HQ].
        replace ((1 - l) / piR * (d * d)) with ((1 - l) * d / piR * d)
          by (unfold Rdiv; ring).
        apply Rmult_le_compat_r; [lra|].
        apply Rmult_le_compat_r; [exact Hip | apply HL].
      - apply Rle_trans with (L / piR * u); [apply HQ|].
        replace ((1 - l) / piR * (u * u)) with ((1 - l) * u / piR * u)
          by (unfold Rdiv; ring).
        apply Rmult_le_compat_r; [lra|].
        apply Rmult_le_compat_r; [exact Hip | apply HL]. }
    (* its square root *)
    set (S := R_sqrt.sqrt ((1 - l) / piR)) in *.
    assert (HS0 : 0 <= S) by apply sqrt_pos.
    assert (HS : S * d <= R_sqrt.sqrt Q <= S * u).
    { split.
      - unfold S. rewrite <- sqrt_scaled by lra.
        apply sqrt_le_1_alt. apply HQ'.
      - unfold S. rewrite <- sqrt_scaled by lra.
        apply sqrt_le_1_alt. apply HQ'. }
    assert (HSW : 0 <= S * weightR) by (apply Rmult_le_pos; lra).
    split; [exact HSW|]. split.
    + apply Rle_trans with (R_sqrt.sqrt Q * weightR * (d * d)); [|apply HA].
      replace (S * weightR * (d * d * d)) with (S * d * weightR * (d * d))
        by ring.
      apply Rmult_le_compat_r; [lra|].
      apply Rmult_le_compat_r; [lra | apply HS].
    + apply Rle_trans with (R_sqrt.sqrt Q * weightR * (u * u)); [apply HA|].
      replace (S * weightR * (u * u * u)) with (S * u * weightR * (u * u))
        by ring.
      apply Rmult_le_compat_r; [lra|].
      apply Rmult_le_compat_r; [lra | apply HS].
  - exists mL, eL. split; [exact EL|]. fold L. split; [exact RL|].
    split; [exact HX|]. split.
    + apply Rle_trans with ((1 - l) * d); [|apply HL].
      apply Rmult_le_compat_l; [exact HX|].
      replace (d * d * d) with (d * (d * d)) by ring.
      apply Rle_trans with (d * 1); [apply Rmult_le_compat_l; lra | lra].
    + apply Rle_trans with ((1 - l) * u); [apply HL|].
      apply Rmult_le_compat_l; [exact HX|].
      replace (u * u * u) with (u * (u * u)) by ring.
      apply Rle_trans with (u * 1); [lra | apply Rmult_le_compat_l; lra].
Qed.

(** The radius in float64: its integer part is what [int] gives, and it is
    within four roundings of the exact value of the formula. *)
Lemma radius_value (lumaArea : bool) (luma : float) k :
  (0 <=? luma)%float = true -> (luma <? 1)%float = true ->
  (0 <= k < 2 ^ 51)%Z ->
  let c := if lumaArea
           then (PrimFloat.sqrt ((1 - luma) / Float64.Pi) * 1.7)%float
           else (1 - luma)%float in
  let F := (c * Float64.of_int k)%float in
  let exact := realRadius lumaArea (toR (Prim2SF luma)) k in
  truncationOf (toR (Prim2SF F)) (Float64.to_int F)
  /\ exact * (1 - eps) ^ 4 <= toR (Prim2SF F) <= exact * (1 + eps) ^ 4.
Proof.
  intros H0 H1 Hk c F exact.
  destruct (coefficient_value lumaArea luma H0 H1)
    as (mc & ec & Ec & Rc & Hx0 & Hx).
  cbv zeta in Ec, Rc, Hx0, Hx. fold c in Ec, Rc, Hx.
  set (X := if lumaArea
            then R_sqrt.sqrt ((1 - toR (Prim2SF luma)) / piR) * weightR
            else 1 - toR (Prim2SF luma)) in *.
  assert (EX : exact = X * IZR k)
    by (subst exact X; unfold realRadius; destruct lumaArea; reflexivity).
  rewrite EX. clear EX exact. subst F.
  assert (Heps' : 0 < eps <= / 1000000000000000) by (unfold eps; lra).
  set (d := 1 - eps) in *. set (u := 1 + eps) in *.
  assert (Hd : 0 < d <= 1) by (subst d; lra).
  assert (Hu : 1 <= u) by (subst u; lra).
  replace (d ^ 4) with (d * d * d * d) by (cbn [pow]; ring).
  replace (u ^ 4) with (u * u * u * u) by (cbn [pow]; ring).
  destruct (Z.eq_dec k 0) as [->|Hk0].
  - assert (E0 : Prim2SF (c * Float64.of_int 0) = S754_zero false).
    { rewrite mul_spec, Ec. reflexivity. }
    unfold truncationOf, Float64.to_int. rewrite E0. cbn [toR].
    split; [split; [lia | lra]|]. lra.
  - destruct (toR_of_int k ltac:(lia)) as (Mk & ek & Ek & Dk & Xk & Rk).
    assert (Rc' : p2 (-64) <= toR (Prim2SF c) <= p2 1).
    { rewrite (p2_IZR 1) by lia. change (IZR (2 ^ 1)) with 2. exact Rc. }
    destruct (exponent_range c mc ec (-64) 1 Ec ltac:(lia) Rc') as [Dc Xc].
    destruct (mul_rel c (Float64.of_int k) mc ec Mk ek Ec Ek Dc Dk
                ltac:(lia) ltac:(lia)) as (m & e & E & HR).
    rewrite eps_value, Rk in HR. fold eps d u in HR.
    set (C := toR (Prim2SF c)) in *.
    set (P := toR (Prim2SF (c * Float64.of_int k))) in *.
    assert (Hk1 : 1 <= IZR k <= 2251799813685247).
    { split; [apply IZR_le; lia|].
      change 2251799813685247 with (IZR (2 ^ 51 - 1)). apply IZR_le. lia. }
    assert (HC0 : 0 <= C) by (pose proof (p2_pos (-64)); lra).
    assert (HCk : 0 <= C * IZR k) by (apply Rmult_le_pos; lra).
    assert (HP63 : P < IZR (2 ^ 63)).
    { apply Rle_lt_trans with (C * IZR k * u); [apply HR|].
      assert (C * IZR k <= 2 * 2251799813685247)
        by (apply Rmult_le_compat; lra).
      apply Rle_lt_trans with (2 * 2251799813685247 * u);
        [apply Rmult_le_compat_r; lra|].
      change (IZR (2 ^ 63)) with 9223372036854775808. subst u. lra. }
    split; [exact (to_int_truncates _ m e E HP63)|].
    split.
    + apply Rle_trans with (C * IZR k * d); [|apply HR].
      replace (X * IZR k * (d * d * d * d))
        with (X * (d * d * d) * IZR k * d) by ring.
      apply Rmult_le_compat_r; [lra|].
      apply Rmult_le_compat_r; [lra | apply Hx].
    + apply Rle_trans with (C * IZR k * u); [apply HR|].
      replace (X * IZR k * (u * u * u * u))
        with (X * (u * u * u) * IZR k * u) by ring.
      apply Rmult_le_compat_r; [lra|].
      apply Rmult_le_compat_r; [lra | apply Hx].
Qed.

End Truncation.
(* ===================================================================== *)
(** ** The radius that is drawn *)

(** C7, as the code has it.  For a box of the grid that passes the
    threshold the canvas holds a circle whose radius is [int(F)], where [F]
    is the float64 value of the policy's formula,
    [(1.0 - luma) * float64(boxHalf * scale)] or
    [sqrt((1.0 - luma) / Pi) * 1.7 * float64(boxHalf * scale)], every
    operation rounded to float64, with [boxHalf = boxSize / 2]; a radius of
    zero is drawn like any other.  For a threshold of 1.0 at most and a
    product [boxHalf * scale] from 0 to below [2^51], [int(F)] is [F] with
    its fraction dropped, and [F] is within four roundings, a factor
    [(1 +- 2^-52)^4], of the exact value of the formula; the radius is not
    always the exact value with its fraction dropped. *)
Theorem truncated_radius G img boxSize thr (color bt709 : bool) scale
        (lumaArea : bool) x y r g b :
  boxSize <> 0 ->
  0 <= x < GoInt.quot (Dx img) boxSize ->
  0 <= y < GoInt.quot (Dy img) boxSize ->
  averageColor img boxSize (GoInt.mul boxSize boxSize) x y = Some (r, g, b) ->
  let luma := (if bt701 G then lumaBT709 else lumaBT601) r g b in
  Float64.geb luma thr = false ->
  let boxHalf := GoInt.quot boxSize 2 in
  let k := GoInt.mul boxHalf scale in
  let radius :=
    if lumaArea
    then (PrimFloat.sqrt ((1.0 - luma) / Float64.Pi) * 1.7
          * Float64.of_int k)%float
    else ((1.0 - luma) * Float64.of_int k)%float in
  let cx := GoInt.mul (GoInt.add (GoInt.mul x boxSize) boxHalf) scale in
  let cy := GoInt.mul (GoInt.add (GoInt.mul y boxSize) boxHalf) scale in
  let style := if color then fillColor r g b else fillBlack in
  let dots := circles (canvasOf (drawGrid G img boxSize thr color bt709 scale
                                          lumaArea)) in
  In (CanvasCircle cx cy (Float64.to_int radius) style) dots
  /\ (Float64.to_int radius = 0 -> In (CanvasCircle cx cy 0 style) dots)
  /\ ((thr <=? 1)%float = true -> 0 <= k < 2 ^ 51 ->
      truncationOf (SF.toR (Prim2SF radius)) (Float64.to_int radius)
      /\ (realRadius lumaArea (SF.toR (Prim2SF luma)) k * (1 - SF.eps) ^ 4
          <= SF.toR (Prim2SF radius)
          <= realRadius lumaArea (SF.toR (Prim2SF luma)) k
             * (1 + SF.eps) ^ 4)%R).
Proof.
  intros Hb Hx Hy E luma Hthr boxHalf k radius cx cy style dots.
  assert (Hin : In (CanvasCircle cx cy (Float64.to_int radius) style) dots).
  { pose proof (drawGrid_draws G img boxSize thr color bt709 scale lumaArea
                  x y r g b Hx Hy E Hthr) as H.
    unfold boxCircle, dotRadius in H. fold luma boxHalf k cx cy style in H.
    subst radius dots. destruct lumaArea; exact H. }
  split; [exact Hin|]. split; [intros H0; rewrite <- H0; exact Hin|].
  intros Ht Hk.
  assert (H0 : (0 <=? luma)%float = true)
    by (apply (luma_geb_zero (bt701 G))).
  assert (H1 : (luma <? 1)%float = true).
  { apply (Bounds.below_one luma thr);
      [apply (luma_nonneg (bt701 G)) | exact Hthr | exact Ht]. }
  pose proof (Truncation.radius_value lumaArea luma k H0 H1 Hk) as HV.
  cbv zeta in HV. subst radius. destruct lumaArea; exact HV.
Qed.

(** A grey box of side 30 and 8-bit colour 119 under BT.709: the radius is
    8, the float64 product being [8.0]. *)
Lemma truncated_radius_witness :
  let luma := lumaBT709 119 119 119 in
  let radius := ((1.0 - luma) * Float64.of_int 15)%float in
  In (CanvasCircle 15 15 8 "fill:#777777;stroke:none")
     (circles (canvasOf (drawGrid {| bt701 := true |}
                                  (solid 30 30 (30583, 30583, 30583)) 30 1
                                  true false 1 false)))
  /\ truncationOf (SF.toR (Prim2SF radius)) 8
  /\ (realRadius false (SF.toR (Prim2SF luma)) 15 * (1 - SF.eps) ^ 4
      <= SF.toR (Prim2SF radius)
      <= realRadius false (SF.toR (Prim2SF luma)) 15 * (1 + SF.eps) ^ 4)%R.
Proof.
  intros luma radius.
  pose proof (truncated_radius {| bt701 := true |}
                (solid 30 30 (30583, 30583, 30583)) 30 1 true false 1 false
                0 0 119 119 119 ltac:(discriminate)
                ltac:(vm_compute; split; congruence)
                ltac:(vm_compute; split; congruence)
                ltac:(vm_compute; reflexivity)
                ltac:(vm_compute; reflexivity)) as H.
  cbv zeta in H. destruct H as (H1 & _ & H3).
  specialize (H3 eq_refl ltac:(vm_compute; split; congruence)).
  split; [exact H1 | exact H3].
Defined.

(** C7 as stated fails: the radius is not always the exact value of the
    formula with its fraction dropped.  For the grey box above the code
    draws the radius 8; the exact value of [(1.0 - luma) * 15] at the luma
    of the box is [8 - 2^-53], below 8, and its integer part is 7: float64
    rounds the product up to [8.0] before [int] cuts it. *)
Lemma truncated_radius_inexact :
  let luma := lumaBT709 119 119 119 in
  circles (canvasOf (drawGrid {| bt701 := true |}
                              (solid 30 30 (30583, 30583, 30583)) 30 1
                              true false 1 false))
  = [CanvasCircle 15 15 8 "fill:#777777;stroke:none"]
  /\ (realRadius false (SF.toR (Prim2SF luma)) 15 < 8)%R
  /\ truncationOf (realRadius false (SF.toR (Prim2SF luma)) 15) 7.
Proof.
  intros luma.
  split; [vm_compute; reflexivity|].
  assert (E : Prim2SF luma = S754_finite false 8406719304424926 (-54))
    by (vm_compute; reflexivity).
  rewrite E. unfold realRadius, truncationOf, SF.toR.
  replace (SF.p2 (-54)) with (/ 18014398509481984)%R
    by (symmetry; exact (Coefficients.p2_neg 54 ltac:(lia))).
  split; [lra|]. split; [lia|]. split; lra.
Qed.
